(** * Symfocus: streaming completion client and link-gated markdown rendering

    A shallow embedding of [src/llm.ts] (the Server-Sent-Events consumer
    [streamOpenAIChat]) and of [src/markdown.ts] (the location-reference
    extractor, the link authorization filter and [renderMarkdown]).

    JavaScript strings are sequences of UTF-16 code units; they are
    modelled as [list Z].  Bytes read from the network are [Byte.byte].
    Numbers that the program handles are line, column and status numbers;
    they are modelled by exact integers, which is what an IEEE double holds
    for every integer below 2^53. *)

From Stdlib Require Import ZArith List Bool Ascii Lia.
From Stdlib.Strings Require Import Byte.
From stdpp Require Import base decidable countable strings gmap.
Import ListNotations.

Set Default Proof Using "Type".

(* ===================================================================== *)
(** * JavaScript strings *)
(* ===================================================================== *)

Module JS.

Abbreviation jstring := (list Z).

(** A literal: the code units of an ASCII Rocq string. *)
Definition js (s : string) : jstring :=
  map (fun a => Z.of_N (N_of_ascii a)) (String.list_ascii_of_string s).
Arguments js s%_string.

(** A literal in which the apostrophe stands for the double quote. *)
Definition jsq (s : string) : jstring :=
  map (fun c => if (c =? 39)%Z then 34%Z else c) (js s).
Arguments jsq s%_string.

(** The double quote and the line feed, which have no convenient literal. *)
Definition dq : jstring := [34%Z].
Definition nl : jstring := [10%Z].

Definition jstring_eqb (a b : jstring) : bool := bool_decide (a = b).

(** [s.startsWith(p)] *)
Fixpoint startsWith (p s : jstring) : bool :=
  match p, s with
  | [], _ => true
  | _ :: _, [] => false
  | a :: p', b :: s' => (a =? b)%Z && startsWith p' s'
  end.

(** [s.includes(p)] *)
Fixpoint includes (p s : jstring) : bool :=
  startsWith p s ||
  match s with
  | [] => false
  | _ :: s' => includes p s'
  end.

(** White space and line terminators of ECMAScript: the characters that
    [String.prototype.trim] strips and that [\s] matches. *)
Definition isWhiteSpace (c : Z) : bool :=
  ((9 <=? c) && (c <=? 13) || (c =? 32) || (c =? 160) || (c =? 5760)
   || ((8192 <=? c) && (c <=? 8202)) || (c =? 8232) || (c =? 8233)
   || (c =? 8239) || (c =? 8287) || (c =? 12288) || (c =? 65279))%Z.

Fixpoint trimStart (s : jstring) : jstring :=
  match s with
  | c :: s' => if isWhiteSpace c then trimStart s' else s
  | [] => []
  end.

Definition trimEnd (s : jstring) : jstring := rev (trimStart (rev s)).

(** [s.trim()] *)
Definition trim (s : jstring) : jstring := trimEnd (trimStart s).

(** [s.split(sep)] for a separator of one code unit.  The result is never
    empty: a string without the separator is its own single piece. *)
Fixpoint split (sep : Z) (s : jstring) : list jstring :=
  match s with
  | [] => [[]]
  | c :: s' =>
      if (c =? sep)%Z then [] :: split sep s'
      else match split sep s' with
           | [] => [[c]]
           | p :: ps => (c :: p) :: ps
           end
  end.

(** [parts.join(sep)] *)
Fixpoint join (sep : jstring) (parts : list jstring) : jstring :=
  match parts with
  | [] => []
  | [p] => p
  | p :: ps => p ++ sep ++ join sep ps
  end.

(** [s.slice(start, end)] with JavaScript's treatment of negative
    indices: a negative index counts from the end of the string. *)
Definition sliceIndex (len i : Z) : nat :=
  Z.to_nat (if (i <? 0)%Z then Z.max (len + i) 0 else Z.min i len).

Definition slice (s : jstring) (start stop : Z) : jstring :=
  let len := Z.of_nat (length s) in
  let a := sliceIndex len start in
  let b := sliceIndex len stop in
  firstn (b - a) (skipn a s).

(** [s.slice(start)] *)
Definition sliceFrom (s : jstring) (start : Z) : jstring :=
  skipn (sliceIndex (Z.of_nat (length s)) start) s.

(** Decimal digits of a non-negative integer, most significant first. *)
Fixpoint digitsFuel (fuel : nat) (n : Z) (acc : jstring) : jstring :=
  match fuel with
  | O => acc
  | S f =>
      let acc' := (48 + n mod 10)%Z :: acc in
      if (n <? 10)%Z then acc' else digitsFuel f (n / 10)%Z acc'
  end.

Definition isDigit (c : Z) : bool := ((48 <=? c) && (c <=? 57))%Z.

(** The integer that a string of decimal digits writes. *)
Definition decimalValue (s : jstring) : Z :=
  fold_left (fun acc c => (acc * 10 + (c - 48))%Z) s 0%Z.

(** ** Numbers

    The numbers of the program are the line, column and status numbers:
    integers, held in doubles.  A double with an integer value is an
    integer of at most 53 significant bits, below [2^1024]; such a
    number is a [Z], and [infinity], one binade above every double,
    stands for [Infinity] (its opposite for [-Infinity]). *)
Definition infinity : Z := (2 ^ 1024)%Z.

Definition isFiniteNumber (n : Z) : bool := (Z.abs n <? infinity)%Z.

(** The double nearest to a non-negative integer: 53 significant bits
    are kept and the rest is rounded, a tie going to the even mantissa;
    what rounds to [2^1024] is [Infinity]. *)
Definition roundMagnitude (n : Z) : Z :=
  if (n <? 2 ^ 53)%Z then n
  else
    let e := (Z.log2 n - 52)%Z in
    let q := Z.shiftr n e in
    let r := (n - Z.shiftl q e)%Z in
    let half := Z.shiftl 1 (e - 1) in
    let q' := if (half <? r)%Z || ((r =? half)%Z && Z.odd q) then (q + 1)%Z else q in
    let v := Z.shiftl q' e in
    if (infinity <=? v)%Z then infinity else v.

Definition roundDouble (n : Z) : Z :=
  if (n <? 0)%Z then (- roundMagnitude (- n))%Z else roundMagnitude n.

(** [parseInt(s, 10)] on a string of decimal digits (the only strings the
    program passes: every argument is a [\d+] capture): the double
    nearest to the integer written, as the engine of the editor computes
    it (ECMAScript lets an engine drop the digits after the 20th). *)
Definition parseInt (s : jstring) : Z := roundDouble (decimalValue s).

(** The decimal digits of a non-negative integer. *)
Definition decimalDigits (n : Z) : jstring :=
  digitsFuel (S (Z.to_nat (Z.log2 n))) n [].

(** Twice the two ends of the interval of the reals that round to the
    double [n], for [n] from [2^53] on, and whether the ends themselves
    round to [n] (they do when the mantissa of [n] is even).  The double
    below [n] is half as far when [n] is a power of two. *)
Definition roundingInterval (n : Z) : Z * Z * bool :=
  let e := (Z.log2 n - 52)%Z in
  let q := Z.shiftr n e in
  let above := Z.shiftl 1 e in
  let below := if (q =? 2 ^ 52)%Z then Z.shiftl 1 (e - 1) else above in
  ((2 * n - below)%Z, (2 * n + above)%Z, Z.even q).

(** The multiple of [t] nearest to [n] among those that round to [n], if
    there is one; of two equally near, the one with the even factor. *)
Definition nearestMultiple (n : Z) (interval : Z * Z * bool) (t : Z) : option Z :=
  let '(lo2, hi2, closed) := interval in
  let inside v :=
    if closed then (lo2 <=? 2 * v)%Z && (2 * v <=? hi2)%Z
    else (lo2 <? 2 * v)%Z && (2 * v <? hi2)%Z in
  let c1 := (n / t * t)%Z in
  let c2 := (c1 + t)%Z in
  match inside c1, inside c2 with
  | true, true =>
      if (n - c1 <? c2 - n)%Z then Some c1
      else if (c2 - n <? n - c1)%Z then Some c2
      else if Z.even (n / t) then Some c1 else Some c2
  | true, false => Some c1
  | false, true => Some c2
  | false, false => None
  end.

(** The decimal with the fewest significant digits that rounds to [n]:
    its value and the number [j] of zeros that end it.  The search goes
    down from the power of ten [j]. *)
Fixpoint shortestDecimal (j : nat) (n : Z) (interval : Z * Z * bool) : Z * nat :=
  match nearestMultiple n interval (10 ^ Z.of_nat j) with
  | Some v => (v, j)
  | None =>
      match j with
      | O => (n, O)
      | S j' => shortestDecimal j' n interval
      end
  end.

(** [Number::toString] for a non-negative number: the digits of an
    integer below [2^53]; from there on the shortest decimal that reads
    back as the same double, written in full when it has at most 21
    digits and with an exponent otherwise. *)
Definition magnitudeToString (n : Z) : jstring :=
  if (infinity <=? n)%Z then js "Infinity"
  else if (n <? 2 ^ 53)%Z then decimalDigits n
  else
    let '(v, j) := shortestDecimal 310 n (roundingInterval n) in
    let digits := decimalDigits v in
    if (length digits <=? 21)%nat then digits
    else
      match firstn (length digits - j) digits with
      | [] => digits
      | [d] => d :: js "e+" ++ decimalDigits (Z.of_nat (length digits) - 1)
      | d :: more =>
          d :: js "." ++ more ++ js "e+" ++ decimalDigits (Z.of_nat (length digits) - 1)
      end.

(** [String(n)] for a number [n]. *)
Definition numberToString (n : Z) : jstring :=
  if (n <? 0)%Z then 45%Z :: magnitudeToString (- n) else magnitudeToString n.

End JS.
Export JS.

(* ===================================================================== *)
(** * The streaming UTF-8 [TextDecoder] *)
(* ===================================================================== *)

(** [new TextDecoder()] is the UTF-8 decoder of the Encoding standard, with
    replacement error mode and BOM removal.  Every call of the program is
    [decode(value, {stream: true})], which never flushes: the decoder state
    survives from one read to the next. *)
Module TextDecoder.

Record Utf8 := mkUtf8 {
  codePoint : Z;
  bytesSeen : Z;
  bytesNeeded : Z;
  lowerBoundary : Z;
  upperBoundary : Z
}.

Record t := mk {
  utf8 : Utf8;
  bomSeen : bool
}.

Definition utf8Initial : Utf8 := mkUtf8 0 0 0 128 191.

(** [new TextDecoder()] *)
Definition create : t := mk utf8Initial false.

Definition replacement : Z := 65533.

(** A byte that arrives when no sequence is in progress. *)
Definition leadByte (s : Utf8) (b : Z) : Utf8 * list Z :=
  if (b <=? 127)%Z then (s, [b])
  else if ((194 <=? b) && (b <=? 223))%Z then
    (mkUtf8 (Z.land b 31) (bytesSeen s) 1 (lowerBoundary s) (upperBoundary s), [])
  else if ((224 <=? b) && (b <=? 239))%Z then
    (mkUtf8 (Z.land b 15) (bytesSeen s) 2
       (if (b =? 224)%Z then 160%Z else lowerBoundary s)
       (if (b =? 237)%Z then 159%Z else upperBoundary s), [])
  else if ((240 <=? b) && (b <=? 244))%Z then
    (mkUtf8 (Z.land b 7) (bytesSeen s) 3
       (if (b =? 240)%Z then 144%Z else lowerBoundary s)
       (if (b =? 244)%Z then 143%Z else upperBoundary s), [])
  else (s, [replacement]).

(** The handler of the UTF-8 decoder for one byte: the new state and the
    code points emitted.  A continuation byte out of range ends the
    sequence with U+FFFD and is then read again as a lead byte. *)
Definition handler (s : Utf8) (b : Z) : Utf8 * list Z :=
  if (bytesNeeded s =? 0)%Z then leadByte s b
  else if ((b <? lowerBoundary s) || (upperBoundary s <? b))%Z then
    let '(s', out) := leadByte utf8Initial b in
    (s', replacement :: out)
  else
    let cp := Z.lor (Z.shiftl (codePoint s) 6) (Z.land b 63) in
    let seen := (bytesSeen s + 1)%Z in
    if (seen =? bytesNeeded s)%Z then (mkUtf8 0 0 0 128 191, [cp])
    else (mkUtf8 cp seen (bytesNeeded s) 128 191, []).

(** A code point as UTF-16 code units. *)
Definition utf16 (cp : Z) : jstring :=
  if (cp <? 65536)%Z then [cp]
  else
    let c := (cp - 65536)%Z in
    [(55296 + Z.shiftr c 10)%Z; (56320 + Z.land c 1023)%Z].

(** Serialising the decoder's output: the first code point of the stream
    is dropped when it is the byte order mark. *)
Fixpoint serialize (bom : bool) (cps : list Z) : bool * jstring :=
  match cps with
  | [] => (bom, [])
  | cp :: rest =>
      if bom then
        let '(bom', out) := serialize bom rest in (bom', utf16 cp ++ out)
      else if (cp =? 65279)%Z then serialize true rest
      else let '(bom', out) := serialize true rest in (bom', utf16 cp ++ out)
  end.

Definition byteValue (b : byte) : Z := Z.of_N (Byte.to_N b).

Fixpoint run (s : Utf8) (bytes : list byte) : Utf8 * list Z :=
  match bytes with
  | [] => (s, [])
  | b :: rest =>
      let '(s1, out1) := handler s (byteValue b) in
      let '(s2, out2) := run s1 rest in
      (s2, out1 ++ out2)
  end.

(** [decoder.decode(value, {stream: true})]: the decoder after the call
    and the string returned. *)
Definition decode (d : t) (value : list byte) : t * jstring :=
  let '(s, cps) := run (utf8 d) value in
  let '(bom, out) := serialize (bomSeen d) cps in
  (mk s bom, out).

End TextDecoder.

(* ===================================================================== *)
(** * [JSON.parse] and property access on the parsed value *)
(* ===================================================================== *)

Module JSON.

(** A parsed JSON text.  A number keeps its lexeme: the program never
    computes with a parsed number.  An object keeps its members in source
    order; a later member shadows an earlier one of the same name. *)
#[warnings="-register-all"]
Inductive value :=
| JNull
| JBool (b : bool)
| JNumber (lexeme : jstring)
| JString (s : jstring)
| JArray (elements : list value)
| JObject (members : list (jstring * value)).

(** JSON white space: tab, line feed, carriage return, space. *)
Definition isJsonSpace (c : Z) : bool :=
  ((c =? 9) || (c =? 10) || (c =? 13) || (c =? 32))%Z.

Fixpoint skipWs (s : jstring) : jstring :=
  match s with
  | c :: s' => if isJsonSpace c then skipWs s' else s
  | [] => []
  end.

Definition hexValue (c : Z) : option Z :=
  if isDigit c then Some (c - 48)%Z
  else if ((97 <=? c) && (c <=? 102))%Z then Some (c - 87)%Z
  else if ((65 <=? c) && (c <=? 70))%Z then Some (c - 55)%Z
  else None.

Definition hex4 (a b c d : Z) : option Z :=
  match hexValue a, hexValue b, hexValue c, hexValue d with
  | Some x, Some y, Some z, Some w => Some (((x * 16 + y) * 16 + z) * 16 + w)%Z
  | _, _, _, _ => None
  end.

(** The escape letters after a backslash, [u] apart. *)
Definition simpleEscape (c : Z) : option Z :=
  if (c =? 34)%Z then Some 34%Z          (* quotation mark *)
  else if (c =? 92)%Z then Some 92%Z     (* reverse solidus *)
  else if (c =? 47)%Z then Some 47%Z     (* solidus *)
  else if (c =? 98)%Z then Some 8%Z      (* b: backspace *)
  else if (c =? 102)%Z then Some 12%Z    (* f: form feed *)
  else if (c =? 110)%Z then Some 10%Z    (* n: line feed *)
  else if (c =? 114)%Z then Some 13%Z    (* r: carriage return *)
  else if (c =? 116)%Z then Some 9%Z     (* t: tab *)
  else None.

(** The characters of a string after its opening quote, up to and
    including the closing quote. *)
Fixpoint parseChars (s : jstring) (acc : jstring) : option (jstring * jstring) :=
  match s with
  | [] => None
  | c :: r =>
      if (c =? 34)%Z then Some (rev acc, r)
      else if (c =? 92)%Z then
        match r with
        | [] => None
        | e :: r2 =>
            if (e =? 117)%Z then
              match r2 with
              | h1 :: h2 :: h3 :: h4 :: r3 =>
                  match hex4 h1 h2 h3 h4 with
                  | Some u => parseChars r3 (u :: acc)
                  | None => None
                  end
              | _ => None
              end
            else
              match simpleEscape e with
              | Some u => parseChars r2 (u :: acc)
              | None => None
              end
        end
      else if (c <? 32)%Z then None
      else parseChars r (c :: acc)
  end.

Fixpoint spanDigits (s : jstring) : jstring * jstring :=
  match s with
  | c :: r =>
      if isDigit c then let '(ds, rest) := spanDigits r in (c :: ds, rest)
      else ([], s)
  | [] => ([], [])
  end.

(** One or more digits. *)
Definition digits1 (s : jstring) : option (jstring * jstring) :=
  match spanDigits s with
  | ([], _) => None
  | (ds, rest) => Some (ds, rest)
  end.

(** A number: an optional minus sign; a zero, or a non-zero digit and
    more digits; an optional fraction; an optional exponent. *)
Definition parseNumber (s : jstring) : option (jstring * jstring) :=
  let '(sign, s1) :=
    match s with
    | c :: r => if (c =? 45)%Z then ([c], r) else ([], s)
    | [] => ([], s)
    end in
  let intPart :=
    match s1 with
    | c :: r =>
        if (c =? 48)%Z then Some ([c], r)
        else if isDigit c then digits1 s1
        else None
    | [] => None
    end in
  match intPart with
  | None => None
  | Some (ip, s2) =>
      let fracPart :=
        match s2 with
        | c :: r =>
            if (c =? 46)%Z then
              match digits1 r with
              | Some (ds, rest) => Some (c :: ds, rest)
              | None => None
              end
            else Some ([], s2)
        | [] => Some ([], s2)
        end in
      match fracPart with
      | None => None
      | Some (fp, s3) =>
          let expPart :=
            match s3 with
            | c :: r =>
                if ((c =? 101) || (c =? 69))%Z then
                  let '(sg, r') :=
                    match r with
                    | d :: r2 =>
                        if ((d =? 43) || (d =? 45))%Z then ([d], r2) else ([], r)
                    | [] => ([], r)
                    end in
                  match digits1 r' with
                  | Some (ds, rest) => Some (c :: sg ++ ds, rest)
                  | None => None
                  end
                else Some ([], s3)
            | [] => Some ([], s3)
            end in
          match expPart with
          | None => None
          | Some (ep, s4) => Some (sign ++ ip ++ fp ++ ep, s4)
          end
      end
  end.

(** The literal names [true], [false] and [null]. *)
Definition parseLiteral (s : jstring) : option (value * jstring) :=
  if startsWith (js "true") s then Some (JBool true, skipn 4 s)
  else if startsWith (js "false") s then Some (JBool false, skipn 5 s)
  else if startsWith (js "null") s then Some (JNull, skipn 4 s)
  else None.

(** A value, the elements of an array after its first bracket, and the
    members of an object after its first brace.  Every call consumes
    one unit of fuel; [S (length s)] units are enough for a text [s]. *)
Fixpoint parseValue (fuel : nat) (s : jstring) : option (value * jstring) :=
  match fuel with
  | O => None
  | S f =>
      match skipWs s with
      | [] => None
      | c :: r =>
          if (c =? 123)%Z then
            match skipWs r with
            | c2 :: r2 =>
                if (c2 =? 125)%Z then Some (JObject [], r2)
                else
                  match parseMembers f r [] with
                  | Some (ms, rest) => Some (JObject ms, rest)
                  | None => None
                  end
            | [] => None
            end
          else if (c =? 91)%Z then
            match skipWs r with
            | c2 :: r2 =>
                if (c2 =? 93)%Z then Some (JArray [], r2)
                else
                  match parseElements f r [] with
                  | Some (vs, rest) => Some (JArray vs, rest)
                  | None => None
                  end
            | [] => None
            end
          else if (c =? 34)%Z then
            match parseChars r [] with
            | Some (str, rest) => Some (JString str, rest)
            | None => None
            end
          else if ((c =? 45) || isDigit c)%Z then
            match parseNumber (c :: r) with
            | Some (lexeme, rest) => Some (JNumber lexeme, rest)
            | None => None
            end
          else parseLiteral (c :: r)
      end
  end
with parseElements (fuel : nat) (s : jstring) (acc : list value)
  : option (list value * jstring) :=
  match fuel with
  | O => None
  | S f =>
      match parseValue f s with
      | None => None
      | Some (v, r) =>
          match skipWs r with
          | c :: r' =>
              if (c =? 44)%Z then parseElements f r' (v :: acc)
              else if (c =? 93)%Z then Some (rev (v :: acc), r')
              else None
          | [] => None
          end
      end
  end
with parseMembers (fuel : nat) (s : jstring) (acc : list (jstring * value))
  : option (list (jstring * value) * jstring) :=
  match fuel with
  | O => None
  | S f =>
      match skipWs s with
      | q :: r =>
          if (q =? 34)%Z then
            match parseChars r [] with
            | None => None
            | Some (key, r1) =>
                match skipWs r1 with
                | c :: r2 =>
                    if (c =? 58)%Z then
                      match parseValue f r2 with
                      | None => None
                      | Some (v, r3) =>
                          match skipWs r3 with
                          | d :: r4 =>
                              if (d =? 44)%Z then parseMembers f r4 ((key, v) :: acc)
                              else if (d =? 125)%Z then Some (rev ((key, v) :: acc), r4)
                              else None
                          | [] => None
                          end
                      end
                    else None
                | [] => None
                end
            end
          else None
      | [] => None
      end
  end.

(** [JSON.parse(text)]: [None] when it throws a [SyntaxError]. *)
Definition parse (text : jstring) : option value :=
  match parseValue (S (length text)) text with
  | Some (v, rest) =>
      match skipWs rest with
      | [] => Some v
      | _ :: _ => None
      end
  | None => None
  end.

(** The last member of the given name: the value of an own property. *)
Fixpoint lookupMember (key : jstring) (ms : list (jstring * value)) : option value :=
  match ms with
  | [] => None
  | (k, v) :: rest =>
      match lookupMember key rest with
      | Some v' => Some v'
      | None => if jstring_eqb k key then Some v else None
      end
  end.

(** A canonical array index: [0], or digits without a leading zero. *)
Definition arrayIndex (key : jstring) : option nat :=
  match key with
  | [] => None
  | c :: r =>
      if forallb isDigit key && (negb (c =? 48)%Z || match r with [] => true | _ => false end)
      then Some (Z.to_nat (decimalValue key))
      else None
  end.

(** [v[key]] for a parsed value [v] that is neither [null] nor
    [undefined], and a property name among those the program reads
    ([choices], [0], [delta], [message], [content], [error]): [None] is
    [undefined].  Only an object has such a named property; an array and
    a string have indexed ones. *)
Definition getProp (v : value) (key : jstring) : option value :=
  match v with
  | JObject ms => lookupMember key ms
  | JArray vs =>
      match arrayIndex key with
      | Some i => nth_error vs i
      | None => None
      end
  | JString s =>
      match arrayIndex key with
      | Some i =>
          match nth_error s i with
          | Some c => Some (JString [c])
          | None => None
          end
      | None => None
      end
  | _ => None
  end.

(** [v?.key]: [undefined] when [v] is [null] or [undefined]. *)
Definition optChain (v : option value) (key : jstring) : option value :=
  match v with
  | None | Some JNull => None
  | Some x => getProp x key
  end.

(** [typeof c === "string"] *)
Definition asString (v : option value) : option jstring :=
  match v with
  | Some (JString s) => Some s
  | _ => None
  end.

End JSON.

(* ===================================================================== *)
(** * [src/llm.ts]: the streaming completion client *)
(* ===================================================================== *)

Module Llm.
Import JSON.

Inductive Role := system | user | assistant.

Record ChatMessage := mkChatMessage {
  role : Role;
  content : jstring
}.

(** [StreamResult]: the events handed to the display layer.  [aborted] is
    an optional field of the [error] variant. *)
Inductive StreamResult :=
| Chunk (content : jstring)
| Done
| Error (message : jstring) (aborted : option bool).

(** A value thrown by the platform: an [Error] object with its [name] and
    [message], or any other value, given by [String(e)]. *)
Inductive Thrown :=
| ThrownError (name message : jstring)
| ThrownOther (text : jstring).

(** [e instanceof Error && e.name === "AbortError"] *)
Definition isAbortError (e : Thrown) : bool :=
  match e with
  | ThrownError name _ => jstring_eqb name (js "AbortError")
  | ThrownOther _ => false
  end.

(** [e instanceof Error ? e.message : String(e)] *)
Definition errorText (e : Thrown) : jstring :=
  match e with
  | ThrownError _ message => message
  | ThrownOther text => text
  end.

(** How the body of a response ends: [reader.read()] resolves with
    [done: true] (the server closed the stream, or the reader was
    cancelled), or it rejects (the merged abort signal fired, or the
    connection broke). *)
Inductive Ending :=
| EndOfStream
| ReadThrows (e : Thrown).

(** A response body as its reader delivers it: the byte blocks of the
    successive reads, then the ending. *)
Record Body := mkBody {
  reads : list (list byte);
  ending : Ending
}.

Record Response := mkResponse {
  ok : bool;
  status : Z;
  statusText : jstring;
  json : Thrown + value;      (* the outcome of [await res.json()] *)
  text : Thrown + jstring;    (* the outcome of [await res.text()] *)
  body : option Body          (* [res.body], [None] when it is null *)
}.

Inductive FetchOutcome :=
| FetchThrows (e : Thrown)
| FetchResolves (res : Response).

Record StreamOpenAIChatOpts := mkOpts {
  timeoutMs : option Z;
  maxTokens : option Z;
  temperature : option jstring
}.

Record Request := mkRequest {
  url : jstring;
  authorization : jstring;
  reqModel : jstring;
  reqMessages : list ChatMessage;
  reqStream : bool;
  max_tokens : option Z;
  reqTemperature : option jstring
}.

(** The local variables of the read loop.  The diagnostic sink [log] is
    an opaque callback that is assumed to return; its calls, and the
    variables [readCount], [loggedDeltaKeys] and [loggedParseErr] that
    only decide whether it is called, are left out. *)
Record LoopState := mkLoop {
  decoder : TextDecoder.t;
  buffer : jstring;
  fallbackBuffer : jstring;
  yieldCount : nat
}.

Definition initialLoop : LoopState := mkLoop TextDecoder.create [] [] 0.

(** [data?.choices?.[0]?.delta?.content], when it is a string. *)
Definition deltaContent (data : value) : option jstring :=
  let delta := optChain (optChain (optChain (Some data) (js "choices")) (js "0")) (js "delta") in
  asString (optChain delta (js "content")).

(** [data?.choices?.[0]?.message?.content], when it is a string. *)
Definition messageContent (data : value) : option jstring :=
  let message := optChain (optChain (optChain (Some data) (js "choices")) (js "0")) (js "message") in
  asString (optChain message (js "content")).

(** The body of the [for] loop for one line of a read: the events it
    yields and the state it leaves, or [None] when it returns from the
    generator at the [[DONE]] marker. *)
Definition lineStep (st : LoopState) (rawLine : jstring)
  : list StreamResult * option LoopState :=
  let line := trim rawLine in
  if jstring_eqb line [] || jstring_eqb line (js ":") then ([], Some st)
  else if jstring_eqb line (js "[DONE]") || jstring_eqb line (js "data: [DONE]")
  then ([Done], None)
  else if startsWith (js "data: ") line then
    match JSON.parse (sliceFrom line 6) with
    | Some data =>
        match deltaContent data with
        | Some c =>
            ([Chunk c],
             Some (mkLoop (decoder st) (buffer st) (fallbackBuffer st) (S (yieldCount st))))
        | None => ([], Some st)
        end
    | None => ([], Some st)
    end
  else ([], Some st).

Fixpoint forLines (st : LoopState) (lines : list jstring)
  : list StreamResult * option LoopState :=
  match lines with
  | [] => ([], Some st)
  | l :: rest =>
      match lineStep st l with
      | (evs, None) => (evs, None)
      | (evs, Some st') =>
          let '(evs', r) := forLines st' rest in (evs ++ evs', r)
      end
  end.

(** One iteration of the [while] loop for a read that delivered bytes. *)
Definition onValue (st : LoopState) (value : list byte)
  : list StreamResult * option LoopState :=
  let '(d, decoded) := TextDecoder.decode (decoder st) value in
  let fallback :=
    if Nat.eqb (yieldCount st) 0 then fallbackBuffer st ++ decoded
    else fallbackBuffer st in
  let lines := split 10 (buffer st ++ decoded) in
  forLines (mkLoop d (List.last lines []) fallback (yieldCount st))
    (List.removelast lines).

(** The iteration for the read that reports [done]. *)
Definition onDone (st : LoopState) : list StreamResult :=
  (if Nat.eqb (yieldCount st) 0 && startsWith (js "{") (trim (fallbackBuffer st)) then
     match JSON.parse (fallbackBuffer st) with
     | Some data =>
         match messageContent data with
         | Some c => [Chunk c]
         | None => []
         end
     | None => []
     end
   else
     let remaining := trim (buffer st) in
     if (0 <? length remaining)%nat
        && negb (jstring_eqb remaining (js "[DONE]"))
        && negb (jstring_eqb remaining (js "data: [DONE]"))
     then
       if startsWith (js "data: ") remaining then
         match JSON.parse (sliceFrom remaining 6) with
         | Some data =>
             match deltaContent data with
             | Some c => [Chunk c]
             | None => []
             end
         | None => []
         end
       else []
     else [])
  ++ [Done].

(** The [catch] clause around the read loop. *)
Definition onStreamError (e : Thrown) : list StreamResult :=
  if isAbortError e then [Error (js "Request aborted.") (Some true)]
  else [Error (js "Streaming error: " ++ errorText e) None].

(** The [while (true)] loop inside its [try]. *)
Fixpoint readLoop (st : LoopState) (rs : list (list byte)) (e : Ending)
  : list StreamResult :=
  match rs with
  | [] =>
      match e with
      | EndOfStream => onDone st
      | ReadThrows err => onStreamError err
      end
  | value :: rest =>
      match onValue st value with
      | (evs, None) => evs
      | (evs, Some st') => evs ++ readLoop st' rest e
      end
  end.

(** The decode loop on a fresh decoder and empty buffers. *)
Definition decodeBody (b : Body) : list StreamResult :=
  readLoop initialLoop (reads b) (ending b).

(** [baseUrl.replace(/\/$/, "")] *)
Definition stripTrailingSlash (s : jstring) : jstring :=
  match rev s with
  | c :: r => if (c =? 47)%Z then rev r else s
  | [] => s
  end.

Section Client.

(** [String(x)] for a parsed number [x], given by its lexeme.  It is the
    shortest decimal that reads back as the same double, which is outside
    this model; the one place that needs it is the text of an error
    message. *)
Variable Number_toString : jstring -> jstring.

(** [String(v)] for a parsed value other than [null]. *)
Fixpoint toString (v : value) : jstring :=
  match v with
  | JNull => js "null"
  | JBool true => js "true"
  | JBool false => js "false"
  | JNumber lexeme => Number_toString lexeme
  | JString s => s
  | JArray vs =>
      join (js ",")
        (map (fun x => match x with JNull => [] | _ => toString x end) vs)
  | JObject _ => js "[object Object]"
  end.

(** The detail of an API error: [j?.error?.message ?? res.statusText]
    when the body parses, else the raw body text, else the status text. *)
Definition errorDetail (res : Response) : jstring :=
  match json res with
  | inr j =>
      match optChain (optChain (Some j) (js "error")) (js "message") with
      | None | Some JNull => statusText res
      | Some v => toString v
      end
  | inl _ =>
      match text res with
      | inr t => t
      | inl _ => statusText res
      end
  end.

(** [streamOpenAIChat]: the events of the generator when it is drained.
    The network is the function [fetch]; the cancellation signal and the
    timer act through what [fetch] and the reads of the body deliver. *)
Definition streamOpenAIChat
  (baseUrl apiKey model : jstring) (messages : list ChatMessage)
  (opts : option StreamOpenAIChatOpts) (fetch : Request -> FetchOutcome)
  : list StreamResult :=
  let request :=
    mkRequest (stripTrailingSlash baseUrl ++ js "/chat/completions")
      (js "Bearer " ++ apiKey) model messages true
      (match opts with Some o => maxTokens o | None => None end)
      (match opts with Some o => temperature o | None => None end) in
  match fetch request with
  | FetchThrows e =>
      if isAbortError e then [Error (js "Request aborted.") (Some true)]
      else [Error (js "Network error: " ++ errorText e) None]
  | FetchResolves res =>
      if negb (ok res) then
        [Error (js "API error (" ++ numberToString (status res) ++ js "): "
                  ++ errorDetail res) None]
      else
        match body res with
        | None => [Error (js "Response body is empty") None]
        | Some b => decodeBody b
        end
  end.

End Client.

(** The contents of the [Chunk] events of a run, in order. *)
Fixpoint chunkContents (evs : list StreamResult) : list jstring :=
  match evs with
  | [] => []
  | Chunk c :: rest => c :: chunkContents rest
  | _ :: rest => chunkContents rest
  end.


End Llm.

(* ===================================================================== *)
(** * Regular expressions *)
(* ===================================================================== *)

(** The patterns of [src/markdown.ts] are written in a small abstract
    syntax and run by a backtracking matcher that returns the matches at a
    position in the order in which the ECMAScript matcher tries them; the
    head of that list is the match that [exec] reports.  In every pattern
    of the program a quantifier [*], [+] or [*?] applies to a character
    class, and [?] applies to a group, so these are the two repetition
    forms of the syntax.  Matching is by code unit (no pattern has the [u]
    flag). *)
Module Regex.

Inductive re :=
| Eps
| Class (p : Z -> bool)                    (* one character of a class *)
| Seq (a b : re)
| Alt (a b : re)                           (* a|b *)
| Rep (min : nat) (greedy : bool) (p : Z -> bool)  (* p*, p+, p*? *)
| Opt (a : re)                             (* (?:a)? *)
| Group (n : nat) (a : re)                 (* the n-th capture group *)
| Bol                                      (* ^ *)
| Eol                                      (* $ *)
| Ahead (a : re)                           (* (?=a) *)
| NotBehind (p : Z -> bool).               (* (?<![...]) *)

(** A position in the subject string: the text before it, nearest
    character first, the text after it, and the captures made so far. *)
Record pos := mkPos {
  before : jstring;
  after : jstring;
  captures : list (nat * jstring)
}.

(** The ways to consume [min] or more characters of class [p], shortest
    first: the positions reached. *)
Fixpoint runs (p : Z -> bool) (min : nat) (bef aft : jstring) : list (jstring * jstring) :=
  (match min with O => [(bef, aft)] | S _ => [] end) ++
  match aft with
  | c :: aft' => if p c then runs p (Nat.pred min) (c :: bef) aft' else []
  | [] => []
  end.

Fixpoint matchAt (r : re) (st : pos) : list pos :=
  match r with
  | Eps => [st]
  | Class p =>
      match after st with
      | c :: aft => if p c then [mkPos (c :: before st) aft (captures st)] else []
      | [] => []
      end
  | Seq a b => flat_map (matchAt b) (matchAt a st)
  | Alt a b => matchAt a st ++ matchAt b st
  | Rep min greedy p =>
      let ends := runs p min (before st) (after st) in
      map (fun '(bef, aft) => mkPos bef aft (captures st))
        (if greedy then rev ends else ends)
  | Opt a => matchAt a st ++ [st]
  | Group n a =>
      map (fun st' =>
             let consumed := firstn (length (after st) - length (after st')) (after st) in
             mkPos (before st') (after st') ((n, consumed) :: captures st'))
        (matchAt a st)
  | Bol => match before st with [] => [st] | _ :: _ => [] end
  | Eol => match after st with [] => [st] | _ :: _ => [] end
  | Ahead a => match matchAt a st with [] => [] | _ :: _ => [st] end
  | NotBehind p =>
      match before st with
      | c :: _ => if p c then [] else [st]
      | [] => [st]
      end
  end.

(** The result of [exec]: the text skipped before the match, the match
    [m[0]], its capture groups, and the position just after the match. *)
Record Match := mkMatch {
  skipped : jstring;
  matched : jstring;
  groups : list (nat * jstring);
  beforeRest : jstring;
  rest : jstring
}.

(** [m[n]]: [None] is [undefined]. *)
Fixpoint group (n : nat) (gs : list (nat * jstring)) : option jstring :=
  match gs with
  | [] => None
  | (k, s) :: gs' => if Nat.eqb k n then Some s else group n gs'
  end.

(** The leftmost match at or after the position [(bef, aft)]. *)
Fixpoint search (r : re) (bef aft : jstring) (skip : jstring) : option Match :=
  match matchAt r (mkPos bef aft []) with
  | st :: _ =>
      Some (mkMatch (rev skip)
              (firstn (length aft - length (after st)) aft)
              (captures st) (before st) (after st))
  | [] =>
      match aft with
      | c :: aft' => search r (c :: bef) aft' (c :: skip)
      | [] => None
      end
  end.

(** [s.match(r)] for a pattern without the [g] flag. *)
Definition exec (r : re) (s : jstring) : option Match := search r [] s [].

(** [r.test(s)] *)
Definition test (r : re) (s : jstring) : bool :=
  match exec r s with Some _ => true | None => false end.

(** [s.replace(r, f)] for a pattern with the [g] flag and a callback
    [f].  After an empty match the search resumes one character on. *)
Fixpoint replaceFrom (fuel : nat) (r : re) (f : Match -> jstring)
  (bef aft : jstring) : jstring :=
  match fuel with
  | O => aft
  | S fuel' =>
      match search r bef aft [] with
      | None => aft
      | Some m =>
          skipped m ++ f m ++
          match matched m with
          | _ :: _ => replaceFrom fuel' r f (beforeRest m) (rest m)
          | [] =>
              match rest m with
              | c :: aft' => c :: replaceFrom fuel' r f (c :: beforeRest m) aft'
              | [] => []
              end
          end
      end
  end.

Definition replaceAll (r : re) (f : Match -> jstring) (s : jstring) : jstring :=
  replaceFrom (S (length s)) r f [] s.

(** ** Character classes *)

Definition inRange (lo hi c : Z) : bool := ((lo <=? c) && (c <=? hi))%Z.
Definition oneOf (cs : jstring) (c : Z) : bool := existsb (Z.eqb c) cs.
Definition isAlnum (c : Z) : bool := inRange 97 122 c || inRange 65 90 c || inRange 48 57 c.
(** [\w] *)
Definition isWord (c : Z) : bool := isAlnum c || (c =? 95)%Z.
(** [.]: any character but a line terminator *)
Definition isDot (c : Z) : bool := negb (oneOf [10; 13; 8232; 8233]%Z c).
(** [[\s\S]] *)
Definition isAny (c : Z) : bool := true.
(** [[a-zA-Z0-9_./\\@+~-]] *)
Definition isPathChar (c : Z) : bool := isAlnum c || oneOf (js "_./\@+~-") c.

(** A literal character, and a literal text. *)
Definition lit (c : Z) : re := Class (Z.eqb c).
Definition str (s : string) : re := fold_right (fun c r => Seq (lit c) r) Eps (js s).
Arguments str s%_string.
(** A letter under the [i] flag.  Without the [u] flag a character matches
    an ASCII letter of the pattern only when it is that letter in either
    case. *)
Definition litI (c : Z) : re :=
  Class (fun x => (x =? c)%Z || (inRange 97 122 c && (x =? c - 32)%Z)
                  || (inRange 65 90 c && (x =? c + 32)%Z)).
Definition strI (s : string) : re := fold_right (fun c r => Seq (litI c) r) Eps (js s).
Arguments strI s%_string.

Definition cat (rs : list re) : re := fold_right Seq Eps rs.
Definition plus (p : Z -> bool) : re := Rep 1 true p.
Definition star (p : Z -> bool) : re := Rep 0 true p.

End Regex.

(* ===================================================================== *)
(** * [JSON.stringify] of an argument array and [encodeURIComponent] *)
(* ===================================================================== *)

Module URI.

Definition isHighSurrogate (c : Z) : bool := Regex.inRange 55296 56319 c.
Definition isLowSurrogate (c : Z) : bool := Regex.inRange 56320 57343 c.

Definition hexDigit (upper : bool) (n : Z) : Z :=
  if (n <? 10)%Z then (48 + n)%Z
  else if upper then (55 + n)%Z else (87 + n)%Z.

(** [\uXXXX] with lower-case digits, as [JSON.stringify] writes it. *)
Definition unicodeEscape (c : Z) : jstring :=
  js "\u" ++ [hexDigit false (Z.shiftr c 12 mod 16); hexDigit false (Z.shiftr c 8 mod 16);
              hexDigit false (Z.shiftr c 4 mod 16); hexDigit false (c mod 16)].

(** One code unit that is not a surrogate, inside a JSON string. *)
Definition quoteUnit (c : Z) : jstring :=
  if (c =? 8)%Z then js "\b"
  else if (c =? 9)%Z then js "\t"
  else if (c =? 10)%Z then js "\n"
  else if (c =? 12)%Z then js "\f"
  else if (c =? 13)%Z then js "\r"
  else if (c =? 34)%Z then 92%Z :: dq
  else if (c =? 92)%Z then js "\\"
  else if (c <? 32)%Z then unicodeEscape c
  else [c].

(** The characters of a JSON string: a surrogate pair is kept, a lone
    surrogate is escaped. *)
Fixpoint quoteChars (s : jstring) : jstring :=
  match s with
  | [] => []
  | c :: r =>
      if isHighSurrogate c then
        match r with
        | d :: r' =>
            if isLowSurrogate d then c :: d :: quoteChars r'
            else unicodeEscape c ++ quoteChars r
        | [] => unicodeEscape c
        end
      else if isLowSurrogate c then unicodeEscape c ++ quoteChars r
      else quoteUnit c ++ quoteChars r
  end.

(** An element of the array passed to [JSON.stringify]. *)
Inductive Arg :=
| AString (s : jstring)
| ANumber (n : Z)
| AUndefined.

Definition stringifyArg (a : Arg) : jstring :=
  match a with
  | AString s => dq ++ quoteChars s ++ dq
  | ANumber n => if isFiniteNumber n then numberToString n else js "null"
  | AUndefined => js "null"
  end.

(** [JSON.stringify([a, b, ...])] *)
Definition stringify (args : list Arg) : jstring :=
  js "[" ++ join (js ",") (map stringifyArg args) ++ js "]".

(** The characters that [encodeURIComponent] leaves as they are. *)
Definition isUnreserved (c : Z) : bool :=
  Regex.isAlnum c || Regex.oneOf (js "-_.!~*'()") c.

Definition percent (b : Z) : jstring :=
  [37%Z; hexDigit true (Z.shiftr b 4); hexDigit true (Z.land b 15)].

(** The UTF-8 bytes of a code point. *)
Definition utf8Bytes (cp : Z) : list Z :=
  if (cp <? 128)%Z then [cp]
  else if (cp <? 2048)%Z then
    [Z.lor 192 (Z.shiftr cp 6); Z.lor 128 (Z.land cp 63)]
  else if (cp <? 65536)%Z then
    [Z.lor 224 (Z.shiftr cp 12); Z.lor 128 (Z.land (Z.shiftr cp 6) 63);
     Z.lor 128 (Z.land cp 63)]
  else
    [Z.lor 240 (Z.shiftr cp 18); Z.lor 128 (Z.land (Z.shiftr cp 12) 63);
     Z.lor 128 (Z.land (Z.shiftr cp 6) 63); Z.lor 128 (Z.land cp 63)].

Definition encodeCodePoint (cp : Z) : jstring := flat_map percent (utf8Bytes cp).

(** [encodeURIComponent(s)]: [None] when it throws a [URIError], which
    it does on a lone surrogate. *)
Fixpoint encodeURIComponent (s : jstring) : option jstring :=
  match s with
  | [] => Some []
  | c :: r =>
      if isUnreserved c then
        match encodeURIComponent r with
        | Some e => Some (c :: e)
        | None => None
        end
      else if isLowSurrogate c then None
      else if isHighSurrogate c then
        match r with
        | d :: r' =>
            if isLowSurrogate d then
              match encodeURIComponent r' with
              | Some e =>
                  Some (encodeCodePoint ((c - 55296) * 1024 + (d - 56320) + 65536) ++ e)
              | None => None
              end
            else None
        | [] => None
        end
      else
        match encodeURIComponent r with
        | Some e => Some (encodeCodePoint c ++ e)
        | None => None
        end
  end.

End URI.

(* ===================================================================== *)
(** * [src/markdown.ts]: location references and link authorization *)
(* ===================================================================== *)

Module Markdown.
Import Regex URI.

(** [s.replace(/c/g, by)] for a pattern of one literal character. *)
Definition replaceChar (c : Z) (by_ : jstring) (s : jstring) : jstring :=
  flat_map (fun x => if (x =? c)%Z then by_ else [x]) s.

Definition escapeHtml (s : jstring) : jstring :=
  replaceChar 34 (js "&quot;")
    (replaceChar 62 (js "&gt;")
       (replaceChar 60 (js "&lt;")
          (replaceChar 38 (js "&amp;") s))).

(** [p.replace(/^rc\//, "src/").replace(/^srs\//, "src/")] *)
Definition normalizePath (p : jstring) : jstring :=
  let p1 := if startsWith (js "rc/") p then js "src/" ++ skipn 3 p else p in
  if startsWith (js "srs/") p1 then js "src/" ++ skipn 4 p1 else p1.

Record LinkTransform := mkLink {
  href : jstring;
  path : option jstring;
  line : option Z;
  col : option Z;
  endLine : option Z;
  symbol : option jstring
}.

Record RenderMarkdownOptions := mkOptions {
  allowedLinks : option (gset jstring)
}.

(** [`command:symfocus.openFile?${encodeURIComponent(JSON.stringify(args))}`] *)
Definition openFileHref (args : list Arg) : option jstring :=
  e ← encodeURIComponent (stringify args);
  Some (js "command:symfocus.openFile?" ++ e).

(** A capture group that took part in the match. *)
Definition grp (n : nat) (m : Match) : jstring := default [] (group n (groups m)).

(** [/^(.+):(\d+)-(\d+)$/] *)
Definition rangeRe : re :=
  cat [Bol; Group 1 (plus isDot); str ":"; Group 2 (plus isDigit); str "-";
       Group 3 (plus isDigit); Eol].

(** [/^(.+):(\d+)(?::(\d+))?$/] *)
Definition lineColRe : re :=
  cat [Bol; Group 1 (plus isDot); str ":"; Group 2 (plus isDigit);
       Opt (Seq (str ":") (Group 3 (plus isDigit))); Eol].

(** [/([a-zA-Z0-9_./\\@+~-]+\.[a-zA-Z0-9]+):(\d+)(?:-(\d+))?(?::(\d+))?/] *)
Definition embeddedRe : re :=
  cat [Group 1 (cat [plus isPathChar; str "."; plus isAlnum]); str ":";
       Group 2 (plus isDigit);
       Opt (Seq (str "-") (Group 3 (plus isDigit)));
       Opt (Seq (str ":") (Group 4 (plus isDigit)))].

(** [/^([a-zA-Z0-9_./\\@+~-]+\.[a-zA-Z0-9]+)$/] *)
Definition bareFileRe : re :=
  cat [Bol; Group 1 (cat [plus isPathChar; str "."; plus isAlnum]); Eol].

(** [/^(file|https?|mailto|tel|data|#)/i] *)
Definition schemeRe : re :=
  Seq Bol
    (Group 1
       (Alt (strI "file")
          (Alt (Seq (strI "http") (Opt (strI "s")))
             (Alt (strI "mailto") (Alt (strI "tel") (Alt (strI "data") (str "#"))))))).

Definition symbolLike (h : jstring) : bool :=
  (0 <? length h)%nat && (length h <? 200)%nat
  && negb (includes (js "//") h) && negb (test schemeRe h).

Definition fileLink (h path : jstring) (line col : Z) (endLine : option Z)
  : LinkTransform :=
  mkLink h (Some path) (Some line) (Some col) endLine None.

Definition transformLinkHref (h : jstring) : option LinkTransform :=
  let fallThrough :=
    if symbolLike h then Some (mkLink (js "#") None None None None (Some h))
    else Some (mkLink h None None None None None) in
  if startsWith (js "file:") h then
    let path := normalizePath (sliceFrom h 5) in
    c ← openFileHref [AString path; ANumber 1; ANumber 1];
    Some (fileLink c path 1 1 None)
  else if negb (includes (js "//") h) then
    match exec rangeRe h with
    | Some m =>
        let path := normalizePath (grp 1 m) in
        let line := parseInt (grp 2 m) in
        let endLine := parseInt (grp 3 m) in
        c ← openFileHref [AString path; ANumber line; ANumber 1; ANumber endLine];
        Some (fileLink c path line 1 (Some endLine))
    | None =>
    match exec lineColRe h with
    | Some m =>
        let path := normalizePath (grp 1 m) in
        let line := parseInt (grp 2 m) in
        let col := match group 3 (groups m) with
                   | Some ((_ :: _) as d) => parseInt d
                   | _ => 1%Z
                   end in
        c ← openFileHref [AString path; ANumber line; ANumber col];
        Some (fileLink c path line col None)
    | None =>
    match exec embeddedRe h with
    | Some m =>
        let path := normalizePath (grp 1 m) in
        let line := parseInt (grp 2 m) in
        match group 3 (groups m) with
        | Some d =>
            let endLine := parseInt d in
            c ← openFileHref [AString path; ANumber line; ANumber 1; ANumber endLine];
            Some (fileLink c path line 1 (Some endLine))
        | None =>
            let col := match group 4 (groups m) with
                       | Some d => parseInt d
                       | None => 1%Z
                       end in
            c ← openFileHref [AString path; ANumber line; ANumber col];
            Some (fileLink c path line col None)
        end
    | None =>
    match exec bareFileRe h with
    | Some m =>
        let path := normalizePath (grp 1 m) in
        c ← openFileHref [AString path; ANumber 1; ANumber 1];
        Some (fileLink c path 1 1 None)
    | None => fallThrough
    end end end end
  else fallThrough.

(** [BACKTICK_PATH_LINE]: a back-tick, [([^\s`]+\.\w+)], a colon, [(\d+)], an
    optional [-\d+], an optional [:\d+], a back-tick. *)
Definition BACKTICK_PATH_LINE : re :=
  cat [lit 96;
       Group 1 (cat [plus (fun c => negb (isWhiteSpace c || (c =? 96)%Z));
                     str "."; plus isWord]);
       str ":"; Group 2 (plus isDigit);
       Opt (Seq (str "-") (plus isDigit));
       Opt (Seq (str ":") (plus isDigit));
       lit 96].

(** The fence pattern of both passes: three back-ticks, [[\w]*], a line
    feed, [[\s\S]*?], three back-ticks. *)
Definition fenceRe : re :=
  cat [lit 96; lit 96; lit 96; star isWord; lit 10; Rep 0 false isAny;
       lit 96; lit 96; lit 96].

(** The test of a segment: [^], three back-ticks, [[\w]*], a line feed. *)
Definition fenceOpenRe : re :=
  cat [Bol; lit 96; lit 96; lit 96; star isWord; lit 10].

(** The [while ((m = re.exec(md)) !== null)] loop of both passes and the
    [push] after it: the text cut into the stretches between fences and
    the fences, alternating. *)
Fixpoint fenceBlocksFrom (fuel : nat) (bef aft : jstring) : list jstring :=
  match fuel with
  | O => [aft]
  | S fuel' =>
      match search fenceRe bef aft [] with
      | None => [aft]
      | Some m => skipped m :: matched m :: fenceBlocksFrom fuel' (beforeRest m) (rest m)
      end
  end.

Definition fenceBlocks (md : jstring) : list jstring :=
  fenceBlocksFrom (length md) [] md.

(** The callback of the first pass. *)
Definition backtickLink (m : Match) : jstring :=
  let full := matched m in
  let content := slice full 1 (-1) in
  if includes (js "://") content then full
  else js "[" ++ content ++ js "](" ++ content ++ js ")".

Definition backtickSegment (segment : jstring) : jstring :=
  if test fenceOpenRe segment then segment
  else replaceAll BACKTICK_PATH_LINE backtickLink segment.

Definition linkifyBacktickPathLine (md : jstring) : jstring :=
  concat (map backtickSegment (fenceBlocks md)).

(** [NAKED_PATH_LINE]: not after a bracket or a back-tick, then
    [([a-zA-Z0-9_./\\@+~-]+\.[a-zA-Z0-9]+:\d+(?:-\d+)?(?::\d+)?)]. *)
Definition NAKED_PATH_LINE : re :=
  Seq (NotBehind (oneOf [91; 96]%Z))
    (Group 1
       (cat [plus isPathChar; str "."; plus isAlnum; str ":"; plus isDigit;
             Opt (Seq (str "-") (plus isDigit));
             Opt (Seq (str ":") (plus isDigit))])).

(** The callback of the second pass. *)
Definition nakedLink (m : Match) : jstring :=
  let full := matched m in
  if includes (js "://") full then full
  else js "[" ++ full ++ js "](" ++ full ++ js ")".

(** The loop over [parts]: the parts at even indices are rewritten. *)
Fixpoint rewriteEven (even : bool) (parts : list jstring) : list jstring :=
  match parts with
  | [] => []
  | p :: ps =>
      (if even then replaceAll NAKED_PATH_LINE nakedLink p else p)
      :: rewriteEven (negb even) ps
  end.

Definition nakedSegment (segment : jstring) : jstring :=
  if test fenceOpenRe segment then segment
  else join [96%Z] (rewriteEven true (split 96 segment)).

Definition linkifyNakedPathLine (md : jstring) : jstring :=
  concat (map nakedSegment (fenceBlocks md)).

(** [/^\[[^\]]+\.\w+:\d+(?:-\d+)?(?::\d+)?\]$/] *)
Definition wrappedRe : re :=
  cat [Bol; lit 91; plus (fun c => negb (c =? 93)%Z); str "."; plus isWord;
       str ":"; plus isDigit;
       Opt (Seq (str "-") (plus isDigit));
       Opt (Seq (str ":") (plus isDigit));
       lit 93; Eol].

Definition stripWrappedPathLineBrackets (text : jstring) : jstring :=
  if test wrappedRe text then slice text 1 (-1) else text.

(** [`${pathValue}:${line}-${endLine}`] and [`${pathValue}:${line}`] *)
Definition rangeKey (pathValue : jstring) (line endLine : Z) : jstring :=
  pathValue ++ js ":" ++ numberToString line ++ js "-" ++ numberToString endLine.
Definition lineKey (pathValue : jstring) (line : Z) : jstring :=
  pathValue ++ js ":" ++ numberToString line.

Definition isAllowedFileLink (pathValue : jstring) (line endLine : option Z)
  (allowed : option (gset jstring)) : bool :=
  match allowed with
  | None => true
  | Some links =>
      match line with
      | None => false
      | Some l =>
          if (l <=? 0)%Z then false
          else
            match endLine with
            | Some e =>
                if (l <=? e)%Z then bool_decide (rangeKey pathValue l e ∈ links)
                else bool_decide (lineKey pathValue l ∈ links)
            | None => bool_decide (lineKey pathValue l ∈ links)
            end
      end
  end.

(** [/:(\d+)(?:-(\d+))?(?::(\d+))?/] *)
Definition textLineRe : re :=
  cat [str ":"; Group 1 (plus isDigit);
       Opt (Seq (str "-") (Group 2 (plus isDigit)));
       Opt (Seq (str ":") (Group 3 (plus isDigit)))].

(** [/:(\d+(?:-\d+)?(?::\d+)?)(?=$|[^\d:])/] *)
Definition lineSuffixRe : re :=
  cat [str ":";
       Group 1 (cat [plus isDigit; Opt (Seq (str "-") (plus isDigit));
                     Opt (Seq (str ":") (plus isDigit))]);
       Ahead (Alt Eol (Class (fun c => negb (isDigit c || (c =? 58)%Z))))].

(** A truthy string: defined and not empty. *)
Definition truthy (s : option jstring) : option jstring :=
  match s with
  | Some ((_ :: _) as x) => Some x
  | _ => None
  end.

(** The first step of [renderer.link]: a file link of line 1 takes its
    line, end line and column from the link text when the text has them. *)
Definition refineFromText (t : LinkTransform) (text : jstring)
  : option LinkTransform :=
  match path t, line t with
  | Some p, Some 1%Z =>
      match exec textLineRe text with
      | Some m =>
          let line := parseInt (grp 1 m) in
          let endLine := option_map parseInt (truthy (group 2 (groups m))) in
          let col := match truthy (group 3 (groups m)) with
                     | Some d => parseInt d
                     | None => 1%Z
                     end in
          c ← openFileHref
                [AString p; ANumber line; ANumber col;
                 match endLine with Some e => ANumber e | None => AUndefined end];
          Some (mkLink c (path t) (Some line) (Some col) endLine (symbol t))
      | None => Some t
      end
  | _, _ => Some t
  end.

(** The [data-dw-*] attributes of a file link. *)
Definition dataAttributes (t : LinkTransform) : jstring :=
  match path t with
  | Some p =>
      js " data-dw-path=" ++ dq ++ escapeHtml p ++ dq
      ++ js " data-dw-line=" ++ dq ++ numberToString (default 1%Z (line t)) ++ dq
      ++ js " data-dw-col=" ++ dq ++ numberToString (default 1%Z (col t)) ++ dq
      ++ match endLine t with
         | Some e => js " data-dw-line-end=" ++ dq ++ numberToString e ++ dq
         | None => []
         end
  | None => []
  end.

(** [title ? ` title="${escapeHtml(title)}"` : ""] *)
Definition titleAttribute (title : option jstring) : jstring :=
  match truthy title with
  | Some x => js " title=" ++ dq ++ escapeHtml x ++ dq
  | None => []
  end.

(** The link text with wrapping brackets stripped; it is escaped only
    when stripping changed it. *)
Definition displayInner (text : jstring) : jstring :=
  let displayText := stripWrappedPathLineBrackets text in
  if jstring_eqb displayText text then text else escapeHtml displayText.

(** The link text of an anchor: for a file link the line suffix is
    wrapped in a [span]. *)
Definition linkInner (t : LinkTransform) (text : jstring) : jstring :=
  let inner := displayInner text in
  match path t, line t with
  | Some _, Some l =>
      if (0 <? l)%Z then
        match exec lineSuffixRe inner with
        | Some m =>
            slice inner 0 (- Z.of_nat (length (matched m)))
            ++ js "<span class=" ++ dq ++ js "dw-line-number" ++ dq ++ js ">"
            ++ matched m ++ js "</span>"
        | None => inner
        end
      else inner
  | _, _ => inner
  end.

(** The anchor that [renderer.link] returns for an accepted link. *)
Definition anchor (t : LinkTransform) (title : option jstring) (text : jstring)
  : jstring :=
  let aHref := match symbol t with Some _ => js "#" | None => href t end in
  js "<a href=" ++ dq ++ escapeHtml aHref ++ dq ++ dataAttributes t
  ++ match symbol t with
     | Some s => js " data-dw-symbol=" ++ dq ++ escapeHtml s ++ dq
     | None => []
     end
  ++ titleAttribute title ++ js ">" ++ linkInner t text ++ js "</a>".

(** [renderer.link] of [buildRenderer(allowedLinks)]: [None] when it
    throws. *)
Definition link (allowed : option (gset jstring))
  (h : jstring) (title : option jstring) (text : jstring) : option jstring :=
  t0 ← transformLinkHref h;
  t ← refineFromText t0 text;
  match path t with
  | Some p =>
      if negb (isAllowedFileLink p (line t) (endLine t) allowed) then Some text
      else Some (anchor t title text)
  | None => Some (anchor t title text)
  end.

(** The renderer callback that [marked] calls for each link: the target,
    the title or [null], and the rendered link text. *)
Definition LinkRenderer : Type := jstring -> option jstring -> jstring -> option jstring.

Definition buildRenderer (allowed : option (gset jstring)) : LinkRenderer :=
  link allowed.

Section Render.

(** [marked.parse(src, {renderer})] and [DOMPurify.sanitize(html)] are
    the two libraries behind [renderMarkdown]; the program is modelled
    for every behaviour of theirs.  [None] is a call that throws. *)
Variable marked_parse : LinkRenderer -> jstring -> option jstring.
Variable sanitize : jstring -> option jstring.

(** The markup that [renderMarkdown] hands to the sanitizer. *)
Definition markup (md : jstring) (options : option RenderMarkdownOptions)
  : option jstring :=
  let backtickLinkified := linkifyBacktickPathLine md in
  let linkified := linkifyNakedPathLine backtickLinkified in
  let renderer := buildRenderer (options ≫= allowedLinks) in
  marked_parse renderer linkified.

(** The [catch] clause of [renderMarkdown]. *)
Definition fallback (md : jstring) : jstring :=
  js "<p>" ++ escapeHtml md ++ js "</p>".

Definition renderMarkdown (md : jstring) (options : option RenderMarkdownOptions)
  : jstring :=
  match markup md options ≫= sanitize with
  | Some html => html
  | None => fallback md
  end.

End Render.

End Markdown.

Module FrameBuffer.
Import Llm.

(** The bytes of an ASCII literal in which the apostrophe stands for the
    double quote. *)
Definition bytesq (s : string) : list byte :=
  map (fun b => if Byte.eqb b Byte.x27 then Byte.x22 else b) (String.list_byte_of_string s).
Arguments bytesq s%_string.

(** A response of status 200 with the given body. *)
Definition okResponse (b : Body) : Response :=
  mkResponse true 200 (js "OK") (inl (ThrownOther [])) (inl (ThrownOther [])) (Some b).

(** The complete lines of a text and the partial line that it carries. *)
Definition completeLines (s : jstring) : list jstring := List.removelast (split 10 s).
Definition carry (s : jstring) : jstring := List.last (split 10 s) [].

(** The text that a decoder returns over successive reads. *)
Fixpoint decodeAll (d : TextDecoder.t) (rs : list (list byte)) : jstring :=
  match rs with
  | [] => []
  | value :: rest =>
      let '(d', decoded) := TextDecoder.decode d value in
      decoded ++ decodeAll d' rest
  end.

(** The events of a list of lines, and the number of chunks among them
    when no line is the [[DONE]] marker. *)
Fixpoint scan (ls : list jstring) : list StreamResult * option nat :=
  match ls with
  | [] => ([], Some 0)
  | l :: rest =>
      match lineStep initialLoop l with
      | (evs, None) => (evs, None)
      | (evs, Some st) =>
          let '(evs', r) := scan rest in
          (evs ++ evs', option_map (Nat.add (yieldCount st)) r)
      end
  end.

(** The reads of a body before its ending: the events and the state in
    which the ending is met, if it is. *)
Fixpoint feed (st : LoopState) (rs : list (list byte))
  : list StreamResult * option LoopState :=
  match rs with
  | [] => ([], Some st)
  | value :: rest =>
      match onValue st value with
      | (evs, None) => (evs, None)
      | (evs, Some st') => let '(evs', r) := feed st' rest in (evs ++ evs', r)
      end
  end.

Definition atEnding (e : Ending) (st : LoopState) : list StreamResult :=
  match e with
  | EndOfStream => onDone st
  | ReadThrows err => onStreamError err
  end.

(** The events of a body as a function of its whole decoded text. *)
Definition ofText (st : LoopState) (t : jstring) (e : Ending) : list StreamResult :=
  let whole := buffer st ++ t in
  match scan (completeLines whole) with
  | (evs, None) => evs
  | (evs, Some n) =>
      evs ++ atEnding e
               (mkLoop (decoder st) (carry whole) (fallbackBuffer st ++ t)
                  (yieldCount st + n))
  end.

(** A line that carries content [c]: the data prefix, then a payload
    that parses and has a string at [choices[0].delta.content]. *)
Definition contentFrame (l c : jstring) : Prop :=
  exists payload data,
    trim l = js "data: " ++ payload /\ JSON.parse payload = Some data
    /\ deltaContent data = Some c.

(** A data line whose payload is not the terminal marker and does not
    parse. *)
Definition malformedFrame (l : jstring) : Prop :=
  exists payload,
    trim l = js "data: " ++ payload /\ payload <> js "[DONE]"
    /\ JSON.parse payload = None.

(** The state with [n] more chunks counted. *)
Definition bump (st : LoopState) (n : nat) : LoopState :=
  mkLoop (decoder st) (buffer st) (fallbackBuffer st) (yieldCount st + n).


End FrameBuffer.

Module MarkdownFacts.
Import Regex URI Markdown.
(** The entity that [escapeHtml] writes for one character. *)
Definition escapeChar (c : Z) : jstring :=
  if (c =? 38)%Z then js "&amp;"
  else if (c =? 60)%Z then js "&lt;"
  else if (c =? 62)%Z then js "&gt;"
  else if (c =? 34)%Z then js "&quot;"
  else [c].
Definition commandPrefix : jstring := js "command:symfocus.openFile?".

Definition isSurrogate (c : Z) : bool := isHighSurrogate c || isLowSurrogate c.

Definition encodable (s : jstring) : Prop := exists x, encodeURIComponent s = Some x.

Definition exampleActiveTag : jstring :=
  jsq "<a href='command:symfocus.openFile?%5B%22src%2Fa.ts%22%2C10%2C1%2C12%5D' data-dw-path='src/a.ts' data-dw-line='10' data-dw-col='1' data-dw-line-end='12'>".

(** What makes the anchor of the example an active link to lines 10 to
    12 of [src/a.ts]: the start of the tag, its command target and its
    data attributes. *)
Definition exampleFragments : list jstring :=
  [ js "<a ";
    jsq "href='command:symfocus.openFile?%5B%22src%2Fa.ts%22%2C10%2C1%2C12%5D'";
    jsq "data-dw-path='src/a.ts'";
    jsq "data-dw-line='10'";
    jsq "data-dw-line-end='12'" ].

End MarkdownFacts.

Module StreamFacts.
Import Llm FrameBuffer.

(** The text of complete lines: each line followed by a line feed. *)
Definition unlines (ls : list jstring) : jstring :=
  concat (map (fun l => l ++ nl) ls).

(** [s.endsWith(p)] *)
Definition endsWith (p s : jstring) : bool := startsWith (rev p) (rev s).

(** A line that is the terminal marker once trimmed. *)
Definition doneMarker (l : jstring) : Prop :=
  trim l = js "[DONE]" \/ trim l = js "data: [DONE]".

(** No line feed inside any of the lines. *)
Definition singleLines (ls : list jstring) : Prop :=
  Forall (fun l => includes nl l = false) ls.

End StreamFacts.

(* ===================================================================== *)
(** * The editor's positions and ranges *)
(* ===================================================================== *)

(** [vscode.Position] and [vscode.Range]: zero-based, never negative. *)
Module VSCode.

Record Position := mkPosition {
  line : nat;
  character : nat
}.

Record Range := mkRange {
  start : Position;
  end_ : Position
}.

(** [a.isBeforeOrEqual(b)] *)
Definition isBeforeOrEqual (a b : Position) : bool :=
  (line a <? line b)%nat || ((line a =? line b)%nat && (character a <=? character b)%nat).

(** [range.contains(position)]: the position is inside the range or on
    one of its ends. *)
Definition contains (r : Range) (p : Position) : bool :=
  isBeforeOrEqual (start r) p && isBeforeOrEqual p (end_ r).

End VSCode.

(* ===================================================================== *)
(** * The explain command: the allow-list of a request *)
(* ===================================================================== *)

(** [normalizeLinkPath], [addAllowedLink] and [collectAllowedLinks] of the
    explain command, which builds the [allowedLinks] set that it passes
    to [renderMarkdown]. *)
Module ExplainCommand.
Import Regex Markdown.

(** [p.replace(/^rc\//, "src/").replace(/^srs\//, "src/")] *)
Definition normalizeLinkPath (p : jstring) : jstring :=
  let p1 := if startsWith (js "rc/") p then js "src/" ++ skipn 3 p else p in
  if startsWith (js "srs/") p1 then js "src/" ++ skipn 4 p1 else p1.

(** [addAllowedLink(set, pathValue, line, endLine)]: the set after the
    call. *)
Definition addAllowedLink (set : gset jstring) (pathValue : jstring) (line : Z)
  (endLine : option Z) : gset jstring :=
  if match pathValue with [] => true | _ :: _ => false end || (line <=? 0)%Z
  then set
  else
    let normalized := normalizeLinkPath pathValue in
    let set1 :=
      match endLine with
      | Some e =>
          if (line <=? e)%Z
          then {[ normalized ++ js ":" ++ numberToString line ++ js "-" ++ numberToString e ]} ∪ set
          else set
      | None => set
      end in
    {[ normalized ++ js ":" ++ numberToString line ]} ∪ set1.

Record AllowedLinkInput := mkInput {
  relativePath : jstring;
  displayPath : option jstring;
  symbolRange : VSCode.Range;
  definitionLocation : option (jstring * Z);      (* path and line *)
  referencesSummary : option jstring;
  callerSnippets : option (list (jstring * Z))    (* file and line *)
}.

(** [/([a-zA-Z0-9_./\\@+~-]+\.[a-zA-Z0-9]+):(\d+)(?:-(\d+))?/g] *)
Definition refRe : re :=
  cat [Group 1 (cat [plus isPathChar; str "."; plus isAlnum]); str ":";
       Group 2 (plus isDigit);
       Opt (Seq (str "-") (Group 3 (plus isDigit)))].

(** The [while ((m = refRe.exec(...)) !== null)] loop. *)
Fixpoint addReferences (fuel : nat) (set : gset jstring) (bef aft : jstring)
  : gset jstring :=
  match fuel with
  | O => set
  | S fuel' =>
      match search refRe bef aft [] with
      | None => set
      | Some m =>
          let line := parseInt (grp 2 m) in
          let endLine := option_map parseInt (truthy (group 3 (groups m))) in
          addReferences fuel' (addAllowedLink set (grp 1 m) line endLine)
            (beforeRest m) (rest m)
      end
  end.

(** The [for (const snippet of input.callerSnippets)] loop. *)
Fixpoint addCallers (set : gset jstring) (snippets : list (jstring * Z))
  : gset jstring :=
  match snippets with
  | [] => set
  | (file, line) :: rest => addCallers (addAllowedLink set file line None) rest
  end.

Definition collectAllowedLinks (input : AllowedLinkInput) : gset jstring :=
  let startLine := (Z.of_nat (VSCode.line (VSCode.start (symbolRange input))) + 1)%Z in
  let endLine := (Z.of_nat (VSCode.line (VSCode.end_ (symbolRange input))) + 1)%Z in
  let spanEnd := if (startLine <? endLine)%Z then Some endLine else None in
  let a1 := addAllowedLink ∅ (relativePath input) startLine spanEnd in
  let a2 :=
    match truthy (displayPath input) with
    | Some d =>
        if negb (jstring_eqb d (relativePath input)) && negb (includes (js ":") d)
        then addAllowedLink a1 d startLine spanEnd
        else a1
    | None => a1
    end in
  let a3 :=
    match definitionLocation input with
    | Some (p, l) => addAllowedLink a2 p l None
    | None => a2
    end in
  let a4 :=
    match truthy (referencesSummary input) with
    | Some summary => addReferences (length summary) a3 [] summary
    | None => a3
    end in
  match callerSnippets input with
  | Some snippets => addCallers a4 snippets
  | None => a4
  end.

End ExplainCommand.

Module RegexFacts.
Import Regex.

(** Every match of the pattern takes the character [c] from the subject. *)
Definition mustConsume (c : Z) (r : re) : Prop :=
  forall st st' w,
    In st' (matchAt r st) -> after st = w ++ after st' -> In c w.

(** The match that the matcher tries first at a position. *)
Definition firstMatch (r : re) (st y : pos) : Prop :=
  exists tl, matchAt r st = y :: tl.

(** The pattern has no match at a position whose next character is [c]. *)
Definition failsOn (r : re) (c : Z) : Prop :=
  forall bef aft caps, matchAt r (mkPos bef (c :: aft) caps) = [].

End RegexFacts.

(* ===================================================================== *)
(** * [src/openFileCommand.ts]: the selection of the open-file command *)
(* ===================================================================== *)

Module OpenFileCommand.
Import Regex.

(** An argument of the command: a number, a string, or anything else
    ([undefined], [null]).  A number is an integer or [NaN]: the links of
    [renderMarkdown] and the script of the view send the results of
    [parseInt]. *)
Inductive Arg :=
| ArgNumber (n : Z)
| ArgNaN
| ArgString (s : jstring)
| ArgOther.

(** [/^\d+$/] *)
Definition digitsRe : re := cat [Bol; plus isDigit; Eol].

(** [typeof a === "number" && !isNaN(a) ? a
     : typeof a === "string" && /^\d+$/.test(a) ? parseInt(a, 10) : undefined] *)
Definition toNumber (a : Arg) : option Z :=
  match a with
  | ArgNumber n => Some n
  | ArgString s => if test digitsRe s then Some (parseInt s) else None
  | ArgNaN | ArgOther => None
  end.

(** [n != null && n >= 1 ? n - 1 : 0] *)
Definition zeroBased (n : option Z) : Z :=
  match n with
  | Some v => if (1 <=? v)%Z then (v - 1)%Z else 0%Z
  | None => 0%Z
  end.

(** [n != null && n >= 1 ? n - 1 : undefined] *)
Definition zeroBasedOpt (n : option Z) : option Z :=
  match n with
  | Some v => if (1 <=? v)%Z then Some (v - 1)%Z else None
  | None => None
  end.

(** A text document: its lines.  [doc.lineAt(i)] throws when [i] is not
    the index of a line; [None] is that. *)
Definition lineLength (doc : list jstring) (i : Z) : option Z :=
  if (i <? 0)%Z then None
  else option_map (fun l => Z.of_nat (length l)) (nth_error doc (Z.to_nat i)).

(** The four numbers given to [new vscode.Range(...)]. *)
Record Selection := mkSelection {
  startLine : Z;
  startCharacter : Z;
  endLine : Z;
  endCharacter : Z
}.

(** [buildSelection(doc)] inside the command called with
    [(targetPath, line, col, endLine)]: [None] when it throws. *)
Definition buildSelection (line col endLine : Arg) (doc : list jstring)
  : option Selection :=
  let line0 := zeroBased (toNumber line) in
  let col0 := zeroBased (toNumber col) in
  let endLine0 := zeroBasedOpt (toNumber endLine) in
  let lineCount := Z.of_nat (length doc) in
  if (lineCount =? 0)%Z then Some (mkSelection 0 0 0 0)
  else
    let line0Clamp := Z.max 0 (Z.min line0 (lineCount - 1)) in
    let single :=
      lineLen ← lineLength doc line0Clamp;
      let col0Clamp := Z.max 0 (Z.min col0 lineLen) in
      Some (mkSelection line0Clamp col0Clamp line0Clamp col0Clamp) in
    match endLine0 with
    | Some e =>
        if (line0 <=? e)%Z then
          let endLine0Clamp := Z.max 0 (Z.min e (lineCount - 1)) in
          let start := Z.min line0Clamp endLine0Clamp in
          let stop := Z.max line0Clamp endLine0Clamp in
          endLineLen ← lineLength doc stop;
          Some (mkSelection start 0 stop endLineLen)
        else single
    | None => single
    end.

End OpenFileCommand.

(* ===================================================================== *)
(** * [src/symbolResolver.ts]: the symbol under the cursor *)
(* ===================================================================== *)

Module SymbolResolver.
Import VSCode.

(** [vscode.DocumentSymbol]: the fields the search reads. *)
#[warnings="-register-all"]
Inductive DocumentSymbol :=
| mkDocumentSymbol (name : jstring) (range : Range) (children : list DocumentSymbol).

Definition dsName (s : DocumentSymbol) : jstring :=
  match s with mkDocumentSymbol n _ _ => n end.
Definition dsRange (s : DocumentSymbol) : Range :=
  match s with mkDocumentSymbol _ r _ => r end.
Definition dsChildren (s : DocumentSymbol) : list DocumentSymbol :=
  match s with mkDocumentSymbol _ _ c => c end.

(** The value [findInDocumentSymbols] returns: [{ symbol, containerName }]. *)
Record Found := mkFound {
  symbol : DocumentSymbol;
  containerName : option jstring
}.

(** One turn of the loop of [findInDocumentSymbols] at the symbol [s]:
    the new value of [best].  The inner [fix] is the recursive call on
    [s.children], itself a loop over the children. *)
Fixpoint visit (position : Position) (parentName : option jstring)
  (best : option Found) (s : DocumentSymbol) {struct s} : option Found :=
  match s with
  | mkDocumentSymbol name range children =>
      if negb (contains range position) then best
      else
        let inChild :=
          (fix loop (l : list DocumentSymbol) (b : option Found) : option Found :=
             match l with
             | [] => b
             | c :: l' => loop l' (visit position (Some name) b c)
             end) children None in
        match inChild with
        | Some f => Some f
        | None => Some (mkFound s parentName)
        end
  end.

(** [findInDocumentSymbols(symbols, position, parentName)] *)
Definition findInDocumentSymbols (symbols : list DocumentSymbol)
  (position : Position) (parentName : option jstring) : option Found :=
  fold_left (visit position parentName) symbols None.

(** [vscode.SymbolInformation]: the fields the search reads. *)
Record SymbolInformation := mkSymbolInformation {
  siName : jstring;
  siRange : Range
}.

(** [s.location.range.end.line - s.location.range.start.line] *)
Definition span (s : SymbolInformation) : Z :=
  (Z.of_nat (line (end_ (siRange s))) - Z.of_nat (line (start (siRange s))))%Z.

(** One turn of the loop of [findInSymbolInformation]: the new
    [(best, bestSpan)]. *)
Definition consider (position : Position)
  (st : option SymbolInformation * Z) (s : SymbolInformation)
  : option SymbolInformation * Z :=
  let '(best, bestSpan) := st in
  if negb (contains (siRange s) position) then st
  else
    match best with
    | None => (Some s, span s)
    | Some _ => if (span s <? bestSpan)%Z then (Some s, span s) else st
    end.

(** [findInSymbolInformation(infos, position)] *)
Definition findInSymbolInformation (infos : list SymbolInformation)
  (position : Position) : option SymbolInformation :=
  fst (fold_left (consider position) infos (None, 0%Z)).

(** No symbol of the list contains the position. *)
Definition noneContains (position : Position) (l : list DocumentSymbol) : Prop :=
  Forall (fun s => contains (dsRange s) position = false) l.

(** The way the search goes down a tree of symbols: at each level it
    takes the last symbol that contains the position, and stops at a
    symbol none of whose children contains it. *)
Inductive reaches (position : Position)
  : option jstring -> list DocumentSymbol -> Found -> Prop :=
| reaches_here parent l1 s l2 :
    contains (dsRange s) position = true ->
    noneContains position l2 ->
    noneContains position (dsChildren s) ->
    reaches position parent (l1 ++ s :: l2) (mkFound s parent)
| reaches_below parent l1 p l2 f :
    contains (dsRange p) position = true ->
    noneContains position l2 ->
    reaches position (Some (dsName p)) (dsChildren p) f ->
    reaches position parent (l1 ++ p :: l2) f.

End SymbolResolver.

(* ===================================================================== *)
(** * [src/config.ts]: the check of the API settings *)
(* ===================================================================== *)

Module Config.

(** The three fields of [SymfocusConfig] that [validateApiConfig] reads.
    [None] is [undefined] or [null], which [?.] lets through. *)
Record SymfocusConfig := mkConfig {
  baseUrl : option jstring;
  apiKey : option jstring;
  model : option jstring
}.

Inductive ValidateApiResult :=
| Ok (baseUrl apiKey model : jstring)
| Missing (missing : list jstring).

(** [!v?.trim()]: the field is absent or blank. *)
Definition blank (v : option jstring) : bool :=
  match v with
  | Some s => match trim s with [] => true | _ :: _ => false end
  | None => true
  end.

(** [v.trim()] of the last statement; it is reached with [v] a string. *)
Definition trimmed (v : option jstring) : jstring :=
  match v with Some s => trim s | None => [] end.

(** [validateApiConfig(c)] *)
Definition validateApiConfig (c : SymfocusConfig) : ValidateApiResult :=
  let missing :=
    (if blank (baseUrl c) then [js "Endpoint (base URL)"] else [])
    ++ (if blank (apiKey c) then [js "API key"] else [])
    ++ (if blank (model c) then [js "Model"] else []) in
  match missing with
  | _ :: _ => Missing missing
  | [] => Ok (trimmed (baseUrl c)) (trimmed (apiKey c)) (trimmed (model c))
  end.

(** A string that is not empty and has no white space at either end. *)
Definition tidy (s : jstring) : Prop :=
  exists c r, s = c :: r /\ isWhiteSpace c = false
              /\ isWhiteSpace (List.last s 0%Z) = false.

End Config.

(* ===================================================================== *)
(** * [src/promptBuilder.ts]: what quick mode keeps of the context *)
(* ===================================================================== *)

Module PromptBuilder.

(** [lines.slice(0, n).join("\n") + (lines.length > n ? "\n..." : "")]
    with [lines = s.split("\n")]: the cut of [buildUserPrompt] in quick
    mode, made on the source ([n] is 35) and on the import block
    ([n] is 12). *)
Definition truncateLines (n : nat) (s : jstring) : jstring :=
  let lines := split 10 s in
  join nl (firstn n lines) ++ (if (n <? length lines)%nat then nl ++ js "..." else []).

(** [sourceVal] in quick mode. *)
Definition quickSource (source : jstring) : jstring := truncateLines 35 source.

(** [importBlockVal] in quick mode: an absent or empty block stays. *)
Definition quickImportBlock (importBlock : option jstring) : option jstring :=
  match importBlock with
  | Some ((_ :: _) as b) => Some (truncateLines 12 b)
  | other => other
  end.

End PromptBuilder.

(* ===================================================================== *)
(** * [src/contextDetector.ts]: the project context of a request *)
(* ===================================================================== *)

Module ContextDetector.

(** [if (v) results.push(...)]: a context that is found and not empty. *)
Definition found (v : option jstring) : bool :=
  match v with Some (_ :: _) => true | _ => false end.

(** The end of [detectProjectContext]: the three contexts found
    ([None] is [undefined]) are joined and the text is cut at 300
    characters. *)
Definition combine (readmeContext packageContext domainContext : option jstring)
  : option jstring :=
  let results :=
    (if found readmeContext then [default [] readmeContext] else [])
    ++ (if found packageContext then [default [] packageContext] else [])
    ++ (if found domainContext then [js "Domain: " ++ default [] domainContext] else []) in
  match results with
  | [] => None
  | _ :: _ =>
      let combined := join (js ". ") results in
      Some (if (300 <? Z.of_nat (length combined))%Z
            then slice combined 0 297 ++ js "..."
            else combined)
  end.

End ContextDetector.

(* ===================================================================== *)
(** * [src/webview/script.ts]: heading anchors and the state of the view *)
(* ===================================================================== *)

Module Webview.
Import Regex.

(** [[a-z0-9]] *)
Definition isSlugChar (c : Z) : bool := inRange 97 122 c || inRange 48 57 c.

(** [/[^a-z0-9]+/g] *)
Definition nonSlugRe : re := plus (fun c => negb (isSlugChar c)).

(** [/^-|-$/g] *)
Definition edgeDashRe : re := Alt (cat [Bol; lit 45]) (cat [lit 45; Eol]).

Section Slug.

(** [String.prototype.toLowerCase], which depends on the Unicode tables
    of the engine. *)
Variable toLowerCase : jstring -> jstring.

(** [slug(text)] for a string [text]. *)
Definition slug (text : jstring) : jstring :=
  let s :=
    replaceAll edgeDashRe (fun _ => [])
      (replaceAll nonSlugRe (fun _ => js "-") (toLowerCase text)) in
  match s with
  | [] => js "h"
  | _ :: _ => s
  end.

End Slug.

(** The states of the view. *)
Inductive UIState := IDLE | LOADING | STREAMING | READY | ERROR.

(** [STATE_TRANSITIONS[from]] *)
Definition STATE_TRANSITIONS (from : UIState) : list UIState :=
  match from with
  | IDLE => [LOADING]
  | LOADING => [STREAMING; READY; ERROR; IDLE]
  | STREAMING => [READY; ERROR]
  | READY => [LOADING; IDLE]
  | ERROR => [LOADING; IDLE]
  end.

Definition UIState_eqb (a b : UIState) : bool :=
  match a, b with
  | IDLE, IDLE | LOADING, LOADING | STREAMING, STREAMING
  | READY, READY | ERROR, ERROR => true
  | _, _ => false
  end.

(** [canTransition(from, to)] *)
Definition canTransition (from to : UIState) : bool :=
  existsb (UIState_eqb to) (STATE_TRANSITIONS from).

(** [transitionTo(newState)]: the new [currentUIState] and the value
    returned. *)
Definition transitionTo (currentUIState newState : UIState) : UIState * bool :=
  if negb (canTransition currentUIState newState) then (currentUIState, false)
  else (newState, true).

(** [d.type] of a message of the extension. *)
Inductive Message :=
| MsgLoading | MsgClear | MsgShow | MsgAppend | MsgError | MsgInfo | MsgStatus.

(** [currentUIState] after the handler of one message. *)
Definition onMessage (currentUIState : UIState) (d : Message) : UIState :=
  match d with
  | MsgLoading => fst (transitionTo currentUIState LOADING)
  | MsgClear => fst (transitionTo currentUIState STREAMING)
  | MsgShow => fst (transitionTo currentUIState READY)
  | MsgError => fst (transitionTo currentUIState ERROR)
  | MsgAppend | MsgInfo | MsgStatus => currentUIState
  end.

(** [currentUIState] after the messages [ms], from the state [IDLE] in
    which the script starts. *)
Definition stateAfter (ms : list Message) : UIState := fold_left onMessage ms IDLE.

End Webview.

Module WebviewFacts.
Import Regex Webview.

(** What replacing every run of characters of the class [p] by a dash
    gives; [inRun] tells that the character before was of the class. *)
Fixpoint collapse (p : Z -> bool) (inRun : bool) (s : jstring) : jstring :=
  match s with
  | [] => []
  | c :: r =>
      if p c then (if inRun then collapse p true r else 45%Z :: collapse p true r)
      else c :: collapse p false r
  end.

(** The text without one dash at its end. *)
Fixpoint dropTrailingDash (s : jstring) : jstring :=
  match s with
  | [] => []
  | [c] => if (c =? 45)%Z then [] else [c]
  | c :: r => c :: dropTrailingDash r
  end.

(** The text without one dash at its start and one at its end. *)
Definition stripEdges (s : jstring) : jstring :=
  match s with
  | c :: r => if (c =? 45)%Z then dropTrailingDash r else dropTrailingDash s
  | [] => []
  end.

(** No two dashes follow each other. *)
Fixpoint noDoubleDash (s : jstring) : bool :=
  match s with
  | c :: r =>
      negb ((c =? 45)%Z && match r with d :: _ => (d =? 45)%Z | [] => false end)
      && noDoubleDash r
  | [] => true
  end.

End WebviewFacts.

(** Two more facts about a pattern, used for the patterns of
    [transformLinkHref]. *)
Module TargetFacts.
Import Regex.

(** No match of the pattern takes the character [c] from the subject. *)
Definition avoids (c : Z) (r : re) : Prop :=
  forall st st' w,
    In st' (matchAt r st) -> after st = w ++ after st' -> ~ In c w.

(** Every match of the pattern ends at the end of the subject. *)
Definition toEnd (r : re) : Prop :=
  forall st st', In st' (matchAt r st) -> after st' = [].

(** What follows the path group in [rangeRe] and in [lineColRe]. *)
Definition rangeTail : re :=
  cat [str ":"; Group 2 (plus isDigit); str "-"; Group 3 (plus isDigit); Eol].
Definition lineColTail : re :=
  cat [str ":"; Group 2 (plus isDigit);
       Opt (Seq (str ":") (Group 3 (plus isDigit))); Eol].

End TargetFacts.

(** Names for the hypotheses on an identifier. *)
Module SymbolFacts.
Import Regex.

(** An ASCII letter in lower case; any other character as it is. *)
Definition lowerAscii (c : Z) : Z := if inRange 65 90 c then (c + 32)%Z else c.

(** The text starts with the lower-case word [w], in whatever case. *)
Definition startsWithNoCase (w s : jstring) : bool :=
  startsWith w (map lowerAscii s).

(** The scheme names of the test of [transformLinkHref]; [https] starts
    with [http]. *)
Definition schemeNames : list jstring :=
  [js "file"; js "http"; js "mailto"; js "tel"; js "data"].

End SymbolFacts.

(* ===================================================================== *)
(** * Theorems *)
(* ===================================================================== *)

Section LlmProofs.
Import Llm FrameBuffer.

Lemma run_app s a b :
  TextDecoder.run s (a ++ b) =
  let '(s1, o1) := TextDecoder.run s a in
  let '(s2, o2) := TextDecoder.run s1 b in (s2, o1 ++ o2).
Proof.
  revert s; induction a as [|x a IH]; intros s; simpl.
  - destruct (TextDecoder.run s b); reflexivity.
  - destruct (TextDecoder.handler s (TextDecoder.byteValue x)) as [s1 o1].
    rewrite IH. destruct (TextDecoder.run s1 a) as [s2 o2].
    destruct (TextDecoder.run s2 b) as [s3 o3]. by rewrite app_assoc.
Qed.

Lemma serialize_app bom x y :
  TextDecoder.serialize bom (x ++ y) =
  let '(b1, o1) := TextDecoder.serialize bom x in
  let '(b2, o2) := TextDecoder.serialize b1 y in (b2, o1 ++ o2).
Proof.
  revert bom; induction x as [|c x IH]; intros bom; simpl.
  - destruct (TextDecoder.serialize bom y); reflexivity.
  - destruct bom.
    + rewrite IH. destruct (TextDecoder.serialize true x) as [b1 o1].
      destruct (TextDecoder.serialize b1 y). by rewrite app_assoc.
    + destruct (c =? 65279)%Z.
      * apply IH.
      * rewrite IH. destruct (TextDecoder.serialize true x) as [b1 o1].
        destruct (TextDecoder.serialize b1 y). by rewrite app_assoc.
Qed.

Lemma decode_app d a b :
  TextDecoder.decode d (a ++ b) =
  let '(d1, o1) := TextDecoder.decode d a in
  let '(d2, o2) := TextDecoder.decode d1 b in (d2, o1 ++ o2).
Proof.
  unfold TextDecoder.decode. rewrite run_app.
  destruct (TextDecoder.run (TextDecoder.utf8 d) a) as [s1 c1].
  destruct (TextDecoder.serialize (TextDecoder.bomSeen d) c1) as [b1 o1] eqn:E1.
  cbn [TextDecoder.utf8 TextDecoder.bomSeen].
  destruct (TextDecoder.run s1 b) as [s2 c2]. rewrite serialize_app, E1.
  destruct (TextDecoder.serialize b1 c2). reflexivity.
Qed.

Lemma decodeAll_concat d rs :
  decodeAll d rs = snd (TextDecoder.decode d (concat rs)).
Proof.
  revert d; induction rs as [|v rs IH]; intros d; simpl.
  - reflexivity.
  - rewrite decode_app. destruct (TextDecoder.decode d v) as [d1 o1].
    rewrite IH. destruct (TextDecoder.decode d1 (concat rs)). reflexivity.
Qed.


Lemma split_nonempty sep s : split sep s <> [].
Proof.
  destruct s as [|c s]; simpl; [discriminate|].
  destruct (c =? sep)%Z; [discriminate|].
  destruct (split sep s); discriminate.
Qed.

Lemma split_app sep a b :
  split sep (a ++ b) =
  List.removelast (split sep a) ++ split sep (List.last (split sep a) [] ++ b).
Proof.
  induction a as [|c a IH]; [reflexivity|].
  cbn [app split]. destruct (c =? sep)%Z eqn:E.
  - rewrite IH. pose proof (split_nonempty sep a) as Hne.
    destruct (split sep a) as [|p ps]; [congruence|]. reflexivity.
  - rewrite IH. pose proof (split_nonempty sep a) as Hne.
    destruct (split sep a) as [|p ps]; [congruence|].
    destruct ps as [|q qs].
    + cbn. rewrite E. pose proof (split_nonempty sep (p ++ b)) as Hne'.
      destruct (split sep (p ++ b)); [congruence|]. reflexivity.
    + reflexivity.
Qed.

Lemma split_last sep s :
  split sep (List.last (split sep s) []) = [List.last (split sep s) []].
Proof.
  induction s as [|c s IH]; [reflexivity|].
  cbn [split]. pose proof (split_nonempty sep s) as Hne.
  destruct (c =? sep)%Z eqn:E.
  - destruct (split sep s) as [|p ps]; [congruence|]. exact IH.
  - destruct (split sep s) as [|p ps]; [congruence|].
    destruct ps as [|q qs].
    + cbn in *. rewrite E, IH. reflexivity.
    + exact IH.
Qed.

Lemma last_app_nonempty {A} (l l' : list A) d :
  l' <> [] -> List.last (l ++ l') d = List.last l' d.
Proof.
  intros Hne. induction l as [|x l IH]; [reflexivity|].
  cbn [app]. rewrite <- IH. cbn.
  destruct (l ++ l') eqn:E; [|reflexivity].
  apply app_eq_nil in E as [_ ?]. congruence.
Qed.

Lemma completeLines_app a b :
  completeLines (a ++ b) = completeLines a ++ completeLines (carry a ++ b).
Proof.
  unfold completeLines, carry. rewrite split_app.
  apply List.removelast_app, split_nonempty.
Qed.

Lemma carry_app a b : carry (a ++ b) = carry (carry a ++ b).
Proof.
  unfold carry. rewrite split_app.
  apply last_app_nonempty, split_nonempty.
Qed.

Lemma completeLines_carry s : completeLines (carry s) = [].
Proof. unfold completeLines, carry. by rewrite split_last. Qed.

Lemma carry_carry s : carry (carry s) = carry s.
Proof. unfold carry at 1. unfold carry at 1. by rewrite split_last. Qed.

Lemma bump_0 st : bump st 0 = st.
Proof. destruct st; unfold bump; simpl. by rewrite Nat.add_0_r. Qed.

Lemma lineStep_frame st l :
  lineStep st l =
  (fst (lineStep initialLoop l),
   option_map (fun s0 => bump st (yieldCount s0)) (snd (lineStep initialLoop l))).
Proof.
  unfold lineStep.
  repeat match goal with
         | |- context [if ?c then _ else _] => destruct c
         | |- context [match ?c with Some _ => _ | None => _ end] => destruct c
         end; cbn [fst snd option_map initialLoop yieldCount];
    rewrite ?bump_0; try reflexivity.
  unfold bump. by rewrite Nat.add_1_r.
Qed.

Lemma forLines_scan st ls :
  forLines st ls = (fst (scan ls), option_map (bump st) (snd (scan ls))).
Proof.
  revert st; induction ls as [|l ls IH]; intros st; cbn [forLines scan].
  - cbn. by rewrite bump_0.
  - rewrite (lineStep_frame st l).
    destruct (lineStep initialLoop l) as [evs [s0|]]; cbn [fst snd option_map].
    + rewrite IH. destruct (scan ls) as [evs' [n|]]; cbn; [|reflexivity].
      unfold bump; cbn. by rewrite Nat.add_assoc.
    + reflexivity.
Qed.

Lemma scan_app l1 l2 :
  scan (l1 ++ l2) =
  match scan l1 with
  | (e1, None) => (e1, None)
  | (e1, Some n1) =>
      let '(e2, r) := scan l2 in (e1 ++ e2, option_map (Nat.add n1) r)
  end.
Proof.
  induction l1 as [|l l1 IH]; cbn [app scan].
  - destruct (scan l2) as [e2 [n|]]; reflexivity.
  - destruct (lineStep initialLoop l) as [evs [s0|]]; [|reflexivity].
    rewrite IH. destruct (scan l1) as [e1 [n1|]]; cbn; [|reflexivity].
    destruct (scan l2) as [e2 [n2|]]; cbn; rewrite app_assoc; [|reflexivity].
    by rewrite Nat.add_assoc.
Qed.

Lemma onDone_ext d d' b f f' n :
  (n = 0 -> f = f') ->
  onDone (mkLoop d b f n) = onDone (mkLoop d' b f' n).
Proof.
  intros H. unfold onDone; cbn. destruct n; cbn; [|reflexivity].
  by rewrite H.
Qed.

Lemma atEnding_ext e d d' b f f' n :
  (n = 0 -> f = f') ->
  atEnding e (mkLoop d b f n) = atEnding e (mkLoop d' b f' n).
Proof. intros H. destruct e; cbn; [by apply onDone_ext|reflexivity]. Qed.

Lemma readLoop_feed st rs e :
  readLoop st rs e =
  match feed st rs with
  | (evs, None) => evs
  | (evs, Some st') => evs ++ atEnding e st'
  end.
Proof.
  revert st; induction rs as [|v rs IH]; intros st; cbn [readLoop feed].
  - reflexivity.
  - destruct (onValue st v) as [evs [st'|]]; [|reflexivity].
    rewrite IH. destruct (feed st' rs) as [evs' [st''|]]; by rewrite ?app_assoc.
Qed.

Lemma onValue_scan st v :
  onValue st v =
  let '(d, decoded) := TextDecoder.decode (decoder st) v in
  let whole := buffer st ++ decoded in
  (fst (scan (completeLines whole)),
   option_map
     (fun n => mkLoop d (carry whole)
                 (if Nat.eqb (yieldCount st) 0 then fallbackBuffer st ++ decoded
                  else fallbackBuffer st)
                 (yieldCount st + n))
     (snd (scan (completeLines whole)))).
Proof.
  unfold onValue. destruct (TextDecoder.decode (decoder st) v) as [d decoded].
  rewrite forLines_scan. reflexivity.
Qed.

Lemma readLoop_ofText rs : forall st e,
  completeLines (buffer st) = [] -> carry (buffer st) = buffer st ->
  readLoop st rs e = ofText st (decodeAll (decoder st) rs) e.
Proof.
  induction rs as [|v rs IH]; intros st e Hl Hc; cbn [readLoop decodeAll].
  - unfold ofText. rewrite app_nil_r, Hl, Hc. cbn.
    destruct st as [d b f n]; cbn. rewrite Nat.add_0_r.
    apply atEnding_ext. intros _. by rewrite app_nil_r.
  - rewrite onValue_scan. unfold ofText.
    destruct (TextDecoder.decode (decoder st) v) as [d1 t1]. cbn zeta.
    rewrite (app_assoc (buffer st)).
    rewrite (completeLines_app (buffer st ++ t1)), (carry_app (buffer st ++ t1)).
    rewrite scan_app.
    destruct (scan (completeLines (buffer st ++ t1))) as [e1 [n1|]];
      cbn [fst snd option_map]; [|reflexivity].
    rewrite IH; cbn [buffer decoder fallbackBuffer yieldCount];
      [|apply completeLines_carry|apply carry_carry].
    unfold ofText; cbn [buffer decoder fallbackBuffer yieldCount].
    destruct (scan (completeLines (carry (buffer st ++ t1) ++ decodeAll d1 rs)))
      as [e2 [n2|]]; cbn [option_map]; [|reflexivity].
    rewrite <- app_assoc, Nat.add_assoc. f_equal. f_equal.
    apply atEnding_ext. intros Hz.
    destruct (yieldCount st); [cbn; by rewrite app_assoc|lia].
Qed.

(** C1.  Chunk-split invariance of the stream decoder: whatever the
    ending of the body, feeding the byte blocks [pieces] one read at a
    time through the decode loop of [streamOpenAIChat] (the stateful
    [TextDecoder] and the line carry buffer) yields the same events, and
    so the same ordered [Chunk] contents, as feeding their concatenation
    in a single read.  It holds for every byte sequence and every way of
    cutting it, also in the middle of a line or of a multi-byte
    character. *)
Theorem chunk_split_invariance (pieces : list (list byte)) (e : Ending) :
  decodeBody (mkBody pieces e) = decodeBody (mkBody [concat pieces] e)
  /\ chunkContents (decodeBody (mkBody pieces e))
     = chunkContents (decodeBody (mkBody [concat pieces] e)).
Proof.
  assert (decodeBody (mkBody pieces e) = decodeBody (mkBody [concat pieces] e)) as H.
  { unfold decodeBody; cbn [reads ending].
    rewrite !readLoop_ofText by reflexivity.
    cbn [decodeAll]. rewrite decodeAll_concat.
    destruct (TextDecoder.decode (decoder initialLoop) (concat pieces)).
    cbn. by rewrite app_nil_r. }
  split; [exact H|by rewrite H].
Qed.


(** ** The shape of an event sequence *)

Lemma scan_shape ls :
  match scan ls with
  | (evs, Some n) => exists cs, evs = map Chunk cs /\ length cs = n
  | (evs, None) => exists cs, evs = map Chunk cs ++ [Done]
  end.
Proof.
  induction ls as [|l ls IH]; cbn [scan].
  - by exists [].
  - assert (lineStep initialLoop l = ([], Some initialLoop)
            \/ lineStep initialLoop l = ([Done], None)
            \/ exists c, lineStep initialLoop l
                          = ([Chunk c], Some (mkLoop TextDecoder.create [] [] 1)))
      as [-> | [-> | [c ->]]].
    { unfold lineStep.
      repeat match goal with
             | |- context [if ?c then _ else _] => destruct c
             | |- context [match ?c with Some _ => _ | None => _ end] => destruct c
             end; eauto. }
    + destruct (scan ls) as [evs [n|]]; exact IH.
    + by exists [].
    + destruct (scan ls) as [evs [n|]]; destruct IH as [cs Hcs].
      * destruct Hcs as [-> <-]. by exists (c :: cs).
      * subst evs. by exists (c :: cs).
Qed.







(** ** The fallback parse *)

Lemma feed_count rs : forall st evs st',
  feed st rs = (evs, Some st') ->
  yieldCount st' = yieldCount st + length (chunkContents evs).
Proof.
  induction rs as [|v rs IH]; intros st evs st' H; cbn [feed] in H.
  - injection H as <- <-. cbn. lia.
  - rewrite onValue_scan in H.
    destruct (TextDecoder.decode (decoder st) v) as [d t]. cbn zeta in H.
    pose proof (scan_shape (completeLines (buffer st ++ t))) as Hs.
    destruct (scan (completeLines (buffer st ++ t))) as [e1 [n1|]];
      cbn [fst snd option_map] in H; [|discriminate].
    destruct Hs as (cs & -> & <-).
    destruct (feed _ rs) as [e2 [st2|]] eqn:E2; [|discriminate].
    injection H as <- <-. apply IH in E2. cbn [yieldCount] in E2. rewrite E2.
    clear. induction cs as [|c cs IHc]; cbn in *; lia.
Qed.

Lemma isJsonSpace_isWhiteSpace c :
  JSON.isJsonSpace c = true -> isWhiteSpace c = true.
Proof.
  unfold JSON.isJsonSpace, isWhiteSpace. intros H.
  repeat (apply orb_prop in H as [H|H]); apply Z.eqb_eq in H; by subst.
Qed.

Lemma trimStart_skipWs s : trimStart s = trimStart (JSON.skipWs s).
Proof.
  induction s as [|c s IH]; [reflexivity|]. cbn.
  destruct (JSON.isJsonSpace c) eqn:E; [|reflexivity].
  by rewrite (isJsonSpace_isWhiteSpace _ E).
Qed.

Lemma trimStart_snoc l c :
  isWhiteSpace c = false -> exists l', trimStart (l ++ [c]) = l' ++ [c].
Proof.
  intros Hc. induction l as [|x l IH]; cbn.
  - rewrite Hc. by exists [].
  - destruct (isWhiteSpace x); [exact IH|by exists (x :: l)].
Qed.

Lemma trim_keeps_first s c r :
  isWhiteSpace c = false -> JSON.skipWs s = c :: r ->
  exists r', trim s = c :: r'.
Proof.
  intros Hc Hs. unfold trim, trimEnd.
  rewrite (trimStart_skipWs s), Hs. cbn [trimStart]. rewrite Hc. cbn [rev].
  destruct (trimStart_snoc (rev r) c Hc) as [l' ->].
  rewrite rev_app_distr. by eexists.
Qed.

Lemma parse_object_brace s ms :
  JSON.parse s = Some (JSON.JObject ms) -> exists r, JSON.skipWs s = 123%Z :: r.
Proof.
  unfold JSON.parse. cbn [JSON.parseValue].
  destruct (JSON.skipWs s) as [|c r]; [discriminate|].
  destruct (c =? 123)%Z eqn:E.
  { apply Z.eqb_eq in E. subst. by eexists. }
  intros H. exfalso. unfold JSON.parseLiteral in H.
  repeat case_match; simplify_eq.
Qed.

Lemma messageContent_object data c :
  messageContent data = Some c -> exists ms, data = JSON.JObject ms.
Proof.
  destruct data; try discriminate; eauto.
Qed.

(** C3.  Fallback parse: when the reads of a successful response reach
    the natural end of the body without any event having been emitted,
    and the raw body accumulated in [fallbackBuffer] parses as JSON with a
    string at [choices[0].message.content], then [streamOpenAIChat] emits
    exactly one [Chunk] with that string, followed by [Done]. *)
Theorem fallback_parse
  (Number_toString : jstring -> jstring)
  (baseUrl apiKey model : jstring) (messages : list ChatMessage)
  (opts : option StreamOpenAIChatOpts) (res : Response)
  (rs : list (list byte)) (st : LoopState) (data : JSON.value) (c : jstring) :
  ok res = true ->
  body res = Some (mkBody rs EndOfStream) ->
  feed initialLoop rs = ([], Some st) ->
  JSON.parse (fallbackBuffer st) = Some data ->
  messageContent data = Some c ->
  streamOpenAIChat Number_toString baseUrl apiKey model messages opts
    (fun _ => FetchResolves res)
  = [Chunk c; Done].
Proof.
  intros Hok Hbody Hfeed Hparse Hc.
  unfold streamOpenAIChat. rewrite Hok, Hbody. cbn [negb].
  unfold decodeBody; cbn [reads ending]. rewrite readLoop_feed, Hfeed.
  cbn [app atEnding]. unfold onDone.
  apply feed_count in Hfeed as Hn. cbn in Hn. rewrite Hn. cbn [Nat.eqb andb].
  destruct (messageContent_object _ _ Hc) as [ms ->].
  destruct (parse_object_brace _ _ Hparse) as [r Hr].
  destruct (trim_keeps_first _ 123%Z r eq_refl Hr) as [r' ->].
  cbn [startsWith]. rewrite Hparse, Hc. reflexivity.
Qed.


(** ** A malformed frame between two content frames *)

Lemma split_line l tail :
  includes nl l = false -> split 10 (l ++ nl ++ tail) = l :: split 10 tail.
Proof.
  induction l as [|c l IH]; intros H; [reflexivity|].
  unfold nl in H. cbn [includes startsWith] in H.
  apply orb_false_elim in H as [Hc Hl]. rewrite andb_true_r in Hc.
  cbn [app split]. rewrite Z.eqb_sym, Hc, IH; [reflexivity|exact Hl].
Qed.

Lemma jstring_eqb_false a b : a <> b -> jstring_eqb a b = false.
Proof. apply bool_decide_eq_false_2. Qed.

Lemma startsWith_app p s : startsWith p (p ++ s) = true.
Proof. induction p as [|c p IH]; [by destruct s|]. cbn. by rewrite Z.eqb_refl. Qed.

Lemma sliceFrom_app p s : sliceFrom (p ++ s) (Z.of_nat (length p)) = s.
Proof.
  unfold sliceFrom, sliceIndex.
  destruct (Z.ltb_spec (Z.of_nat (length p)) 0); [lia|].
  rewrite length_app, Z.min_l, Nat2Z.id by lia.
  by rewrite skipn_app, skipn_all, Nat.sub_diag.
Qed.

Lemma lineStep_data st payload l :
  trim l = js "data: " ++ payload -> payload <> js "[DONE]" ->
  lineStep st l =
  match JSON.parse payload with
  | Some data =>
      match deltaContent data with
      | Some c =>
          ([Chunk c],
           Some (mkLoop (decoder st) (buffer st) (fallbackBuffer st) (S (yieldCount st))))
      | None => ([], Some st)
      end
  | None => ([], Some st)
  end.
Proof.
  intros Ht Hp. unfold lineStep. rewrite Ht.
  rewrite !jstring_eqb_false; cbn [orb].
  - rewrite startsWith_app.
    change 6%Z with (Z.of_nat (length (js "data: "))).
    by rewrite sliceFrom_app.
  - intros H. apply (app_inv_head (js "data: ") payload (js "[DONE]")) in H.
    contradiction.
  - discriminate.
  - discriminate.
  - discriminate.
Qed.

Lemma contentFrame_step st l c :
  contentFrame l c ->
  lineStep st l =
  ([Chunk c], Some (mkLoop (decoder st) (buffer st) (fallbackBuffer st) (S (yieldCount st)))).
Proof.
  intros (payload & data & Ht & Hp & Hc).
  rewrite (lineStep_data st payload l Ht), Hp, Hc; [reflexivity|].
  intros ->. vm_compute in Hp. discriminate.
Qed.

Lemma malformedFrame_step st l :
  malformedFrame l -> lineStep st l = ([], Some st).
Proof.
  intros (payload & Ht & Hne & Hp).
  by rewrite (lineStep_data st payload l Ht Hne), Hp.
Qed.

(** C5.  Malformed-frame tolerance: when the body of a successful
    response decodes, over any reads, to three lines of which the first
    and the third are well-formed content frames and the second is a data
    frame whose payload does not parse, the stream is not aborted and the
    malformed frame produces no event: the events are the two [Chunk]
    events in order, then [Done]. *)
Theorem malformed_frame_tolerated
  (Number_toString : jstring -> jstring)
  (baseUrl apiKey model : jstring) (messages : list ChatMessage)
  (opts : option StreamOpenAIChatOpts) (res : Response)
  (rs : list (list byte)) (l1 bad l2 c1 c2 : jstring) :
  ok res = true ->
  body res = Some (mkBody rs EndOfStream) ->
  decodeAll TextDecoder.create rs = l1 ++ nl ++ bad ++ nl ++ l2 ++ nl ->
  includes nl l1 = false -> includes nl bad = false -> includes nl l2 = false ->
  contentFrame l1 c1 -> malformedFrame bad -> contentFrame l2 c2 ->
  streamOpenAIChat Number_toString baseUrl apiKey model messages opts
    (fun _ => FetchResolves res)
  = [Chunk c1; Chunk c2; Done].
Proof.
  intros Hok Hbody Htext H1 Hb H2 F1 Fb F2.
  unfold streamOpenAIChat. rewrite Hok, Hbody. cbn [negb].
  unfold decodeBody; cbn [reads ending].
  rewrite readLoop_ofText by reflexivity.
  cbn [decoder initialLoop]. rewrite Htext.
  unfold ofText, completeLines, carry. cbn [buffer initialLoop app].
  rewrite (split_line l1), (split_line bad) by assumption.
  replace (l2 ++ nl) with (l2 ++ nl ++ []) by (by rewrite app_nil_r).
  rewrite (split_line l2) by assumption.
  cbn [split List.removelast List.last scan].
  rewrite (contentFrame_step _ _ _ F1), (malformedFrame_step _ _ Fb),
    (contentFrame_step _ _ _ F2).
  reflexivity.
Qed.


Lemma fallback_parse_witness :
  streamOpenAIChat (fun x => x) (js "https://api.example/v1/") (js "key") (js "m")
    [] None
    (fun _ => FetchResolves
       (okResponse (mkBody [bytesq "{'choices':[{'mess"; bytesq "age':{'content':'hi'}}]}"]
                      EndOfStream)))
  = [Chunk (js "hi"); Done].
Proof.
  eapply fallback_parse;
    [reflexivity|reflexivity|vm_compute; reflexivity|vm_compute; reflexivity
    |vm_compute; reflexivity].
Defined.

Lemma malformed_frame_tolerated_witness :
  streamOpenAIChat (fun x => x) (js "https://api.example/v1") (js "key") (js "m")
    [] None
    (fun _ => FetchResolves
       (okResponse
          (mkBody [bytesq "data: {'choices':[{'delta':{'content':'Hel"
                   ++ [Byte.xc3];
                   [Byte.xa9] ++ bytesq "'}}]}" ++ [Byte.x0a] ++ bytesq "data: {'choi";
                   bytesq "ces" ++ [Byte.x0a]
                   ++ bytesq "data: {'choices':[{'delta':{'content':'lo'}}]}"
                   ++ [Byte.x0a]]
             EndOfStream)))
  = [Chunk (js "Hel" ++ [233%Z]); Chunk (js "lo"); Done].
Proof.
  eapply (malformed_frame_tolerated _ _ _ _ _ _ _ _
            (jsq "data: {'choices':[{'delta':{'content':'Hel" ++ [233%Z] ++ jsq "'}}]}")
            (jsq "data: {'choices")
            (jsq "data: {'choices':[{'delta':{'content':'lo'}}]}"));
    [reflexivity|reflexivity|vm_compute; reflexivity
    |vm_compute; reflexivity|vm_compute; reflexivity|vm_compute; reflexivity
    | | |].
  - exists (jsq "{'choices':[{'delta':{'content':'Hel" ++ [233%Z] ++ jsq "'}}]}").
    eexists. split; [vm_compute; reflexivity|]. split; vm_compute; reflexivity.
  - exists (jsq "{'choices"). split; [vm_compute; reflexivity|].
    split; [discriminate|vm_compute; reflexivity].
  - exists (jsq "{'choices':[{'delta':{'content':'lo'}}]}").
    eexists. split; [vm_compute; reflexivity|]. split; vm_compute; reflexivity.
Defined.

End LlmProofs.

Section MarkdownProofs.
Import Regex URI Markdown MarkdownFacts.

Lemma transformLinkHref_slashes h :
  includes (js "//") h = true -> startsWith (js "file:") h = false ->
  transformLinkHref h = Some (mkLink h None None None None None).
Proof.
  intros Hs Hf. unfold transformLinkHref, symbolLike.
  rewrite Hf, Hs. cbn [negb]. rewrite !andb_false_r. reflexivity.
Qed.

Lemma refineFromText_no_path t text :
  path t = None -> refineFromText t text = Some t.
Proof. intros H. unfold refineFromText. rewrite H. reflexivity. Qed.

Lemma link_no_path allowed h title text t :
  transformLinkHref h = Some t -> path t = None ->
  link allowed h title text = Some (anchor t title text).
Proof.
  intros Ht Hp. unfold link. rewrite Ht. cbn [mbind option_bind].
  rewrite (refineFromText_no_path _ _ Hp). cbn [mbind option_bind]. rewrite Hp.
  reflexivity.
Qed.

Lemma linkInner_no_path t text : path t = None -> linkInner t text = displayInner text.
Proof. intros H. unfold linkInner. rewrite H. reflexivity. Qed.

Ltac file_branch Ht :=
  match type of Ht with
  | context [openFileHref ?a] =>
      destruct (openFileHref a); cbn [mbind option_bind] in Ht;
      [injection Ht as <-|discriminate Ht]
  end.

(** What [transformLinkHref] returns is a file link, a symbol or the
    target itself. *)
Lemma transformLinkHref_cases h t :
  transformLinkHref h = Some t ->
  (exists c p l k e, t = fileLink c p l k e
     /\ exists args, openFileHref args = Some c)
  \/ t = mkLink (js "#") None None None None (Some h)
  \/ t = mkLink h None None None None None.
Proof.
  unfold transformLinkHref. intros Ht.
  assert (forall t',
    (if symbolLike h then Some (mkLink (js "#") None None None None (Some h))
     else Some (mkLink h None None None None None)) = Some t' ->
    t' = mkLink (js "#") None None None None (Some h)
    \/ t' = mkLink h None None None None None) as Hfall.
  { intros t'. destruct (symbolLike h); intros [= <-]; auto. }
  destruct (startsWith (js "file:") h).
  { match type of Ht with context [openFileHref ?a] =>
      destruct (openFileHref a) eqn:E; cbn [mbind option_bind] in Ht;
      [injection Ht as <-|discriminate Ht] end.
    left. eauto 10. }
  destruct (negb (includes (js "//") h)); [|right; by apply Hfall].
  destruct (exec rangeRe h) as [m|].
  { match type of Ht with context [openFileHref ?a] =>
      destruct (openFileHref a) eqn:E; cbn [mbind option_bind] in Ht;
      [injection Ht as <-|discriminate Ht] end.
    left. eauto 10. }
  destruct (exec lineColRe h) as [m|].
  { match type of Ht with context [openFileHref ?a] =>
      destruct (openFileHref a) eqn:E; cbn [mbind option_bind] in Ht;
      [injection Ht as <-|discriminate Ht] end.
    left. eauto 10. }
  destruct (exec embeddedRe h) as [m|].
  { destruct (group 3 (groups m)).
    - match type of Ht with context [openFileHref ?a] =>
        destruct (openFileHref a) eqn:E; cbn [mbind option_bind] in Ht;
        [injection Ht as <-|discriminate Ht] end.
      left. eauto 10.
    - match type of Ht with context [openFileHref ?a] =>
        destruct (openFileHref a) eqn:E; cbn [mbind option_bind] in Ht;
        [injection Ht as <-|discriminate Ht] end.
      left. eauto 10. }
  destruct (exec bareFileRe h) as [m|].
  { match type of Ht with context [openFileHref ?a] =>
      destruct (openFileHref a) eqn:E; cbn [mbind option_bind] in Ht;
      [injection Ht as <-|discriminate Ht] end.
    left. eauto 10. }
  right. by apply Hfall.
Qed.

Lemma transformLinkHref_symbol h t s :
  transformLinkHref h = Some t -> symbol t = Some s ->
  t = mkLink (js "#") None None None None (Some h) /\ s = h.
Proof.
  intros Ht Hs.
  destruct (transformLinkHref_cases h t Ht) as [(c & p & l & k & e & -> & _)|[->| ->]].
  - discriminate Hs.
  - injection Hs as <-. split; reflexivity.
  - discriminate Hs.
Qed.


(** ** [encodeURIComponent] never throws on what [JSON.stringify] writes *)

Lemma small_not_surrogate c : (c < 55296)%Z -> isSurrogate c = false.
Proof.
  intros H. unfold isSurrogate, isHighSurrogate, isLowSurrogate, inRange.
  apply orb_false_intro; apply andb_false_intro1; apply Z.leb_gt; lia.
Qed.

Lemma high_not_low c : isHighSurrogate c = true -> isLowSurrogate c = false.
Proof.
  unfold isHighSurrogate, isLowSurrogate, inRange. intros H.
  apply andb_prop in H as [_ H]. apply Z.leb_le in H.
  apply andb_false_intro1, Z.leb_gt. lia.
Qed.

Lemma unreserved_small c : isUnreserved c = true -> (c < 55296)%Z.
Proof.
  unfold isUnreserved, isAlnum, inRange, oneOf. intros H.
  apply orb_prop in H as [H|H].
  - repeat (apply orb_prop in H as [H|H]); apply andb_prop in H as [_ H];
      apply Z.leb_le in H; lia.
  - apply existsb_exists in H as (x & Hx & Hc). apply Z.eqb_eq in Hc. subst x.
    vm_compute in Hx. repeat (destruct Hx as [<-|Hx]; [lia|]). destruct Hx.
Qed.

Lemma surrogate_not_unreserved c : isSurrogate c = true -> isUnreserved c = false.
Proof.
  intros H. destruct (isUnreserved c) eqn:E; [|reflexivity].
  apply unreserved_small, small_not_surrogate in E. congruence.
Qed.

Lemma encode_app_le n : forall a b x y,
  length a <= n ->
  encodeURIComponent a = Some x -> encodeURIComponent b = Some y ->
  encodeURIComponent (a ++ b) = Some (x ++ y).
Proof.
  induction n as [|n IH]; intros a b x y Hlen Ha Hb.
  - destruct a; [|cbn in Hlen; lia]. cbn in Ha. injection Ha as <-. exact Hb.
  - destruct a as [|c r]; [cbn in Ha; injection Ha as <-; exact Hb|].
    cbn [length] in Hlen. cbn [app encodeURIComponent] in Ha |- *.
    destruct (isUnreserved c).
    { destruct (encodeURIComponent r) as [e|] eqn:E; [|discriminate].
      injection Ha as <-. rewrite (IH r b e y); [reflexivity|lia|exact E|exact Hb]. }
    destruct (isLowSurrogate c); [discriminate|].
    destruct (isHighSurrogate c).
    { destruct r as [|d r']; [discriminate|]. cbn [app].
      destruct (isLowSurrogate d); [|discriminate].
      destruct (encodeURIComponent r') as [e|] eqn:E; [|discriminate].
      injection Ha as <-. cbn [length] in Hlen.
      rewrite (IH r' b e y); [|lia|exact E|exact Hb].
      rewrite <- app_assoc. reflexivity. }
    destruct (encodeURIComponent r) as [e|] eqn:E; [|discriminate].
    injection Ha as <-. rewrite (IH r b e y); [|lia|exact E|exact Hb].
    rewrite <- app_assoc. reflexivity.
Qed.

Lemma encodable_app a b : encodable a -> encodable b -> encodable (a ++ b).
Proof.
  intros [x Hx] [y Hy]. exists (x ++ y).
  exact (encode_app_le (length a) a b x y (le_n _) Hx Hy).
Qed.

Lemma encodable_plain s :
  Forall (fun c => isSurrogate c = false) s -> encodable s.
Proof.
  induction 1 as [|c r Hc _ [e IH]]; [by exists []|].
  apply orb_false_elim in Hc as [Hh Hl]. unfold encodable.
  cbn [encodeURIComponent]. rewrite IH, Hh, Hl.
  destruct (isUnreserved c); eauto.
Qed.

Lemma encodable_small s : Forall (fun c => (c < 55296)%Z) s -> encodable s.
Proof.
  intros H. apply encodable_plain. eapply Forall_impl; [exact H|].
  intros c. apply small_not_surrogate.
Qed.

Lemma hexDigit_small u n : (0 <= n < 16)%Z -> (hexDigit u n < 55296)%Z.
Proof. intros H. unfold hexDigit. destruct (n <? 10)%Z, u; lia. Qed.

Lemma unicodeEscape_encodable c : encodable (unicodeEscape c).
Proof.
  apply encodable_small. unfold unicodeEscape.
  apply Forall_app. split; [vm_compute; repeat constructor|].
  repeat (constructor; [apply hexDigit_small, Z.mod_pos_bound; lia|]).
  constructor.
Qed.

Lemma quoteUnit_encodable c : isSurrogate c = false -> encodable (quoteUnit c).
Proof.
  intros H. unfold quoteUnit.
  repeat match goal with
         | |- context [if ?b then _ else _] => destruct b
         end;
    first [apply unicodeEscape_encodable
          | apply encodable_plain; repeat constructor; exact H
          | apply encodable_small; repeat constructor ].
Qed.

Lemma quoteChars_encodable_le n : forall s, length s <= n -> encodable (quoteChars s).
Proof.
  induction n as [|n IH]; intros s Hlen.
  - destruct s; [by exists []|cbn in Hlen; lia].
  - destruct s as [|c r]; [by exists []|]. cbn [length] in Hlen.
    cbn [quoteChars].
    destruct (isHighSurrogate c) eqn:Hh.
    { destruct r as [|d r'].
      - apply unicodeEscape_encodable.
      - destruct (isLowSurrogate d) eqn:Hl.
        + cbn [length] in Hlen. destruct (IH r') as [e He]; [lia|].
          unfold encodable. cbn [encodeURIComponent].
          rewrite surrogate_not_unreserved
            by (unfold isSurrogate; rewrite Hh; reflexivity).
          rewrite (high_not_low c Hh), Hh, Hl, He. eauto.
        + apply encodable_app; [apply unicodeEscape_encodable|apply IH; lia]. }
    destruct (isLowSurrogate c) eqn:Hl.
    { apply encodable_app; [apply unicodeEscape_encodable|apply IH; lia]. }
    apply encodable_app; [|apply IH; lia].
    apply quoteUnit_encodable. unfold isSurrogate. rewrite Hh, Hl. reflexivity.
Qed.

Lemma digitsFuel_small fuel : forall n acc,
  Forall (fun c => (c < 55296)%Z) acc ->
  Forall (fun c => (c < 55296)%Z) (digitsFuel fuel n acc).
Proof.
  induction fuel as [|f IH]; intros n acc H; cbn [digitsFuel]; [exact H|].
  assert (Forall (fun c => (c < 55296)%Z) ((48 + n mod 10)%Z :: acc)) as H'.
  { constructor; [|exact H]. pose proof (Z.mod_pos_bound n 10). lia. }
  destruct (n <? 10)%Z; [exact H'|apply IH, H'].
Qed.

Lemma decimalDigits_small n : Forall (fun c => (c < 55296)%Z) (decimalDigits n).
Proof. apply digitsFuel_small. constructor. Qed.

Lemma firstn_small n (s : jstring) :
  Forall (fun c => (c < 55296)%Z) s -> Forall (fun c => (c < 55296)%Z) (firstn n s).
Proof.
  intros H. rewrite <- (firstn_skipn n s) in H.
  apply Forall_app in H as [H _]. exact H.
Qed.

Lemma magnitudeToString_small n :
  Forall (fun c => (c < 55296)%Z) (magnitudeToString n).
Proof.
  unfold magnitudeToString.
  destruct (infinity <=? n)%Z; [vm_compute; repeat constructor|].
  destruct (n <? 2 ^ 53)%Z; [apply decimalDigits_small|].
  destruct (shortestDecimal 310 n (roundingInterval n)) as [v j].
  destruct (length (decimalDigits v) <=? 21)%nat; [apply decimalDigits_small|].
  pose proof (firstn_small (length (decimalDigits v) - j) _ (decimalDigits_small v)) as H.
  destruct (firstn (length (decimalDigits v) - j) (decimalDigits v)) as [|d [|d' more]].
  - apply decimalDigits_small.
  - apply Forall_cons in H as [Hd _]. constructor; [exact Hd|].
    apply Forall_app. split; [vm_compute; repeat constructor|apply decimalDigits_small].
  - apply Forall_cons in H as [Hd Hmore]. constructor; [exact Hd|].
    apply Forall_app. split; [vm_compute; repeat constructor|].
    apply Forall_app. split; [exact Hmore|].
    apply Forall_app. split; [vm_compute; repeat constructor|apply decimalDigits_small].
Qed.

Lemma numberToString_encodable n : encodable (numberToString n).
Proof.
  apply encodable_small. unfold numberToString.
  destruct (n <? 0)%Z; [constructor; [lia|]|]; apply magnitudeToString_small.
Qed.

Lemma stringifyArg_encodable a : encodable (stringifyArg a).
Proof.
  destruct a as [s|n|]; cbn [stringifyArg].
  - apply encodable_app; [apply encodable_small; repeat constructor|].
    apply encodable_app; [|apply encodable_small; repeat constructor].
    apply (quoteChars_encodable_le (length s)), le_n.
  - destruct (isFiniteNumber n); [apply numberToString_encodable|].
    apply encodable_small. vm_compute. repeat constructor.
  - apply encodable_small. vm_compute. repeat constructor.
Qed.

Lemma join_encodable sep parts :
  encodable sep -> Forall encodable parts -> encodable (join sep parts).
Proof.
  intros Hsep. induction 1 as [|p ps Hp Hps IH]; [by exists []|].
  cbn [join]. destruct ps as [|q qs]; [exact Hp|].
  apply encodable_app; [exact Hp|]. apply encodable_app; [exact Hsep|exact IH].
Qed.

Lemma openFileHref_total args : exists c, openFileHref args = Some c.
Proof.
  assert (encodable (stringify args)) as [e He].
  { unfold stringify.
    apply encodable_app; [apply encodable_small; vm_compute; repeat constructor|].
    apply encodable_app; [|apply encodable_small; vm_compute; repeat constructor].
    apply join_encodable; [apply encodable_small; vm_compute; repeat constructor|].
    induction args as [|a args IHa]; constructor;
      [apply stringifyArg_encodable|exact IHa]. }
  unfold openFileHref. rewrite He. cbn [mbind option_bind]. eauto.
Qed.



Lemma openFileHref_prefix args c :
  openFileHref args = Some c -> startsWith commandPrefix c = true.
Proof.
  unfold openFileHref. destruct (encodeURIComponent (stringify args)) as [e|];
    cbn [mbind option_bind]; intros H; [|discriminate H].
  assert (c = commandPrefix ++ e) as -> by (unfold commandPrefix; congruence).
  apply startsWith_app.
Qed.

Lemma transformLinkHref_total h : exists t, transformLinkHref h = Some t.
Proof.
  unfold transformLinkHref.
  assert (exists t,
    (if symbolLike h then Some (mkLink (js "#") None None None None (Some h))
     else Some (mkLink h None None None None None)) = Some t) as Hfall.
  { destruct (symbolLike h); eauto. }
  assert (forall a (k : jstring -> LinkTransform),
            exists t, openFileHref a ≫= (fun c => Some (k c)) = Some t) as Hfile.
  { intros a k. destruct (openFileHref_total a) as [c Hc]. rewrite Hc.
    cbn [mbind option_bind]. eauto. }
  destruct (startsWith (js "file:") h); [apply Hfile|].
  destruct (negb (includes (js "//") h)); [|exact Hfall].
  destruct (exec rangeRe h) as [m1|]; [apply Hfile|].
  destruct (exec lineColRe h) as [m2|]; [apply Hfile|].
  destruct (exec embeddedRe h) as [m3|].
  { destruct (group 3 (groups m3)); apply Hfile. }
  destruct (exec bareFileRe h) as [m4|]; [apply Hfile|exact Hfall].
Qed.

Lemma transformLinkHref_file_href h t p :
  transformLinkHref h = Some t -> path t = Some p ->
  startsWith commandPrefix (href t) = true.
Proof.
  intros Ht Hp.
  destruct (transformLinkHref_cases h t Ht)
    as [(c & q & l & k & e & -> & args & Hc)|[->| ->]]; try discriminate Hp.
  cbn [href fileLink]. exact (openFileHref_prefix _ _ Hc).
Qed.

Lemma refineFromText_total t text :
  exists t', refineFromText t text = Some t' /\ path t' = path t
    /\ (startsWith commandPrefix (href t) = true ->
        startsWith commandPrefix (href t') = true).
Proof.
  unfold refineFromText.
  destruct (path t) as [p|] eqn:Hp; [|eauto].
  destruct (line t) as [[|[| |]|]|]; eauto.
  destruct (exec textLineRe text) as [m|]; [|eauto].
  match goal with
  | |- context [openFileHref ?a] =>
      destruct (openFileHref_total a) as [c Hc]; rewrite Hc
  end.
  cbn [mbind option_bind]. eexists. split; [reflexivity|].
  cbn [path href]. split; [reflexivity|].
  intros _. exact (openFileHref_prefix _ _ Hc).
Qed.

Lemma isAllowedFileLink_absent p l e : isAllowedFileLink p l e None = true.
Proof. reflexivity. Qed.

Lemma isAllowedFileLink_empty p l e : isAllowedFileLink p l e (Some ∅) = false.
Proof.
  unfold isAllowedFileLink.
  destruct l as [l|]; [|reflexivity].
  destruct (l <=? 0)%Z; [reflexivity|].
  destruct e as [e|]; [destruct (l <=? e)%Z|];
    apply bool_decide_eq_false_2, not_elem_of_empty.
Qed.

(** C10, as amended.  A link target that contains [//] and does not
    start with [file:] is returned by [transformLinkHref] with its [href]
    unchanged and without path, line, column, end line or symbol; the
    renderer never consults the allow-list for it and emits an ordinary
    anchor without data attributes. *)
Theorem slashed_href_is_ordinary_anchor
  (allowed : option (gset jstring)) (h : jstring) (title : option jstring)
  (text : jstring) :
  includes (js "//") h = true -> startsWith (js "file:") h = false ->
  transformLinkHref h = Some (mkLink h None None None None None)
  /\ link allowed h title text
     = Some (js "<a href=" ++ dq ++ escapeHtml h ++ dq ++ titleAttribute title
             ++ js ">" ++ displayInner text ++ js "</a>").
Proof.
  intros Hs Hf. pose proof (transformLinkHref_slashes h Hs Hf) as Ht.
  split; [exact Ht|].
  rewrite (link_no_path allowed h title text _ Ht eq_refl).
  unfold anchor, dataAttributes. cbn [path symbol href].
  rewrite linkInner_no_path by reflexivity. reflexivity.
Qed.

Lemma slashed_href_is_ordinary_anchor_witness :
  link (Some ∅) (js "https://example.com/a.ts:3") None (js "docs")
  = Some (jsq "<a href='https://example.com/a.ts:3'>docs</a>").
Proof.
  destruct (slashed_href_is_ordinary_anchor (Some ∅)
              (js "https://example.com/a.ts:3") None (js "docs")
              eq_refl eq_refl) as [_ H].
  rewrite H. vm_compute. reflexivity.
Defined.

(** C10, as stated, fails on a [file:] target: [file:///a/b.ts] contains
    [//], and yet it is rewritten into a file-open command with a path
    and a line, it is checked against the allow-list (the empty set
    degrades it to its text) and its anchor carries data attributes. *)
Lemma file_scheme_href_with_slashes_is_a_file_link :
  includes (js "//") (js "file:///a/b.ts") = true
  /\ transformLinkHref (js "file:///a/b.ts")
     = Some (fileLink (js "command:symfocus.openFile?%5B%22%2F%2F%2Fa%2Fb.ts%22%2C1%2C1%5D")
               (js "///a/b.ts") 1 1 None)
  /\ link (Some ∅) (js "file:///a/b.ts") None (js "open") = Some (js "open")
  /\ link None (js "file:///a/b.ts") None (js "open")
     = Some (jsq "<a href='command:symfocus.openFile?%5B%22%2F%2F%2Fa%2Fb.ts%22%2C1%2C1%5D' data-dw-path='///a/b.ts' data-dw-line='1' data-dw-col='1'>open</a>").
Proof. vm_compute. repeat split; reflexivity. Qed.


(** ** [escapeHtml] *)

Lemma replaceChar_app c by_ a b :
  replaceChar c by_ (a ++ b) = replaceChar c by_ a ++ replaceChar c by_ b.
Proof. unfold replaceChar. apply flat_map_app. Qed.

Lemma escapeHtml_app a b : escapeHtml (a ++ b) = escapeHtml a ++ escapeHtml b.
Proof. unfold escapeHtml. rewrite !replaceChar_app. reflexivity. Qed.

Lemma escapeHtml_one c : escapeHtml [c] = escapeChar c.
Proof.
  unfold escapeHtml, escapeChar, replaceChar. cbn [flat_map].
  destruct (c =? 38)%Z eqn:E38; [vm_compute; reflexivity|].
  cbn [app flat_map]. destruct (c =? 60)%Z eqn:E60; [vm_compute; reflexivity|].
  cbn [app flat_map]. destruct (c =? 62)%Z eqn:E62; [vm_compute; reflexivity|].
  cbn [app flat_map]. destruct (c =? 34)%Z eqn:E34; [vm_compute; reflexivity|].
  reflexivity.
Qed.

Lemma escapeHtml_chars s : escapeHtml s = flat_map escapeChar s.
Proof.
  induction s as [|c s IH]; [reflexivity|].
  change (c :: s) with ([c] ++ s).
  rewrite escapeHtml_app, escapeHtml_one, IH. reflexivity.
Qed.

Lemma escapeChar_safe c x :
  In x (escapeChar c) -> x <> 60%Z /\ x <> 62%Z /\ x <> 34%Z.
Proof.
  unfold escapeChar.
  destruct (Z.eqb_spec c 38); [vm_compute; intros H; intuition (subst; discriminate)|].
  destruct (Z.eqb_spec c 60); [vm_compute; intros H; intuition (subst; discriminate)|].
  destruct (Z.eqb_spec c 62); [vm_compute; intros H; intuition (subst; discriminate)|].
  destruct (Z.eqb_spec c 34); [vm_compute; intros H; intuition (subst; discriminate)|].
  intros [<-|[]]. auto.
Qed.

Lemma escapeHtml_safe s x :
  In x (escapeHtml s) -> x <> 60%Z /\ x <> 62%Z /\ x <> 34%Z.
Proof.
  rewrite escapeHtml_chars. intros H. apply in_flat_map in H as (c & _ & Hc).
  exact (escapeChar_safe c x Hc).
Qed.

(** C7.  [renderMarkdown] never fails its caller: for every input,
    every options value and every behaviour of the two libraries, it
    returns a string; it is the sanitized markup when rendering and
    sanitizing succeed, and otherwise the input inside a [p] element
    with [&], [<], [>] and the double quote replaced by their entities,
    so that no [<], [>] or double quote of the input is left. *)
Theorem renderMarkdown_never_fails
  (marked_parse : LinkRenderer -> jstring -> option jstring)
  (sanitize : jstring -> option jstring)
  (md : jstring) (options : option RenderMarkdownOptions) :
  (exists html,
      markup marked_parse md options ≫= sanitize = Some html
      /\ renderMarkdown marked_parse sanitize md options = html)
  \/ (markup marked_parse md options ≫= sanitize = None
      /\ renderMarkdown marked_parse sanitize md options
         = js "<p>" ++ flat_map escapeChar md ++ js "</p>"
      /\ forall x, In x (flat_map escapeChar md) ->
                   x <> 60%Z /\ x <> 62%Z /\ x <> 34%Z).
Proof.
  unfold renderMarkdown.
  destruct (markup marked_parse md options ≫= sanitize) as [html|].
  - left. exists html. split; reflexivity.
  - right. split; [reflexivity|]. unfold fallback.
    rewrite escapeHtml_chars. split; [reflexivity|].
    intros x Hx. rewrite <- escapeHtml_chars in Hx. exact (escapeHtml_safe md x Hx).
Qed.

(** C6, the failing input.  Two fenced blocks whose info string is
    [c++]: the fence pattern needs word characters up to the line feed, so
    it pairs the closing fence of the first block with the opening fence
    of the second; the reference [src/b.ts:7] inside the second block is
    then outside every recognised fence, and the second pass rewrites it
    into a link. *)
Theorem fenced_reference_is_rewritten_after_unrecognised_fence :
  let fence := js "```" in
  let md := fence ++ js "c++" ++ nl ++ js "int a;" ++ nl ++ fence ++ nl ++ nl
            ++ fence ++ js "c++" ++ nl ++ js "src/b.ts:7" ++ nl ++ fence in
  linkifyBacktickPathLine md = md
  /\ linkifyNakedPathLine (linkifyBacktickPathLine md)
     = fence ++ js "c++" ++ nl ++ js "int a;" ++ nl ++ fence ++ nl ++ nl
       ++ fence ++ js "c++" ++ nl ++ js "[src/b.ts:7](src/b.ts:7)" ++ nl ++ fence.
Proof. vm_compute. split; reflexivity. Qed.

End MarkdownProofs.

Section StreamProofs.
Import Llm FrameBuffer StreamFacts.

Lemma split_unlines ls tail :
  singleLines ls -> split 10 (unlines ls ++ tail) = ls ++ split 10 tail.
Proof.
  induction 1 as [|l ls Hl _ IH]; [reflexivity|].
  unfold unlines. cbn [map concat]. fold (unlines ls).
  rewrite <- !app_assoc, (split_line l _ Hl), IH. reflexivity.
Qed.

Lemma split_single l : includes nl l = false -> split 10 l = [l].
Proof.
  induction l as [|c l IH]; intros H; [reflexivity|].
  unfold nl in H. cbn [includes startsWith] in H.
  apply orb_false_elim in H as [Hc Hl]. rewrite andb_true_r in Hc.
  cbn [split]. rewrite Z.eqb_sym, Hc, IH; [reflexivity|exact Hl].
Qed.

Lemma scan_contentFrames ls cs :
  Forall2 contentFrame ls cs -> scan ls = (map Chunk cs, Some (length cs)).
Proof.
  induction 1 as [|l c ls cs Hlc _ IH]; [reflexivity|].
  cbn [scan]. rewrite (contentFrame_step initialLoop l c Hlc), IH.
  reflexivity.
Qed.

Lemma doneMarker_step st l : doneMarker l -> lineStep st l = ([Done], None).
Proof.
  intros [H|H]; unfold lineStep; rewrite H; vm_compute; reflexivity.
Qed.

(** X1.  Once the terminal marker has been read as a line, the run is over:
    the events are the chunks of the content frames before it, then
    [Done], whatever text follows the marker, however the bytes were
    cut into reads and however the body ends, a failing read included. *)
Theorem done_marker_ends_the_stream
  (rs : list (list byte)) (e : Ending)
  (ls : list jstring) (cs : list jstring) (marker rest : jstring) :
  decodeAll TextDecoder.create rs = unlines ls ++ marker ++ nl ++ rest ->
  singleLines ls -> Forall2 contentFrame ls cs ->
  includes nl marker = false -> doneMarker marker ->
  decodeBody (mkBody rs e) = map Chunk cs ++ [Done].
Proof.
  intros Htext Hls Hcs Hm Hd.
  unfold decodeBody; cbn [reads ending].
  rewrite readLoop_ofText by reflexivity.
  cbn [decoder initialLoop]. rewrite Htext.
  unfold ofText, completeLines. cbn [buffer initialLoop app].
  rewrite (split_unlines ls _ Hls), (split_line marker rest Hm).
  rewrite (List.removelast_app ls) by discriminate.
  rewrite scan_app, (scan_contentFrames ls cs Hcs).
  pose proof (split_nonempty 10 rest) as Hne.
  destruct (split 10 rest) as [|r0 rs0]; [congruence|].
  cbn [List.removelast scan]. rewrite (doneMarker_step _ _ Hd).
  reflexivity.
Qed.


Lemma done_marker_ends_the_stream_witness :
  decodeBody
    (mkBody [bytesq "data: {'choices':[{'delta':{'content':'a'}}]}" ++ [Byte.x0a]
             ++ bytesq "data: [DO";
             bytesq "NE]" ++ [Byte.x0a]
             ++ bytesq "data: {'choices':[{'delta':{'content':'late'}}]}" ++ [Byte.x0a]]
       (ReadThrows (ThrownError (js "TypeError") (js "terminated"))))
  = [Chunk (js "a"); Done].
Proof.
  apply (done_marker_ends_the_stream _ _
           [jsq "data: {'choices':[{'delta':{'content':'a'}}]}"] [js "a"]
           (js "data: [DONE]")
           (jsq "data: {'choices':[{'delta':{'content':'late'}}]}" ++ nl)).
  - vm_compute. reflexivity.
  - repeat constructor.
  - constructor; [|constructor].
    exists (jsq "{'choices':[{'delta':{'content':'a'}}]}"). eexists.
    split; [vm_compute; reflexivity|]. split; vm_compute; reflexivity.
  - vm_compute. reflexivity.
  - right. vm_compute. reflexivity.
Defined.

Lemma ofText_initial t e :
  ofText initialLoop t e =
  match scan (completeLines t) with
  | (evs, None) => evs
  | (evs, Some n) => evs ++ atEnding e (mkLoop TextDecoder.create (carry t) t n)
  end.
Proof. reflexivity. Qed.

Lemma completeLines_unlines ls tail :
  singleLines ls -> includes nl tail = false ->
  completeLines (unlines ls ++ tail) = ls /\ carry (unlines ls ++ tail) = tail.
Proof.
  intros Hls Ht. unfold completeLines, carry.
  rewrite (split_unlines ls tail Hls), (split_single tail Ht).
  rewrite List.removelast_app, last_app_nonempty by discriminate.
  cbn [List.removelast List.last]. rewrite app_nil_r. split; reflexivity.
Qed.

(** X2.  A read that fails ends the run with one [Error] after the chunks of
    the complete lines read so far; the partial line held in the carry
    buffer is not decoded.  An abort is reported as such. *)
Theorem failed_read_keeps_chunks_and_drops_partial_line
  (rs : list (list byte)) (err : Thrown)
  (ls : list jstring) (cs : list jstring) (partial : jstring) :
  decodeAll TextDecoder.create rs = unlines ls ++ partial ->
  singleLines ls -> Forall2 contentFrame ls cs ->
  includes nl partial = false ->
  decodeBody (mkBody rs (ReadThrows err))
  = map Chunk cs
    ++ [if isAbortError err then Error (js "Request aborted.") (Some true)
        else Error (js "Streaming error: " ++ errorText err) None].
Proof.
  intros Htext Hls Hcs Hp.
  unfold decodeBody; cbn [reads ending].
  rewrite readLoop_ofText by reflexivity.
  cbn [decoder initialLoop]. rewrite Htext, ofText_initial.
  destruct (completeLines_unlines ls partial Hls Hp) as [-> _].
  rewrite (scan_contentFrames ls cs Hcs). cbn [atEnding]. unfold onStreamError.
  destruct (isAbortError err); reflexivity.
Qed.

Lemma failed_read_keeps_chunks_and_drops_partial_line_witness :
  decodeBody
    (mkBody [bytesq "data: {'choices':[{'delta':{'content':'a'}}]}" ++ [Byte.x0a]
             ++ bytesq "data: {'choices':[{'delta':{'content':'b'}}]}"]
       (ReadThrows (ThrownError (js "AbortError") (js "The operation was aborted"))))
  = [Chunk (js "a"); Error (js "Request aborted.") (Some true)].
Proof.
  etrans;
    [apply (failed_read_keeps_chunks_and_drops_partial_line _ _
              [jsq "data: {'choices':[{'delta':{'content':'a'}}]}"] [js "a"]
              (jsq "data: {'choices':[{'delta':{'content':'b'}}]}"))
    |vm_compute; reflexivity].
  - vm_compute. reflexivity.
  - repeat constructor.
  - constructor; [|constructor].
    exists (jsq "{'choices':[{'delta':{'content':'a'}}]}"). eexists.
    split; [vm_compute; reflexivity|]. split; vm_compute; reflexivity.
  - vm_compute. reflexivity.
Defined.

Lemma onDone_contentFrame d last f n c :
  contentFrame last c -> (n <> 0 \/ f = last) ->
  onDone (mkLoop d last f n) = [Chunk c; Done].
Proof.
  intros (payload & data & Ht & Hp & Hc) Hn. unfold onDone.
  cbn [yieldCount fallbackBuffer buffer].
  assert (Nat.eqb n 0 && startsWith (js "{") (trim f) = false) as ->.
  { destruct Hn as [Hn| ->].
    - destruct n; [congruence|reflexivity].
    - rewrite Ht. apply andb_false_r. }
  rewrite Ht.
  assert (payload <> js "[DONE]") as Hne.
  { intros ->. vm_compute in Hp. discriminate Hp. }
  rewrite !jstring_eqb_false.
  - rewrite startsWith_app.
    change 6%Z with (Z.of_nat (length (js "data: "))).
    rewrite sliceFrom_app, Hp, Hc. reflexivity.
  - intros H. apply (app_inv_head (js "data: ") payload (js "[DONE]")) in H.
    contradiction.
  - discriminate.
Qed.

(** X3.  At the natural end of the body a last frame that has no line feed
    after it is still decoded: its content is the last [Chunk] before
    [Done]. *)
Theorem unterminated_last_frame_is_emitted
  (rs : list (list byte))
  (ls : list jstring) (cs : list jstring) (last c : jstring) :
  decodeAll TextDecoder.create rs = unlines ls ++ last ->
  singleLines ls -> Forall2 contentFrame ls cs ->
  includes nl last = false -> contentFrame last c ->
  decodeBody (mkBody rs EndOfStream) = map Chunk cs ++ [Chunk c; Done].
Proof.
  intros Htext Hls Hcs Hl Hc.
  unfold decodeBody; cbn [reads ending].
  rewrite readLoop_ofText by reflexivity.
  cbn [decoder initialLoop]. rewrite Htext, ofText_initial.
  destruct (completeLines_unlines ls last Hls Hl) as [-> ->].
  rewrite (scan_contentFrames ls cs Hcs). cbn [atEnding]. f_equal.
  apply onDone_contentFrame; [exact Hc|].
  destruct Hcs as [|l0 c0 ls0 cs0 _ _]; [right; reflexivity|left; discriminate].
Qed.

Lemma unterminated_last_frame_is_emitted_witness :
  decodeBody
    (mkBody [bytesq "data: {'choices':[{'delta':{'content':'a'}}]}" ++ [Byte.x0a]
             ++ bytesq "data: {'choices':[{'delta':{'content':'b'}}]}"]
       EndOfStream)
  = [Chunk (js "a"); Chunk (js "b"); Done].
Proof.
  apply (unterminated_last_frame_is_emitted _
           [jsq "data: {'choices':[{'delta':{'content':'a'}}]}"] [js "a"]
           (jsq "data: {'choices':[{'delta':{'content':'b'}}]}") (js "b")).
  - vm_compute. reflexivity.
  - repeat constructor.
  - constructor; [|constructor].
    exists (jsq "{'choices':[{'delta':{'content':'a'}}]}"). eexists.
    split; [vm_compute; reflexivity|]. split; vm_compute; reflexivity.
  - vm_compute. reflexivity.
  - exists (jsq "{'choices':[{'delta':{'content':'b'}}]}"). eexists.
    split; [vm_compute; reflexivity|]. split; vm_compute; reflexivity.
Defined.

Lemma stripTrailingSlash_slash b : stripTrailingSlash (b ++ js "/") = b.
Proof.
  unfold stripTrailingSlash. change (js "/") with [47%Z].
  rewrite rev_app_distr. cbn [rev app]. rewrite Z.eqb_refl. apply rev_involutive.
Qed.

Lemma stripTrailingSlash_other b :
  endsWith (js "/") b = false -> stripTrailingSlash b = b.
Proof.
  unfold endsWith, stripTrailingSlash. change (rev (js "/")) with [47%Z].
  destruct (rev b) as [|c r]; [reflexivity|].
  cbn [startsWith]. rewrite andb_true_r, Z.eqb_sym. intros ->. reflexivity.
Qed.

(** X4.  One slash at the end of the base URL makes no difference: the
    request goes to the same URL, so the run is the same. *)
Theorem trailing_slash_of_base_url_is_ignored
  (Number_toString : jstring -> jstring)
  (baseUrl apiKey model : jstring) (messages : list ChatMessage)
  (opts : option StreamOpenAIChatOpts) (fetch : Request -> FetchOutcome) :
  endsWith (js "/") baseUrl = false ->
  streamOpenAIChat Number_toString (baseUrl ++ js "/") apiKey model messages opts fetch
  = streamOpenAIChat Number_toString baseUrl apiKey model messages opts fetch.
Proof.
  intros H. unfold streamOpenAIChat.
  rewrite stripTrailingSlash_slash, (stripTrailingSlash_other baseUrl H).
  reflexivity.
Qed.

Lemma trailing_slash_of_base_url_is_ignored_witness :
  streamOpenAIChat (fun x => x) (js "https://api.example/v1" ++ js "/") (js "k")
    (js "m") [] None
    (fun r => if jstring_eqb (url r) (js "https://api.example/v1/chat/completions")
              then FetchResolves (okResponse (mkBody [] EndOfStream))
              else FetchThrows (ThrownOther (js "unreachable")))
  = [Done].
Proof.
  rewrite (trailing_slash_of_base_url_is_ignored (fun x => x)
             (js "https://api.example/v1") (js "k") (js "m") [] None _ eq_refl).
  vm_compute. reflexivity.
Defined.

End StreamProofs.

Section LinkProofs.
Import Regex URI Markdown MarkdownFacts.

Lemma escapeChar_cases c :
  (c = 38%Z /\ escapeChar c = [38; 97; 109; 112; 59]%Z)
  \/ (c = 60%Z /\ escapeChar c = [38; 108; 116; 59]%Z)
  \/ (c = 62%Z /\ escapeChar c = [38; 103; 116; 59]%Z)
  \/ (c = 34%Z /\ escapeChar c = [38; 113; 117; 111; 116; 59]%Z)
  \/ (c <> 38%Z /\ escapeChar c = [c]).
Proof.
  unfold escapeChar.
  destruct (Z.eqb_spec c 38); [left; split; [assumption|reflexivity]|].
  destruct (Z.eqb_spec c 60); [right; left; split; [assumption|reflexivity]|].
  destruct (Z.eqb_spec c 62); [right; right; left; split; [assumption|reflexivity]|].
  destruct (Z.eqb_spec c 34);
    [right; right; right; left; split; [assumption|reflexivity]|].
  right; right; right; right. split; [assumption|reflexivity].
Qed.

Lemma escapeChars_injective a : forall b,
  flat_map escapeChar a = flat_map escapeChar b -> a = b.
Proof.
  induction a as [|c a IH]; intros [|d b] H; cbn [flat_map] in H.
  - reflexivity.
  - exfalso.
    destruct (escapeChar_cases d) as [[_ E]|[[_ E]|[[_ E]|[[_ E]|[_ E]]]]];
      rewrite E in H; discriminate H.
  - exfalso.
    destruct (escapeChar_cases c) as [[_ E]|[[_ E]|[[_ E]|[[_ E]|[_ E]]]]];
      rewrite E in H; discriminate H.
  - destruct (escapeChar_cases c) as [[-> E]|[[-> E]|[[-> E]|[[-> E]|[Hc E]]]]];
      destruct (escapeChar_cases d) as [[-> E']|[[-> E']|[[-> E']|[[-> E']|[Hd E']]]]];
      rewrite ?E, ?E' in H; cbn [app] in H;
      first [discriminate H
            | injection H as H; f_equal; apply IH; exact H
            | injection H as H0 H; congruence
            | injection H as H0 H; subst; f_equal; apply IH; exact H ].
Qed.

(** X5.  [escapeHtml] is a map over the characters of its argument: the four
    replacements in sequence never touch the [&] of an entity written by
    an earlier one.  So it distributes over concatenation, its result
    holds no [<], [>] or double quote, and it loses nothing: two texts
    with the same escaped form are the same text. *)
Theorem escapeHtml_maps_each_character (a b : jstring) :
  escapeHtml a = flat_map escapeChar a
  /\ escapeHtml (a ++ b) = escapeHtml a ++ escapeHtml b
  /\ (forall x, In x (escapeHtml a) -> x <> 60%Z /\ x <> 62%Z /\ x <> 34%Z)
  /\ (escapeHtml a = escapeHtml b -> a = b).
Proof.
  split; [apply escapeHtml_chars|]. split; [apply escapeHtml_app|].
  split; [apply escapeHtml_safe|].
  rewrite !escapeHtml_chars. apply escapeChars_injective.
Qed.

Lemma startsWith_src_rc x : startsWith (js "rc/") (js "src/" ++ x) = false.
Proof. reflexivity. Qed.

Lemma startsWith_src_srs x : startsWith (js "srs/") (js "src/" ++ x) = false.
Proof. reflexivity. Qed.

Lemma normalizePath_src x : normalizePath (js "src/" ++ x) = js "src/" ++ x.
Proof.
  unfold normalizePath. rewrite startsWith_src_rc, startsWith_src_srs. reflexivity.
Qed.

(** X6.  [normalizePath] is idempotent, and its result never starts with one
    of the two alias prefixes. *)
Theorem normalizePath_idempotent (p : jstring) :
  normalizePath (normalizePath p) = normalizePath p
  /\ startsWith (js "rc/") (normalizePath p) = false
  /\ startsWith (js "srs/") (normalizePath p) = false.
Proof.
  assert ((normalizePath p = p /\ startsWith (js "rc/") p = false
           /\ startsWith (js "srs/") p = false)
          \/ exists x, normalizePath p = js "src/" ++ x) as [(-> & Hrc & Hsrs)|[x ->]].
  { unfold normalizePath.
    destruct (startsWith (js "rc/") p) eqn:Hrc.
    - right. exists (skipn 3 p). cbv zeta. rewrite startsWith_src_srs. reflexivity.
    - cbv zeta. destruct (startsWith (js "srs/") p) eqn:Hsrs.
      + right. eexists. reflexivity.
      + left. auto. }
  - unfold normalizePath. cbv zeta. rewrite Hrc, Hsrs. auto.
  - rewrite normalizePath_src, startsWith_src_rc, startsWith_src_srs. auto.
Qed.

(** X7.  Growing the allow-list never revokes a link: what a set allows, every
    larger set allows, and so does the absent set. *)
Theorem isAllowedFileLink_monotone
  (pathValue : jstring) (line endLine : option Z) (small large : gset jstring) :
  small ⊆ large ->
  isAllowedFileLink pathValue line endLine (Some small) = true ->
  isAllowedFileLink pathValue line endLine (Some large) = true
  /\ isAllowedFileLink pathValue line endLine None = true.
Proof.
  intros Hsub H. split; [|reflexivity]. revert H. unfold isAllowedFileLink.
  destruct line as [l|]; [|discriminate].
  destruct (l <=? 0)%Z; [discriminate|].
  destruct endLine as [e|]; [destruct (l <=? e)%Z|];
    intros H; apply bool_decide_eq_true in H; apply bool_decide_eq_true;
    apply Hsub, H.
Qed.

Lemma isAllowedFileLink_monotone_witness :
  isAllowedFileLink (js "a.ts") (Some 3%Z) None
    (Some ({[ js "a.ts:3" ]} ∪ {[ js "b.ts:9" ]})) = true.
Proof.
  apply (isAllowedFileLink_monotone (js "a.ts") (Some 3%Z) None {[ js "a.ts:3" ]}).
  - apply union_subseteq_l.
  - vm_compute. reflexivity.
Defined.

(** X8.  [renderer.link] never throws: a path with a lone surrogate, on which
    [encodeURIComponent] alone would throw, reaches it only inside the
    text that [JSON.stringify] has escaped.  The result is the link text
    or an anchor. *)
Theorem link_never_throws
  (allowed : option (gset jstring)) (h : jstring) (title : option jstring)
  (text : jstring) :
  exists t,
    transformLinkHref h ≫= (fun t0 => refineFromText t0 text) = Some t
    /\ (link allowed h title text = Some text
        \/ link allowed h title text = Some (anchor t title text)).
Proof.
  destruct (transformLinkHref_total h) as [t0 Ht0].
  destruct (refineFromText_total t0 text) as (t & Ht & _).
  exists t. unfold link. rewrite Ht0. cbn [mbind option_bind]. rewrite Ht.
  cbn [mbind option_bind]. split; [reflexivity|].
  destruct (path t) as [p|]; [|right; reflexivity].
  destruct (negb _); [left|right]; reflexivity.
Qed.

(** X9.  With an allow-list, a file link that is not degraded to its text has
    a positive line and its key in the list: the range key when the end
    line is not before the line, the line key otherwise. *)
Theorem active_file_link_is_listed
  (links : gset jstring) (h : jstring) (title : option jstring)
  (text : jstring) (t : LinkTransform) (p : jstring) :
  transformLinkHref h ≫= (fun t0 => refineFromText t0 text) = Some t ->
  path t = Some p ->
  link (Some links) h title text <> Some text ->
  exists l,
    line t = Some l /\ (0 < l)%Z
    /\ match endLine t with
       | Some e => if (l <=? e)%Z then rangeKey p l e ∈ links
                   else lineKey p l ∈ links
       | None => lineKey p l ∈ links
       end.
Proof.
  intros Ht Hp Hne. unfold link in Hne.
  destruct (transformLinkHref h) as [t0|]; [|discriminate Ht].
  cbn [mbind option_bind] in Ht, Hne. rewrite Ht in Hne.
  cbn [mbind option_bind] in Hne. rewrite Hp in Hne.
  destruct (isAllowedFileLink p (line t) (endLine t) (Some links)) eqn:Ha;
    [|cbn [negb] in Hne; congruence].
  unfold isAllowedFileLink in Ha.
  destruct (line t) as [l|]; [|discriminate Ha].
  exists l. split; [reflexivity|].
  destruct (Z.leb_spec l 0); [discriminate Ha|]. split; [assumption|].
  destruct (endLine t) as [e|]; [destruct (l <=? e)%Z|];
    apply bool_decide_eq_true in Ha; exact Ha.
Qed.

Lemma active_file_link_is_listed_witness :
  exists l,
    Some 10%Z = Some l /\ (0 < l)%Z /\ rangeKey (js "src/a.ts") l 12 ∈ ({[ js "src/a.ts:10-12" ]} : gset jstring).
Proof.
  destruct (active_file_link_is_listed {[ js "src/a.ts:10-12" ]}
              (js "src/a.ts:10-12") None (js "see")
              (fileLink (js "command:symfocus.openFile?%5B%22src%2Fa.ts%22%2C10%2C1%2C12%5D")
                 (js "src/a.ts") 10 1 (Some 12%Z))
              (js "src/a.ts")) as (l & Hl & Hpos & Hkey).
  - vm_compute. reflexivity.
  - reflexivity.
  - vm_compute. discriminate.
  - exists l. cbn [line endLine fileLink] in Hl, Hkey.
    injection Hl as <-. split; [reflexivity|]. split; [assumption|exact Hkey].
Defined.

End LinkProofs.

Section AllowListProofs.
Import Regex Markdown ExplainCommand.

Lemma normalizeLinkPath_normalizePath p : normalizeLinkPath p = normalizePath p.
Proof. reflexivity. Qed.

Lemma addAllowedLink_subseteq set p l e : set ⊆ addAllowedLink set p l e.
Proof.
  unfold addAllowedLink.
  destruct (_ || _); [reflexivity|]. cbv zeta.
  destruct e as [e|]; [destruct (l <=? e)%Z|]; set_solver.
Qed.

Lemma addReferences_subseteq fuel : forall set bef aft,
  set ⊆ addReferences fuel set bef aft.
Proof.
  induction fuel as [|f IH]; intros set bef aft; cbn [addReferences]; [reflexivity|].
  destruct (search refRe bef aft []) as [m|]; [|reflexivity].
  etrans; [apply addAllowedLink_subseteq|apply IH].
Qed.

Lemma addCallers_subseteq snippets : forall set, set ⊆ addCallers set snippets.
Proof.
  induction snippets as [|[f l] rest IH]; intros set; cbn [addCallers]; [reflexivity|].
  etrans; [apply addAllowedLink_subseteq|apply IH].
Qed.

Lemma addAllowedLink_line set p l e :
  p <> [] -> (0 < l)%Z ->
  lineKey (normalizePath p) l ∈ addAllowedLink set p l e.
Proof.
  intros Hp Hl. unfold addAllowedLink.
  destruct p as [|c p']; [congruence|]. cbn [orb].
  destruct (Z.leb_spec l 0); [lia|]. cbv zeta.
  change (normalizeLinkPath (c :: p')) with (normalizePath (c :: p')).
  unfold lineKey. apply elem_of_union_l, elem_of_singleton. reflexivity.
Qed.

Lemma addAllowedLink_range set p l e :
  p <> [] -> (0 < l)%Z -> (l <= e)%Z ->
  rangeKey (normalizePath p) l e ∈ addAllowedLink set p l (Some e).
Proof.
  intros Hp Hl He. unfold addAllowedLink.
  destruct p as [|c p']; [congruence|]. cbn [orb].
  destruct (Z.leb_spec l 0); [lia|]. cbv zeta.
  destruct (Z.leb_spec l e); [|lia].
  change (normalizeLinkPath (c :: p')) with (normalizePath (c :: p')).
  unfold rangeKey. apply elem_of_union_r, elem_of_union_l, elem_of_singleton.
  reflexivity.
Qed.

(** X10.  The allow-list and the link filter agree on their keys: after
    [addAllowedLink] has registered a location, [isAllowedFileLink]
    accepts the normalized path at that line, alone or with an end line
    before it, and with the registered end line; and the call removes
    nothing from the set. *)
Theorem registered_location_is_allowed
  (set : gset jstring) (pathValue : jstring) (line : Z) (endLine : option Z) :
  pathValue <> [] -> (0 < line)%Z ->
  let set' := addAllowedLink set pathValue line endLine in
  set ⊆ set'
  /\ isAllowedFileLink (normalizePath pathValue) (Some line) None (Some set') = true
  /\ (forall e, (e < line)%Z ->
        isAllowedFileLink (normalizePath pathValue) (Some line) (Some e) (Some set') = true)
  /\ (forall e, endLine = Some e -> (line <= e)%Z ->
        isAllowedFileLink (normalizePath pathValue) (Some line) (Some e) (Some set') = true).
Proof.
  intros Hp Hl set'. split; [apply addAllowedLink_subseteq|].
  pose proof (addAllowedLink_line set pathValue line endLine Hp Hl) as Hk.
  unfold isAllowedFileLink. destruct (Z.leb_spec line 0); [lia|].
  split; [apply bool_decide_eq_true; exact Hk|]. split.
  - intros e He. destruct (Z.leb_spec line e); [lia|].
    apply bool_decide_eq_true; exact Hk.
  - intros e -> He. destruct (Z.leb_spec line e); [|lia].
    apply bool_decide_eq_true.
    exact (addAllowedLink_range set pathValue line e Hp Hl He).
Qed.

Lemma registered_location_is_allowed_witness :
  isAllowedFileLink (js "src/a.ts") (Some 10%Z) (Some 12%Z)
    (Some (addAllowedLink ∅ (js "rc/a.ts") 10 (Some 12%Z))) = true.
Proof.
  destruct (registered_location_is_allowed ∅ (js "rc/a.ts") 10 (Some 12%Z))
    as (_ & _ & _ & H).
  - discriminate.
  - lia.
  - apply (H 12%Z); [reflexivity|lia].
Defined.

(** X12.  The set that the explain command collects always allows the symbol's
    own location (its first line, and its whole span when it has more
    than one line), the definition location and every caller snippet,
    whatever the references summary holds. *)
Theorem collected_links_allow_the_request_locations (input : AllowedLinkInput) :
  let links := Some (collectAllowedLinks input) in
  let first := (Z.of_nat (VSCode.line (VSCode.start (symbolRange input))) + 1)%Z in
  let last := (Z.of_nat (VSCode.line (VSCode.end_ (symbolRange input))) + 1)%Z in
  (relativePath input <> [] ->
     isAllowedFileLink (normalizePath (relativePath input)) (Some first) None links = true
     /\ ((first < last)%Z ->
         isAllowedFileLink (normalizePath (relativePath input)) (Some first) (Some last)
           links = true))
  /\ (forall p l, definitionLocation input = Some (p, l) -> p <> [] -> (0 < l)%Z ->
        isAllowedFileLink (normalizePath p) (Some l) None links = true)
  /\ (forall snippets f l, callerSnippets input = Some snippets -> In (f, l) snippets ->
        f <> [] -> (0 < l)%Z ->
        isAllowedFileLink (normalizePath f) (Some l) None links = true).
Proof.
  intros links first last.
  assert (forall p l, (0 < l)%Z -> lineKey p l ∈ collectAllowedLinks input ->
            isAllowedFileLink p (Some l) None links = true) as Hline.
  { intros p l Hl Hk. unfold isAllowedFileLink, links.
    destruct (Z.leb_spec l 0); [lia|]. apply bool_decide_eq_true; exact Hk. }
  unfold collectAllowedLinks in *. fold first last in Hline |- *.
  set (spanEnd := if (first <? last)%Z then Some last else None) in *.
  set (a1 := addAllowedLink ∅ (relativePath input) first spanEnd) in *.
  set (a2 := match truthy (displayPath input) with
             | Some d =>
                 if negb (jstring_eqb d (relativePath input)) && negb (includes (js ":") d)
                 then addAllowedLink a1 d first spanEnd else a1
             | None => a1 end) in *.
  set (a3 := match definitionLocation input with
             | Some (p, l) => addAllowedLink a2 p l None | None => a2 end) in *.
  set (a4 := match truthy (referencesSummary input) with
             | Some summary => addReferences (length summary) a3 [] summary
             | None => a3 end) in *.
  set (a5 := match callerSnippets input with
             | Some snippets => addCallers a4 snippets | None => a4 end) in *.
  assert (a1 ⊆ a2) as H12.
  { subst a2. destruct (truthy (displayPath input)); [|reflexivity].
    destruct (_ && _); [apply addAllowedLink_subseteq|reflexivity]. }
  assert (a2 ⊆ a3) as H23.
  { subst a3. destruct (definitionLocation input) as [[p l]|];
      [apply addAllowedLink_subseteq|reflexivity]. }
  assert (a3 ⊆ a4) as H34.
  { subst a4. destruct (truthy (referencesSummary input));
      [apply addReferences_subseteq|reflexivity]. }
  assert (a4 ⊆ a5) as H45.
  { subst a5. destruct (callerSnippets input);
      [apply addCallers_subseteq|reflexivity]. }
  assert (0 < first)%Z as Hfirst by (unfold first; lia).
  split; [|split].
  - intros Hp. split.
    + apply Hline; [exact Hfirst|].
      apply H45, H34, H23, H12. subst a1. apply addAllowedLink_line; assumption.
    + intros Hlt. unfold isAllowedFileLink, links. fold a5.
      destruct (Z.leb_spec first 0); [lia|]. destruct (Z.leb_spec first last); [|lia].
      apply bool_decide_eq_true. apply H45, H34, H23, H12. subst a1 spanEnd.
      destruct (Z.ltb_spec first last); [|lia].
      apply addAllowedLink_range; [assumption|exact Hfirst|lia].
  - intros p l Hd Hp Hl. apply Hline; [exact Hl|].
    apply H45, H34. subst a3. rewrite Hd. apply addAllowedLink_line; assumption.
  - intros snippets f l Hs Hin Hf Hl. apply Hline; [exact Hl|].
    subst a5. rewrite Hs. clear -Hin Hf Hl. generalize a4.
    induction snippets as [|[f' l'] rest IH]; intros set; [destruct Hin|].
    cbn [addCallers]. destruct Hin as [[= -> ->]|Hin].
    + apply addCallers_subseteq, addAllowedLink_line; assumption.
    + apply IH, Hin.
Qed.

Lemma collected_links_allow_the_request_locations_witness :
  isAllowedFileLink (js "src/b.ts") (Some 4%Z) None
    (Some (collectAllowedLinks
             (mkInput (js "src/a.ts") None
                (VSCode.mkRange (VSCode.mkPosition 9 0) (VSCode.mkPosition 11 1))
                (Some (js "src/b.ts", 4%Z)) (Some (js "Used in 1 place: src/c.ts:7"))
                (Some [(js "src/d.ts", 3%Z)])))) = true.
Proof.
  destruct (collected_links_allow_the_request_locations
              (mkInput (js "src/a.ts") None
                 (VSCode.mkRange (VSCode.mkPosition 9 0) (VSCode.mkPosition 11 1))
                 (Some (js "src/b.ts", 4%Z)) (Some (js "Used in 1 place: src/c.ts:7"))
                 (Some [(js "src/d.ts", 3%Z)]))) as (_ & H & _).
  apply (H (js "src/b.ts") 4%Z); [reflexivity|discriminate|lia].
Defined.

End AllowListProofs.

Section RegexProofs.
Import Regex RegexFacts.

Lemma runs_consumes p : forall aft min bef bef' aft',
  In (bef', aft') (runs p min bef aft) ->
  exists w, aft = w ++ aft' /\ bef' = rev w ++ bef.
Proof.
  induction aft as [|c aft IH]; intros min bef bef' aft' H; cbn [runs] in H;
    apply in_app_or in H as [H|H].
  - destruct min; [|destruct H]. destruct H as [[= <- <-]|[]]. by exists [].
  - destruct H.
  - destruct min; [|destruct H]. destruct H as [[= <- <-]|[]]. by exists [].
  - destruct (p c); [|destruct H].
    apply IH in H as (w & -> & ->). exists (c :: w). split; [reflexivity|].
    cbn [rev]. rewrite <- app_assoc. reflexivity.
Qed.

Lemma matchAt_consumes r : forall st st',
  In st' (matchAt r st) ->
  exists w, after st = w ++ after st' /\ before st' = rev w ++ before st.
Proof.
  induction r as [|p|a IHa b IHb|a IHa b IHb|min greedy p|a IHa|n a IHa| | |a IHa|p];
    intros st st' H; cbn [matchAt] in H.
  - destruct H as [<-|[]]. by exists [].
  - destruct (after st) as [|c aft] eqn:E; [destruct H|].
    destruct (p c); [|destruct H]. destruct H as [<-|[]].
    exists [c]. split; reflexivity.
  - apply in_flat_map in H as (mid & Hmid & H).
    apply IHa in Hmid as (w1 & E1 & B1). apply IHb in H as (w2 & E2 & B2).
    exists (w1 ++ w2). rewrite E1, E2, B2, B1, rev_app_distr, <- !app_assoc.
    split; reflexivity.
  - apply in_app_or in H as [H|H]; [apply IHa|apply IHb]; exact H.
  - apply in_map_iff in H as ([bef' aft'] & <- & H). cbn [after before].
    apply (runs_consumes p (after st) min (before st)).
    destruct greedy; [apply in_rev|]; exact H.
  - apply in_app_or in H as [H|[<-|[]]]; [apply IHa; exact H|by exists []].
  - apply in_map_iff in H as (x & <- & H). cbn [after before]. apply IHa, H.
  - assert (st' = st) as ->
      by (destruct (before st); [destruct H as [<-|[]]; reflexivity|destruct H]).
    by exists [].
  - assert (st' = st) as ->
      by (destruct (after st); [destruct H as [<-|[]]; reflexivity|destruct H]).
    by exists [].
  - assert (st' = st) as ->
      by (destruct (matchAt a st); [destruct H|destruct H as [<-|[]]; reflexivity]).
    by exists [].
  - assert (st' = st) as ->
      by (destruct (before st) as [|c bef]; [|destruct (p c); [destruct H|]];
          destruct H as [<-|[]]; reflexivity).
    by exists [].
Qed.

Lemma firstn_consumed (w x : jstring) : firstn (length (w ++ x) - length x) (w ++ x) = w.
Proof.
  rewrite length_app, Nat.add_sub, firstn_app, Nat.sub_diag, firstn_all.
  cbn [firstn]. apply app_nil_r.
Qed.

(** What [exec] reports cuts the subject in three. *)
Lemma search_cuts r : forall aft bef skip m,
  search r bef aft skip = Some m ->
  exists s',
    skipped m = rev skip ++ s' /\ aft = s' ++ matched m ++ rest m
    /\ beforeRest m = rev (matched m) ++ rev s' ++ bef.
Proof.
  assert (forall aft bef skip m st tl,
    matchAt r (mkPos bef aft []) = st :: tl ->
    Some (mkMatch (rev skip) (firstn (length aft - length (after st)) aft)
            (captures st) (before st) (after st)) = Some m ->
    exists s',
      skipped m = rev skip ++ s' /\ aft = s' ++ matched m ++ rest m
      /\ beforeRest m = rev (matched m) ++ rev s' ++ bef) as Hhit.
  { intros aft bef skip m st tl Hst [= <-].
    destruct (matchAt_consumes r (mkPos bef aft []) st) as (w & E & B).
    { rewrite Hst. left. reflexivity. }
    cbn [after before] in E, B. exists []. cbn [skipped matched rest beforeRest].
    rewrite E, firstn_consumed, B, app_nil_r. split; [reflexivity|].
    split; reflexivity. }
  induction aft as [|c aft IH]; intros bef skip m H; cbn [search] in H.
  - destruct (matchAt r (mkPos bef [] [])) as [|st tl] eqn:E; [discriminate H|].
    exact (Hhit [] bef skip m st tl E H).
  - destruct (matchAt r (mkPos bef (c :: aft) [])) as [|st tl] eqn:E.
    + apply IH in H as (s' & Hs & Ha & Hb). exists (c :: s').
      cbn [rev] in Hs. rewrite <- app_assoc in Hs. split; [exact Hs|].
      split; [cbn [app]; f_equal; exact Ha|].
      rewrite Hb. cbn [rev]. rewrite <- !app_assoc. reflexivity.
    + exact (Hhit (c :: aft) bef skip m st tl E H).
Qed.


Import Markdown.

Lemma fenceBlocksFrom_concat fuel : forall bef aft,
  concat (fenceBlocksFrom fuel bef aft) = aft.
Proof.
  induction fuel as [|f IH]; intros bef aft; cbn [fenceBlocksFrom].
  - cbn [concat]. apply app_nil_r.
  - destruct (search fenceRe bef aft []) as [m|] eqn:E.
    + apply search_cuts in E as (s' & Hs & Ha & _). cbn [rev app] in Hs.
      cbn [concat]. rewrite IH, Hs. symmetry. exact Ha.
    + cbn [concat]. apply app_nil_r.
Qed.

(** ** Patterns that need a character *)

Lemma mustConsume_lit c : mustConsume c (lit c).
Proof.
  intros st st' w H E. unfold lit in H. cbn [matchAt] in H.
  destruct (after st) as [|x aft] eqn:Ea; [destruct H|].
  destruct (Z.eqb_spec c x) as [<-|]; [|destruct H].
  destruct H as [<-|[]]. cbn [after] in E.
  apply (app_inv_tail aft [c] w) in E. subst w. left. reflexivity.
Qed.

Lemma mustConsume_seq_l c a b : mustConsume c a -> mustConsume c (Seq a b).
Proof.
  intros Ha st st' w H E. cbn [matchAt] in H.
  apply in_flat_map in H as (mid & Hmid & H).
  destruct (matchAt_consumes a st mid Hmid) as (w1 & E1 & _).
  destruct (matchAt_consumes b mid st' H) as (w2 & E2 & _).
  rewrite E1, E2, app_assoc in E. apply app_inv_tail in E. subst w.
  apply in_or_app. left. exact (Ha st mid w1 Hmid E1).
Qed.

Lemma mustConsume_seq_r c a b : mustConsume c b -> mustConsume c (Seq a b).
Proof.
  intros Hb st st' w H E. cbn [matchAt] in H.
  apply in_flat_map in H as (mid & Hmid & H).
  destruct (matchAt_consumes a st mid Hmid) as (w1 & E1 & _).
  destruct (matchAt_consumes b mid st' H) as (w2 & E2 & _).
  rewrite E1, E2, app_assoc in E. apply app_inv_tail in E. subst w.
  apply in_or_app. right. exact (Hb mid st' w2 H E2).
Qed.

Lemma mustConsume_group c n a : mustConsume c a -> mustConsume c (Group n a).
Proof.
  intros Ha st st' w H E. cbn [matchAt] in H.
  apply in_map_iff in H as (x & <- & H). cbn [after] in E.
  exact (Ha st x w H E).
Qed.

Lemma mustConsume_no_match c r bef aft caps :
  mustConsume c r -> ~ In c aft -> matchAt r (mkPos bef aft caps) = [].
Proof.
  intros Hr Hc. destruct (matchAt r (mkPos bef aft caps)) as [|st tl] eqn:E;
    [reflexivity|exfalso].
  destruct (matchAt_consumes r (mkPos bef aft caps) st) as (w & Ew & _).
  { rewrite E. left. reflexivity. }
  apply Hc. cbn [after] in Ew. rewrite Ew. apply in_or_app. left.
  apply (Hr (mkPos bef aft caps) st w); [rewrite E; left; reflexivity|exact Ew].
Qed.

Lemma mustConsume_search c r : mustConsume c r -> forall aft bef skip,
  ~ In c aft -> search r bef aft skip = None.
Proof.
  intros Hr. induction aft as [|x aft IH]; intros bef skip Hc; cbn [search];
    rewrite (mustConsume_no_match c r _ _ _ Hr Hc); [reflexivity|].
  apply IH. intros H. apply Hc. right. exact H.
Qed.

Lemma mustConsume_replaceAll c r f s :
  mustConsume c r -> ~ In c s -> replaceAll r f s = s.
Proof.
  intros Hr Hc. unfold replaceAll. cbn [replaceFrom].
  rewrite (mustConsume_search c r Hr s [] [] Hc). reflexivity.
Qed.

Lemma mustConsume_test c r s : mustConsume c r -> ~ In c s -> test r s = false.
Proof.
  intros Hr Hc. unfold test, exec.
  rewrite (mustConsume_search c r Hr s [] [] Hc). reflexivity.
Qed.

Lemma naked_needs_colon : mustConsume 58 NAKED_PATH_LINE.
Proof.
  unfold NAKED_PATH_LINE. apply mustConsume_seq_r, mustConsume_group.
  unfold cat. cbn [fold_right].
  do 3 apply mustConsume_seq_r. apply mustConsume_seq_l.
  apply mustConsume_seq_l, mustConsume_lit.
Qed.

Lemma backtick_needs_colon : mustConsume 58 BACKTICK_PATH_LINE.
Proof.
  unfold BACKTICK_PATH_LINE, cat. cbn [fold_right].
  do 2 apply mustConsume_seq_r. apply mustConsume_seq_l.
  apply mustConsume_seq_l, mustConsume_lit.
Qed.

Lemma backtick_needs_backtick : mustConsume 96 BACKTICK_PATH_LINE.
Proof.
  unfold BACKTICK_PATH_LINE, cat. cbn [fold_right].
  apply mustConsume_seq_l, mustConsume_lit.
Qed.

Lemma fence_needs_backtick : mustConsume 96 fenceRe.
Proof.
  unfold fenceRe, cat. cbn [fold_right]. apply mustConsume_seq_l, mustConsume_lit.
Qed.

Lemma fenceOpen_needs_backtick : mustConsume 96 fenceOpenRe.
Proof.
  unfold fenceOpenRe, cat. cbn [fold_right].
  apply mustConsume_seq_r, mustConsume_seq_l, mustConsume_lit.
Qed.

(** ** [split] and [join] *)

Lemma includes_single c s : includes [c] s = false -> ~ In c s.
Proof.
  induction s as [|x s IH]; intros H; [intros []|].
  cbn [includes startsWith] in H. apply orb_false_elim in H as [Hx Hs].
  rewrite andb_true_r in Hx. apply Z.eqb_neq in Hx.
  intros [->|Hin]; [congruence|]. exact (IH Hs Hin).
Qed.

Lemma join_split sep s : join [sep] (split sep s) = s.
Proof.
  induction s as [|c s IH]; [reflexivity|]. cbn [split].
  pose proof (split_nonempty sep s) as Hne.
  destruct (Z.eqb_spec c sep) as [->|_].
  - destruct (split sep s) as [|p ps]; [congruence|].
    change (join [sep] ([] :: p :: ps)) with ([] ++ [sep] ++ join [sep] (p :: ps)).
    rewrite IH. reflexivity.
  - destruct (split sep s) as [|p ps]; [congruence|].
    destruct ps as [|q qs].
    + change (join [sep] [c :: p]) with (c :: join [sep] [p]). rewrite IH. reflexivity.
    + change (join [sep] ((c :: p) :: q :: qs))
        with (c :: join [sep] (p :: q :: qs)).
      rewrite IH. reflexivity.
Qed.

Lemma split_parts sep s part x :
  In part (split sep s) -> In x part -> In x s.
Proof.
  revert part. induction s as [|c s IH]; intros part Hp Hx; cbn [split] in Hp.
  - destruct Hp as [<-|[]]. destruct Hx.
  - pose proof (split_nonempty sep s) as Hne.
    destruct (c =? sep)%Z.
    + destruct Hp as [<-|Hp]; [destruct Hx|]. right. exact (IH part Hp Hx).
    + destruct (split sep s) as [|p ps]; [congruence|].
      destruct Hp as [<-|Hp].
      * destruct Hx as [->|Hx]; [left; reflexivity|right].
        apply (IH p); [left; reflexivity|exact Hx].
      * right. apply (IH part); [right; exact Hp|exact Hx].
Qed.

Lemma split_without sep s : ~ In sep s -> split sep s = [s].
Proof.
  induction s as [|c s IH]; intros H; [reflexivity|]. cbn [split].
  destruct (Z.eqb_spec c sep) as [->|_]; [exfalso; apply H; left; reflexivity|].
  rewrite IH; [reflexivity|]. intros Hin. apply H. right. exact Hin.
Qed.

Lemma rewriteEven_without_colon parts : forall even,
  (forall part, In part parts -> ~ In 58%Z part) ->
  rewriteEven even parts = parts.
Proof.
  induction parts as [|p ps IH]; intros even H; [reflexivity|].
  cbn [rewriteEven]. rewrite IH by (intros part Hp; apply H; right; exact Hp).
  destruct even; [|reflexivity].
  rewrite (mustConsume_replaceAll 58 _ _ p naked_needs_colon); [reflexivity|].
  apply H. left. reflexivity.
Qed.

Lemma map_unchanged {A} (f : A -> A) (l : list A) :
  (forall x, In x l -> f x = x) -> map f l = l.
Proof.
  induction l as [|x l IH]; intros H; [reflexivity|]. cbn [map].
  rewrite H by (left; reflexivity). rewrite IH; [reflexivity|].
  intros y Hy. apply H. right. exact Hy.
Qed.

(** X13.  The fence scan cuts the text into pieces that put together give the
    text back, and a text without a colon goes through both passes
    unchanged: ordinary prose is never rewritten. *)
Theorem text_without_colon_is_not_rewritten (md : jstring) :
  concat (fenceBlocks md) = md
  /\ (includes (js ":") md = false ->
      linkifyBacktickPathLine md = md /\ linkifyNakedPathLine md = md).
Proof.
  assert (concat (fenceBlocks md) = md) as Hcat by apply fenceBlocksFrom_concat.
  split; [exact Hcat|]. intros Hc. apply (includes_single 58 md) in Hc.
  assert (forall seg, In seg (fenceBlocks md) -> ~ In 58%Z seg) as Hseg.
  { intros seg Hseg Hin. apply Hc. rewrite <- Hcat. apply in_concat. eauto. }
  unfold linkifyBacktickPathLine, linkifyNakedPathLine. split.
  - rewrite map_unchanged; [exact Hcat|]. intros seg Hin. unfold backtickSegment.
    destruct (test fenceOpenRe seg); [reflexivity|].
    apply (mustConsume_replaceAll 58 _ _ seg backtick_needs_colon), Hseg, Hin.
  - rewrite map_unchanged; [exact Hcat|]. intros seg Hin. unfold nakedSegment.
    destruct (test fenceOpenRe seg); [reflexivity|].
    rewrite rewriteEven_without_colon; [apply join_split|].
    intros part Hp Hx. apply (Hseg seg Hin). exact (split_parts 96 seg part 58%Z Hp Hx).
Qed.

Lemma text_without_colon_is_not_rewritten_witness :
  linkifyNakedPathLine (js "Uses `cfg` in src/b.ts, twice.")
  = js "Uses `cfg` in src/b.ts, twice.".
Proof.
  destruct (text_without_colon_is_not_rewritten (js "Uses `cfg` in src/b.ts, twice."))
    as [_ H].
  destruct H as [_ H]; [vm_compute; reflexivity|exact H].
Defined.


(** ** The match that is tried first *)

Lemma firstMatch_lit c st aft :
  after st = c :: aft ->
  firstMatch (lit c) st (mkPos (c :: before st) aft (captures st)).
Proof.
  intros E. exists []. unfold lit. cbn [matchAt]. rewrite E, Z.eqb_refl. reflexivity.
Qed.

Lemma firstMatch_eps st : firstMatch Eps st st.
Proof. exists []. reflexivity. Qed.

Lemma firstMatch_seq a b st mid y :
  firstMatch a st mid -> firstMatch b mid y -> firstMatch (Seq a b) st y.
Proof.
  intros [tla Ha] [tlb Hb]. unfold firstMatch. cbn [matchAt].
  rewrite Ha. cbn [flat_map]. rewrite Hb. cbn [app]. eauto.
Qed.

Lemma failsOn_lit_seq c x b : c <> x -> failsOn (Seq (lit c) b) x.
Proof.
  intros Hne bef aft caps. unfold lit. cbn [matchAt after].
  destruct (Z.eqb_spec c x); [congruence|]. reflexivity.
Qed.

Lemma runs_stop p bef aft :
  match aft with [] => True | c :: _ => p c = false end ->
  runs p 0 bef aft = [(bef, aft)].
Proof.
  intros H. destruct aft as [|c aft]; cbn [runs app]; [reflexivity|].
  rewrite H. reflexivity.
Qed.

Lemma runs_word p w : forall bef tail,
  forallb p w = true ->
  exists shorter, runs p 0 bef (w ++ tail) = shorter ++ runs p 0 (rev w ++ bef) tail.
Proof.
  induction w as [|c w IH]; intros bef tail H; [by exists []|].
  cbn [forallb] in H. apply andb_prop in H as [Hc Hw].
  destruct (IH (c :: bef) tail Hw) as [shorter E].
  exists ((bef, c :: w ++ tail) :: shorter).
  cbn [app runs Nat.pred]. rewrite Hc, E. cbn [rev]. rewrite <- app_assoc.
  reflexivity.
Qed.

(** A greedy star over a word that is followed by a character outside the
    class: the whole word is tried first. *)
Lemma firstMatch_star_greedy p k st w tail y :
  after st = w ++ tail -> forallb p w = true ->
  match tail with [] => True | c :: _ => p c = false end ->
  firstMatch k (mkPos (rev w ++ before st) tail (captures st)) y ->
  firstMatch (Seq (Rep 0 true p) k) st y.
Proof.
  intros E Hw Htail [tl Hk]. unfold firstMatch. cbn [matchAt]. rewrite E.
  destruct (runs_word p w (before st) tail Hw) as [shorter ->].
  rewrite (runs_stop p _ tail Htail), rev_app_distr. cbn [rev app map flat_map].
  rewrite Hk. cbn [app]. eauto.
Qed.

Lemma flat_map_runs_lazy p (g : jstring * jstring -> list pos) w : forall bef tail,
  forallb p w = true ->
  (forall c b a, In c w -> g (b, c :: a) = []) ->
  flat_map g (runs p 0 bef (w ++ tail)) = flat_map g (runs p 0 (rev w ++ bef) tail).
Proof.
  induction w as [|c w IH]; intros bef tail Hw Hg; [reflexivity|].
  cbn [forallb] in Hw. apply andb_prop in Hw as [Hc Hw].
  cbn [app runs Nat.pred flat_map]. rewrite Hc, Hg by (left; reflexivity).
  cbn [app]. rewrite IH; [|exact Hw|intros; apply Hg; right; assumption].
  cbn [rev]. rewrite <- app_assoc. reflexivity.
Qed.

(** A lazy star over a text on whose characters the rest of the pattern
    fails: the first match takes the whole text. *)
Lemma firstMatch_star_lazy p k st w tail y :
  after st = w ++ tail -> forallb p w = true ->
  (forall c, In c w -> failsOn k c) ->
  firstMatch k (mkPos (rev w ++ before st) tail (captures st)) y ->
  firstMatch (Seq (Rep 0 false p) k) st y.
Proof.
  intros E Hw Hfail [tl Hk]. unfold firstMatch. cbn [matchAt]. rewrite E.
  rewrite flat_map_concat_map, map_map, <- flat_map_concat_map.
  rewrite (flat_map_runs_lazy p _ w (before st) tail Hw).
  - destruct tail as [|c tail]; cbn [runs app flat_map]; rewrite Hk; cbn [app]; eauto.
  - intros c b a Hc. apply Hfail, Hc.
Qed.

Lemma search_skip r pre : forall bef aft skip,
  (forall c, In c pre -> failsOn r c) ->
  search r bef (pre ++ aft) skip = search r (rev pre ++ bef) aft (rev pre ++ skip).
Proof.
  induction pre as [|c pre IH]; intros bef aft skip H; [reflexivity|].
  cbn [app search]. rewrite (H c) by (left; reflexivity).
  rewrite IH by (intros; apply H; right; assumption).
  cbn [rev]. rewrite <- !app_assoc. reflexivity.
Qed.

Lemma search_first r bef aft skip y :
  firstMatch r (mkPos bef aft []) y ->
  search r bef aft skip
  = Some (mkMatch (rev skip) (firstn (length aft - length (after y)) aft)
            (captures y) (before y) (after y)).
Proof. intros [tl H]. destruct aft; cbn [search]; rewrite H; reflexivity. Qed.


Lemma firstMatch_bol st : before st = [] -> firstMatch Bol st st.
Proof. intros E. exists []. cbn [matchAt]. rewrite E. reflexivity. Qed.

Lemma forallb_isAny w : forallb isAny w = true.
Proof. induction w as [|c w IH]; [reflexivity|exact IH]. Qed.

Lemma fence_first bef lang body post :
  forallb isWord lang = true -> ~ In 96%Z body ->
  exists y,
    firstMatch fenceRe
      (mkPos bef ([96; 96; 96]%Z ++ lang ++ [10%Z] ++ body ++ [96; 96; 96]%Z ++ post) []) y
    /\ after y = post.
Proof.
  intros Hlang Hbody. eexists. split.
  - unfold fenceRe, cat, star. cbn [fold_right].
    eapply firstMatch_seq; [apply firstMatch_lit; reflexivity|].
    eapply firstMatch_seq; [apply firstMatch_lit; reflexivity|].
    eapply firstMatch_seq; [apply firstMatch_lit; reflexivity|].
    eapply (firstMatch_star_greedy isWord _ _ lang ([10%Z] ++ body ++ [96; 96; 96]%Z ++ post));
      [reflexivity|exact Hlang|reflexivity|].
    eapply firstMatch_seq; [apply firstMatch_lit; reflexivity|].
    eapply (firstMatch_star_lazy isAny _ _ body ([96; 96; 96]%Z ++ post));
      [reflexivity|apply forallb_isAny| |].
    + intros c Hc. apply failsOn_lit_seq. intros <-. exact (Hbody Hc).
    + eapply firstMatch_seq; [apply firstMatch_lit; reflexivity|].
      eapply firstMatch_seq; [apply firstMatch_lit; reflexivity|].
      eapply firstMatch_seq; [apply firstMatch_lit; reflexivity|].
      apply firstMatch_eps.
  - reflexivity.
Qed.

Lemma fenceOpen_test lang tail :
  forallb isWord lang = true ->
  test fenceOpenRe ([96; 96; 96]%Z ++ lang ++ [10%Z] ++ tail) = true.
Proof.
  intros Hlang. unfold test, exec. erewrite search_first; [reflexivity|].
  unfold fenceOpenRe, cat, star. cbn [fold_right].
  eapply firstMatch_seq; [apply firstMatch_bol; reflexivity|].
  eapply firstMatch_seq; [apply firstMatch_lit; reflexivity|].
  eapply firstMatch_seq; [apply firstMatch_lit; reflexivity|].
  eapply firstMatch_seq; [apply firstMatch_lit; reflexivity|].
  eapply (firstMatch_star_greedy isWord _ _ lang ([10%Z] ++ tail));
    [reflexivity|exact Hlang|reflexivity|].
  eapply firstMatch_seq; [apply firstMatch_lit; reflexivity|].
  apply firstMatch_eps.
Qed.

Lemma fenceBlocksFrom_one fuel bef pre lang body post :
  ~ In 96%Z pre -> forallb isWord lang = true -> ~ In 96%Z body -> ~ In 96%Z post ->
  fenceBlocksFrom (S (S fuel)) bef
    (pre ++ ([96; 96; 96]%Z ++ lang ++ [10%Z] ++ body ++ [96; 96; 96]%Z) ++ post)
  = [pre; [96; 96; 96]%Z ++ lang ++ [10%Z] ++ body ++ [96; 96; 96]%Z; post].
Proof.
  intros Hpre Hlang Hbody Hpost.
  cbn [fenceBlocksFrom]. rewrite search_skip.
  2:{ intros c Hc. unfold fenceRe, cat. cbn [fold_right].
      apply failsOn_lit_seq. intros <-. exact (Hpre Hc). }
  destruct (fence_first (rev pre ++ bef) lang body post Hlang Hbody) as (y & Hy & Hafter).
  set (fence := [96; 96; 96]%Z ++ lang ++ [10%Z] ++ body ++ [96; 96; 96]%Z).
  assert (fence ++ post
          = [96; 96; 96]%Z ++ lang ++ [10%Z] ++ body ++ [96; 96; 96]%Z ++ post) as E.
  { unfold fence. rewrite <- !app_assoc. reflexivity. }
  rewrite E, (search_first _ _ _ _ y Hy), Hafter, <- E, firstn_consumed.
  cbn [skipped matched rest beforeRest].
  rewrite (mustConsume_search 96 fenceRe fence_needs_backtick post _ _ Hpost).
  rewrite app_nil_r, rev_involutive. reflexivity.
Qed.

(** X14.  A fenced block whose info string is made of word characters is left as
    it is by both passes, while the text before and after it is rewritten
    by the second pass.  The block and the text around it hold no other
    back-tick. *)
Theorem fenced_block_with_word_info_string_is_preserved
  (pre lang body post : jstring) :
  includes (js "`") pre = false -> includes (js "`") body = false ->
  includes (js "`") post = false -> forallb isWord lang = true ->
  let fence := js "```" ++ lang ++ nl ++ body ++ js "```" in
  let md := pre ++ fence ++ post in
  let outside := replaceAll NAKED_PATH_LINE nakedLink in
  fenceBlocks md = [pre; fence; post]
  /\ linkifyBacktickPathLine md = md
  /\ linkifyNakedPathLine (linkifyBacktickPathLine md)
     = outside pre ++ fence ++ outside post.
Proof.
  intros Hpre Hbody Hpost Hlang fence md outside.
  apply (includes_single 96) in Hpre, Hbody, Hpost.
  assert (fenceBlocks md = [pre; fence; post]) as Hblocks.
  { unfold fenceBlocks, md.
    assert (exists k, length (pre ++ fence ++ post) = S (S k)) as [k ->].
    { rewrite !length_app. unfold fence. change (js "```") with [96; 96; 96]%Z.
      cbn [length app]. exists (length pre + S (length (lang ++ nl ++ body ++ [96; 96; 96]%Z) + length post)). lia. }
    rewrite (app_assoc pre).
    rewrite <- (app_assoc pre fence post).
    exact (fenceBlocksFrom_one k [] pre lang body post Hpre Hlang Hbody Hpost). }
  assert (test fenceOpenRe fence = true) as Hfence.
  { exact (fenceOpen_test lang (body ++ [96; 96; 96]%Z) Hlang). }
  assert (forall x, ~ In 96%Z x -> backtickSegment x = x) as Hb.
  { intros x Hx. unfold backtickSegment. destruct (test fenceOpenRe x); [reflexivity|].
    exact (mustConsume_replaceAll 96 _ _ x backtick_needs_backtick Hx). }
  assert (forall x, ~ In 96%Z x -> nakedSegment x = outside x) as Hn.
  { intros x Hx. unfold nakedSegment.
    rewrite (mustConsume_test 96 _ x fenceOpen_needs_backtick Hx).
    rewrite (split_without 96 x Hx). reflexivity. }
  assert (linkifyBacktickPathLine md = md) as Hback.
  { unfold linkifyBacktickPathLine. rewrite Hblocks. cbn [map concat].
    rewrite (Hb pre Hpre), (Hb post Hpost). unfold backtickSegment at 1.
    rewrite Hfence, app_nil_r. reflexivity. }
  split; [exact Hblocks|]. split; [exact Hback|].
  rewrite Hback. unfold linkifyNakedPathLine. rewrite Hblocks. cbn [map concat].
  rewrite (Hn pre Hpre), (Hn post Hpost). unfold nakedSegment at 1.
  rewrite Hfence, app_nil_r. reflexivity.
Qed.

Lemma fenced_block_with_word_info_string_is_preserved_witness :
  linkifyNakedPathLine
    (linkifyBacktickPathLine
       ((js "See src/b.ts:7" ++ nl) ++ (js "```" ++ js "ts" ++ nl ++ (js "src/b.ts:7" ++ nl) ++ js "```") ++ []))
  = (js "See [src/b.ts:7](src/b.ts:7)" ++ nl)
    ++ (js "```" ++ js "ts" ++ nl ++ (js "src/b.ts:7" ++ nl) ++ js "```") ++ [].
Proof.
  etrans;
    [apply (fenced_block_with_word_info_string_is_preserved
              (js "See src/b.ts:7" ++ nl) (js "ts") (js "src/b.ts:7" ++ nl) []);
     vm_compute; reflexivity
    |vm_compute; reflexivity].
Defined.

End RegexProofs.

Section OpenFileProofs.
Import OpenFileCommand.



(** X18.  A line number and a column number that exist in the document select
    exactly that place, counted from zero: the one-based numbers of a
    link become the zero-based position of the editor. *)
Theorem one_based_line_and_column_select_that_place
  (l c : Z) (endLine : Arg) (doc : list jstring) (text : jstring) :
  (1 <= l)%Z -> (1 <= c)%Z ->
  nth_error doc (Z.to_nat (l - 1)) = Some text ->
  (c - 1 <= Z.of_nat (length text))%Z ->
  toNumber endLine = None ->
  buildSelection (ArgNumber l) (ArgNumber c) endLine doc
  = Some (mkSelection (l - 1) (c - 1) (l - 1) (c - 1)).
Proof.
  intros Hl Hc Hnth Hlen Hend. unfold buildSelection. rewrite Hend.
  cbn [toNumber zeroBased zeroBasedOpt].
  destruct (Z.leb_spec 1 l); [|lia]. destruct (Z.leb_spec 1 c); [|lia].
  assert (Z.to_nat (l - 1) < length doc)%nat as Hlt
    by (apply nth_error_Some; congruence).
  destruct (Z.eqb_spec (Z.of_nat (length doc)) 0); [lia|].
  replace (Z.max 0 (Z.min (l - 1) (Z.of_nat (length doc) - 1))) with (l - 1)%Z by lia.
  unfold lineLength. destruct (Z.ltb_spec (l - 1) 0); [lia|].
  rewrite Hnth. cbn [option_map mbind option_bind].
  replace (Z.max 0 (Z.min (c - 1) (Z.of_nat (length text)))) with (c - 1)%Z by lia.
  reflexivity.
Qed.

Lemma one_based_line_and_column_select_that_place_witness :
  buildSelection (ArgNumber 2) (ArgNumber 3) ArgOther [js "first"; js "second"]
  = Some (mkSelection 1 2 1 2).
Proof.
  apply (one_based_line_and_column_select_that_place 2 3 ArgOther
           [js "first"; js "second"] (js "second")); [lia|lia|reflexivity| |reflexivity].
  vm_compute. discriminate.
Defined.

(** X19.  A link to a range of lines that exist in the document selects the
    whole lines, from the start of the first to the end of the last; the
    column of the link is not used. *)
Theorem line_range_selects_whole_lines
  (l e : Z) (col : Arg) (doc : list jstring) (text : jstring) :
  (1 <= l <= e)%Z ->
  nth_error doc (Z.to_nat (e - 1)) = Some text ->
  buildSelection (ArgNumber l) col (ArgNumber e) doc
  = Some (mkSelection (l - 1) 0 (e - 1) (Z.of_nat (length text))).
Proof.
  intros Hle Hnth. unfold buildSelection.
  cbn [toNumber zeroBased zeroBasedOpt].
  destruct (Z.leb_spec 1 l); [|lia]. destruct (Z.leb_spec 1 e); [|lia].
  assert (Z.to_nat (e - 1) < length doc)%nat as Hlt
    by (apply nth_error_Some; congruence).
  destruct (Z.eqb_spec (Z.of_nat (length doc)) 0); [lia|].
  destruct (Z.leb_spec (l - 1) (e - 1)); [|lia].
  replace (Z.max 0 (Z.min (l - 1) (Z.of_nat (length doc) - 1))) with (l - 1)%Z by lia.
  replace (Z.max 0 (Z.min (e - 1) (Z.of_nat (length doc) - 1))) with (e - 1)%Z by lia.
  replace (Z.min (l - 1) (e - 1)) with (l - 1)%Z by lia.
  replace (Z.max (l - 1) (e - 1)) with (e - 1)%Z by lia.
  unfold lineLength. destruct (Z.ltb_spec (e - 1) 0); [lia|].
  rewrite Hnth. reflexivity.
Qed.

Lemma line_range_selects_whole_lines_witness :
  buildSelection (ArgNumber 1) (ArgNumber 4) (ArgNumber 2) [js "first"; js "second"]
  = Some (mkSelection 0 0 1 6).
Proof.
  apply (line_range_selects_whole_lines 1 2 (ArgNumber 4)
           [js "first"; js "second"] (js "second")); [lia|reflexivity].
Defined.

End OpenFileProofs.

Section SymbolProofs.
Import VSCode SymbolResolver.

Lemma findInDocumentSymbols_children position parentName best s :
  visit position parentName best s =
  if negb (contains (dsRange s) position) then best
  else match findInDocumentSymbols (dsChildren s) position (Some (dsName s)) with
       | Some f => Some f
       | None => Some (mkFound s parentName)
       end.
Proof.
  destruct s as [name range children]. cbn [visit dsRange dsChildren dsName].
  destruct (negb (contains range position)); [reflexivity|].
  unfold findInDocumentSymbols.
  assert (forall l b,
    (fix loop (l : list DocumentSymbol) (b : option Found) : option Found :=
       match l with
       | [] => b
       | c :: l' => loop l' (visit position (Some name) b c)
       end) l b = fold_left (visit position (Some name)) l b) as ->; [|reflexivity].
  induction l as [|c l IH]; intros b; [reflexivity|].
  cbn [fold_left]. apply IH.
Qed.

(** Induction on a tree of document symbols. *)
Lemma DocumentSymbol_forest_ind (P : list DocumentSymbol -> Prop) :
  P [] ->
  (forall s l, P (dsChildren s) -> P l -> P (s :: l)) ->
  forall l, P l.
Proof.
  intros Hnil Hcons.
  refine (fix go (l : list DocumentSymbol) : P l :=
            match l with
            | [] => Hnil
            | s :: l' => Hcons s l' _ (go l')
            end).
  destruct s as [n r c]. cbn [dsChildren].
  induction c as [|c0 c' IHc]; [exact Hnil|].
  apply Hcons; [|exact IHc].
  exact ((fix tree (s : DocumentSymbol) : P (dsChildren s) :=
           match s with
           | mkDocumentSymbol _ _ cs =>
               (fix forest (cs : list DocumentSymbol) : P cs :=
                  match cs with
                  | [] => Hnil
                  | x :: cs' => Hcons x cs' (tree x) (forest cs')
                  end) cs
           end) c0).
Qed.

Lemma fold_visit_skip position parent l b :
  noneContains position l -> fold_left (visit position parent) l b = b.
Proof.
  induction 1 as [|s l Hs _ IH] in b |- *; [reflexivity|].
  cbn [fold_left]. rewrite findInDocumentSymbols_children, Hs. exact (IH b).
Qed.

Lemma fold_visit_split position parent l b :
  (noneContains position l /\ fold_left (visit position parent) l b = b)
  \/ exists l1 s l2,
       l = l1 ++ s :: l2 /\ contains (dsRange s) position = true
       /\ noneContains position l2
       /\ fold_left (visit position parent) l b = visit position parent None s.
Proof.
  induction l as [|s l IH] in b |- *; [left; split; [constructor|reflexivity]|].
  cbn [fold_left].
  destruct (IH (visit position parent b s)) as [[Hn E]|(l1 & s' & l2 & -> & Hc & Hn & E)].
  - destruct (contains (dsRange s) position) eqn:Hs.
    + right. exists [], s, l. split_and!; [reflexivity|exact Hs|exact Hn|].
      rewrite E, !findInDocumentSymbols_children, Hs. reflexivity.
    + left. split; [constructor; assumption|].
      rewrite E, findInDocumentSymbols_children, Hs. reflexivity.
  - right. exists (s :: l1), s', l2. split_and!; [reflexivity|exact Hc|exact Hn|exact E].
Qed.

Lemma reaches_from_children position parentName symbols :
  Forall (fun s =>
    match findInDocumentSymbols (dsChildren s) position (Some (dsName s)) with
    | Some f => reaches position (Some (dsName s)) (dsChildren s) f
    | None => noneContains position (dsChildren s)
    end) symbols ->
  match findInDocumentSymbols symbols position parentName with
  | Some f => reaches position parentName symbols f
  | None => noneContains position symbols
  end.
Proof.
  intros Hall. unfold findInDocumentSymbols.
  destruct (fold_visit_split position parentName symbols None)
    as [[Hn E]|(l1 & s & l2 & El & Hc & Hn & E)].
  - rewrite E. exact Hn.
  - rewrite E, findInDocumentSymbols_children, Hc. cbn [negb].
    subst symbols. apply Forall_app in Hall as [_ Hall].
    apply Forall_cons in Hall as [Hs _].
    destruct (findInDocumentSymbols (dsChildren s) position (Some (dsName s))) as [f|].
    + apply reaches_below; assumption.
    + apply reaches_here; assumption.
Qed.

Lemma reaches_everywhere position symbols :
  Forall (fun s => forall parentName,
    match findInDocumentSymbols (dsChildren s) position parentName with
    | Some f => reaches position parentName (dsChildren s) f
    | None => noneContains position (dsChildren s)
    end) symbols.
Proof.
  induction symbols as [|s0 l0 IHc IHl] using DocumentSymbol_forest_ind;
    [constructor|].
  constructor; [|exact IHl].
  intros parentName. apply reaches_from_children.
  eapply Forall_impl; [exact IHc|]. intros s Hs. apply Hs.
Qed.

Lemma findInDocumentSymbols_reaches symbols position parentName :
  match findInDocumentSymbols symbols position parentName with
  | Some f => reaches position parentName symbols f
  | None => noneContains position symbols
  end.
Proof.
  apply reaches_from_children.
  eapply Forall_impl; [apply reaches_everywhere|]. intros s Hs. apply Hs.
Qed.

Lemma reaches_contains position parent symbols f :
  reaches position parent symbols f ->
  contains (dsRange (symbol f)) position = true
  /\ noneContains position (dsChildren (symbol f)).
Proof. induction 1; [split; assumption|assumption]. Qed.

Lemma reaches_container position parent symbols f :
  reaches position parent symbols f ->
  (In (symbol f) symbols /\ containerName f = parent)
  \/ exists p, contains (dsRange p) position = true
              /\ In (symbol f) (dsChildren p)
              /\ containerName f = Some (dsName p).
Proof.
  induction 1 as [parent l1 s l2 Hc Hn Hk|parent l1 p l2 f Hc Hn Hr IH].
  - left. split; [apply in_or_app; right; left; reflexivity|reflexivity].
  - right. destruct IH as [[Hin E]|IH]; [|exact IH].
    exists p. split_and!; assumption.
Qed.

(** X20.  [findInDocumentSymbols] finds a symbol exactly when some symbol of
    the list contains the position.  The symbol it finds contains the
    position and none of its children does, and the container name it
    reports is the name of the symbol whose child it is (the given
    parent name for a symbol of the list itself). *)
Theorem findInDocumentSymbols_finds_the_innermost_symbol
  (symbols : list DocumentSymbol) (position : Position)
  (parentName : option jstring) :
  match findInDocumentSymbols symbols position parentName with
  | None => forall s, In s symbols -> contains (dsRange s) position = false
  | Some f =>
      (exists s, In s symbols /\ contains (dsRange s) position = true)
      /\ contains (dsRange (symbol f)) position = true
      /\ (forall c, In c (dsChildren (symbol f)) ->
                    contains (dsRange c) position = false)
      /\ ((In (symbol f) symbols /\ containerName f = parentName)
          \/ exists p, contains (dsRange p) position = true
                      /\ In (symbol f) (dsChildren p)
                      /\ containerName f = Some (dsName p))
  end.
Proof.
  pose proof (findInDocumentSymbols_reaches symbols position parentName) as H.
  destruct (findInDocumentSymbols symbols position parentName) as [f|].
  - destruct (reaches_contains _ _ _ _ H) as [Hc Hk].
    split_and!.
    + destruct H as [parent l1 s l2 Hs _ _|parent l1 p l2 f Hp _ _].
      * exists s. split; [apply in_or_app; right; left; reflexivity|exact Hs].
      * exists p. split; [apply in_or_app; right; left; reflexivity|exact Hp].
    + exact Hc.
    + intros c Hin. unfold noneContains in Hk.
      rewrite List.Forall_forall in Hk. exact (Hk c Hin).
    + exact (reaches_container _ _ _ _ H).
  - intros s Hin. unfold noneContains in H.
    rewrite List.Forall_forall in H. exact (H s Hin).
Qed.

(** X21.  Where several symbols of one list contain the position, the last of
    them is searched: the symbols before it do not change the result. *)
Theorem findInDocumentSymbols_takes_the_last_containing_symbol
  (l1 l2 : list DocumentSymbol) (s : DocumentSymbol)
  (position : Position) (parentName : option jstring) :
  contains (dsRange s) position = true ->
  (forall x, In x l2 -> contains (dsRange x) position = false) ->
  findInDocumentSymbols (l1 ++ s :: l2) position parentName
  = findInDocumentSymbols [s] position parentName.
Proof.
  intros Hc Hn. unfold findInDocumentSymbols.
  rewrite fold_left_app. cbn [fold_left].
  rewrite fold_visit_skip by (apply List.Forall_forall; exact Hn).
  rewrite !findInDocumentSymbols_children, Hc. reflexivity.
Qed.

Lemma findInDocumentSymbols_takes_the_last_containing_symbol_witness :
  let inner := mkDocumentSymbol (js "f") (mkRange (mkPosition 1 0) (mkPosition 3 0)) [] in
  let a := mkDocumentSymbol (js "A") (mkRange (mkPosition 0 0) (mkPosition 9 0)) [inner] in
  let b := mkDocumentSymbol (js "B") (mkRange (mkPosition 2 0) (mkPosition 5 0)) [] in
  let c := mkDocumentSymbol (js "C") (mkRange (mkPosition 7 0) (mkPosition 8 0)) [] in
  findInDocumentSymbols ([a] ++ b :: [c]) (mkPosition 2 4) None
  = Some (mkFound b None).
Proof.
  intros inner a b c.
  etrans; [apply (findInDocumentSymbols_takes_the_last_containing_symbol
                    [a] [c] b (mkPosition 2 4) None)|].
  - reflexivity.
  - intros x [<-|[]]. reflexivity.
  - reflexivity.
Defined.

Lemma fold_consider position infos best bestSpan :
  (forall b, best = Some b -> bestSpan = span b) ->
  match fst (fold_left (consider position) infos (best, bestSpan)) with
  | None => best = None
            /\ Forall (fun s => contains (siRange s) position = false) infos
  | Some r =>
      (best = Some r \/ (In r infos /\ contains (siRange r) position = true))
      /\ (forall b, best = Some b -> (span r <= span b)%Z)
      /\ Forall (fun s => contains (siRange s) position = true ->
                          (span r <= span s)%Z) infos
  end.
Proof.
  induction infos as [|s l IH] in best, bestSpan |- *; intros Hst.
  - cbn [fold_left fst]. destruct best as [b|].
    + split_and!; [left; reflexivity| intros b' [= <-]; lia | constructor].
    + split; [reflexivity|constructor].
  - cbn [fold_left]. unfold consider at 2.
    destruct (contains (siRange s) position) eqn:Hs; cbn [negb].
    + destruct best as [b0|].
      * pose proof (Hst b0 eq_refl) as ->.
        destruct (Z.ltb_spec (span s) (span b0)).
        -- specialize (IH (Some s) (span s)).
           destruct (fst (fold_left (consider position) l (Some s, span s))) as [r|].
           ++ destruct IH as (Hin & Hle & Hall); [intros b [= <-]; reflexivity|].
              specialize (Hle s eq_refl).
              split_and!.
              ** right. destruct Hin as [[= <-]|[Hin Hc]];
                   [split; [left; reflexivity|exact Hs]|split; [right; exact Hin|exact Hc]].
              ** intros b [= <-]. lia.
              ** constructor; [intros _; exact Hle|exact Hall].
           ++ destruct IH as [Hn _]; [intros b [= <-]; reflexivity|]. discriminate Hn.
        -- specialize (IH (Some b0) (span b0)).
           destruct (fst (fold_left (consider position) l (Some b0, span b0))) as [r|].
           ++ destruct IH as (Hin & Hle & Hall); [intros b [= <-]; reflexivity|].
              specialize (Hle b0 eq_refl).
              split_and!.
              ** destruct Hin as [Hin|[Hin Hc]];
                   [left; exact Hin|right; split; [right; exact Hin|exact Hc]].
              ** intros b [= <-]. exact Hle.
              ** constructor; [intros _; lia|exact Hall].
           ++ destruct IH as [Hn _]; [intros b [= <-]; reflexivity|]. discriminate Hn.
      * specialize (IH (Some s) (span s)).
        destruct (fst (fold_left (consider position) l (Some s, span s))) as [r|].
        -- destruct IH as (Hin & Hle & Hall); [intros b [= <-]; reflexivity|].
           specialize (Hle s eq_refl).
           split_and!.
           ** right. destruct Hin as [[= <-]|[Hin Hc]];
                [split; [left; reflexivity|exact Hs]|split; [right; exact Hin|exact Hc]].
           ** intros b [=].
           ** constructor; [intros _; exact Hle|exact Hall].
        -- destruct IH as [Hn _]; [intros b [= <-]; reflexivity|]. discriminate Hn.
    + specialize (IH best bestSpan Hst).
      destruct (fst (fold_left (consider position) l (best, bestSpan))) as [r|].
      * destruct IH as (Hin & Hle & Hall). split_and!.
        -- destruct Hin as [Hin|[Hin Hc]];
             [left; exact Hin|right; split; [right; exact Hin|exact Hc]].
        -- exact Hle.
        -- constructor; [intros Hc; congruence|exact Hall].
      * destruct IH as [Hn Hall]. split; [exact Hn|constructor; assumption].
Qed.

(** X22.  [findInSymbolInformation] finds a symbol exactly when some symbol of
    the list contains the position.  The symbol it finds is one of the
    list, contains the position, and spans no more lines than any other
    symbol of the list that contains the position. *)
Theorem findInSymbolInformation_finds_a_smallest_symbol
  (infos : list SymbolInformation) (position : Position) :
  match findInSymbolInformation infos position with
  | None => forall s, In s infos -> contains (siRange s) position = false
  | Some r =>
      In r infos
      /\ contains (siRange r) position = true
      /\ forall s, In s infos -> contains (siRange s) position = true ->
                   (span r <= span s)%Z
  end.
Proof.
  unfold findInSymbolInformation.
  pose proof (fold_consider position infos None 0%Z) as H.
  destruct (fst (fold_left (consider position) infos (None, 0%Z))) as [r|].
  - destruct H as (Hin & _ & Hall); [intros b [=]|].
    destruct Hin as [[=]|[Hin Hc]].
    split_and!; [exact Hin|exact Hc|].
    rewrite List.Forall_forall in Hall. exact Hall.
  - destruct H as [_ Hall]; [intros b [=]|].
    rewrite List.Forall_forall in Hall. exact Hall.
Qed.

End SymbolProofs.

Section ConfigProofs.
Import Config.

Lemma trimStart_head s :
  trimStart s = [] \/ exists c r, trimStart s = c :: r /\ isWhiteSpace c = false.
Proof.
  induction s as [|c s IH]; [left; reflexivity|].
  cbn [trimStart]. destruct (isWhiteSpace c) eqn:E; [exact IH|].
  right. exists c, s. split; [reflexivity|exact E].
Qed.

Lemma trimStart_fixed c r :
  isWhiteSpace c = false -> trimStart (c :: r) = c :: r.
Proof. intros E. cbn [trimStart]. rewrite E. reflexivity. Qed.

Lemma trimStart_idempotent s : trimStart (trimStart s) = trimStart s.
Proof.
  destruct (trimStart_head s) as [->|(c & r & -> & E)]; [reflexivity|].
  apply trimStart_fixed, E.
Qed.

Lemma trim_shape s :
  trim s = [] \/ tidy (trim s).
Proof.
  unfold trim, trimEnd.
  destruct (trimStart_head s) as [->|(c & r & -> & E)]; [left; reflexivity|].
  right. change (rev (c :: r)) with (rev r ++ [c]).
  destruct (trimStart_head (rev r ++ [c])) as [E0|(d & q & Eq & Ed)];
    destruct (trimStart_snoc (rev r) c E) as (l' & E').
  - rewrite E' in E0. destruct l'; discriminate.
  - exists c, (rev l'). split_and!.
    + rewrite E', rev_app_distr. reflexivity.
    + exact E.
    + rewrite Eq. change (rev (d :: q)) with (rev q ++ [d]).
      rewrite last_last. exact Ed.
Qed.

Lemma trim_idempotent s : trim (trim s) = trim s.
Proof.
  unfold trim at 1.
  assert (trimStart (trim s) = trim s) as ->.
  { destruct (trim_shape s) as [->|(c & r & -> & E & _)]; [reflexivity|].
    apply trimStart_fixed, E. }
  unfold trim, trimEnd. rewrite rev_involutive, trimStart_idempotent. reflexivity.
Qed.

Lemma blank_trimmed v :
  blank v = false -> tidy (trimmed v) /\ blank (Some (trimmed v)) = false
                     /\ trimmed (Some (trimmed v)) = trimmed v.
Proof.
  destruct v as [s|]; [|discriminate]. cbn [blank trimmed]. intros Hb.
  rewrite trim_idempotent. split_and!; [|exact Hb|reflexivity].
  destruct (trim_shape s) as [E|Ht]; [rewrite E in Hb; discriminate|exact Ht].
Qed.

Lemma validateApiConfig_cases c :
  validateApiConfig c =
  if blank (baseUrl c) || blank (apiKey c) || blank (model c)
  then Missing ((if blank (baseUrl c) then [js "Endpoint (base URL)"] else [])
                ++ (if blank (apiKey c) then [js "API key"] else [])
                ++ (if blank (model c) then [js "Model"] else []))
  else Ok (trimmed (baseUrl c)) (trimmed (apiKey c)) (trimmed (model c)).
Proof.
  unfold validateApiConfig.
  destruct (blank (baseUrl c)), (blank (apiKey c)), (blank (model c)); reflexivity.
Qed.

(** X23.  [validateApiConfig] accepts a configuration exactly when none of the
    three settings is absent or blank.  The values it returns are then
    not empty and have no white space at either end, and validating
    them again returns them unchanged. *)
Theorem validateApiConfig_returns_trimmed_settings (c : SymfocusConfig) :
  match validateApiConfig c with
  | Ok b k m =>
      blank (baseUrl c) = false /\ blank (apiKey c) = false
      /\ blank (model c) = false
      /\ tidy b /\ tidy k /\ tidy m
      /\ validateApiConfig (mkConfig (Some b) (Some k) (Some m)) = Ok b k m
  | Missing missing =>
      missing <> []
      /\ (blank (baseUrl c) = true \/ blank (apiKey c) = true
          \/ blank (model c) = true)
      /\ (In (js "Endpoint (base URL)") missing <-> blank (baseUrl c) = true)
      /\ (In (js "API key") missing <-> blank (apiKey c) = true)
      /\ (In (js "Model") missing <-> blank (model c) = true)
  end.
Proof.
  rewrite validateApiConfig_cases.
  destruct (blank (baseUrl c)) eqn:Eb, (blank (apiKey c)) eqn:Ek,
    (blank (model c)) eqn:Em; cbn [orb app].
  8: {
    destruct (blank_trimmed _ Eb) as (Tb & Bb & Rb).
    destruct (blank_trimmed _ Ek) as (Tk & Bk & Rk).
    destruct (blank_trimmed _ Em) as (Tm & Bm & Rm).
    split_and!; try reflexivity; try assumption.
    rewrite validateApiConfig_cases. cbn [baseUrl apiKey model].
    rewrite Bb, Bk, Bm, Rb, Rk, Rm. reflexivity. }
  all: split_and!; [discriminate|tauto|..];
    (split; [intros _; reflexivity
            |intros _; vm_compute; tauto]) ||
    (split; [intros H; exfalso; revert H; vm_compute; intuition discriminate
            |discriminate]).
Qed.

End ConfigProofs.

Section PromptProofs.
Import PromptBuilder ContextDetector.

Lemma split_no_sep sep s : Forall (fun p => ~ In sep p) (split sep s).
Proof.
  apply List.Forall_forall. intros p Hp Hin.
  revert p Hp Hin. induction s as [|c s IH]; intros p Hp Hin; cbn [split] in Hp.
  - destruct Hp as [<-|[]]. destruct Hin.
  - pose proof (split_nonempty sep s) as Hne.
    destruct (Z.eqb_spec c sep) as [->|Hc].
    + destruct Hp as [<-|Hp]; [destruct Hin|]. exact (IH p Hp Hin).
    + destruct (split sep s) as [|q qs]; [congruence|].
      destruct Hp as [<-|Hp].
      * destruct Hin as [->|Hin]; [congruence|].
        exact (IH q (or_introl eq_refl) Hin).
      * exact (IH p (or_intror Hp) Hin).
Qed.

Lemma join_cons sep p ps :
  ps <> [] -> join sep (p :: ps) = p ++ sep ++ join sep ps.
Proof. destruct ps; [congruence|reflexivity]. Qed.

Lemma join_app sep l1 l2 :
  l1 <> [] -> l2 <> [] ->
  join sep (l1 ++ l2) = join sep l1 ++ sep ++ join sep l2.
Proof.
  induction l1 as [|p l1 IH]; intros H1 H2; [congruence|].
  destruct l1 as [|q l1].
  - cbn [app]. rewrite join_cons by exact H2. reflexivity.
  - change ((p :: q :: l1) ++ l2) with (p :: ((q :: l1) ++ l2)).
    rewrite join_cons by discriminate. rewrite IH by (discriminate || exact H2).
    rewrite (join_cons sep p (q :: l1)) by discriminate.
    rewrite <- !app_assoc. reflexivity.
Qed.

Lemma split_piece sep p t :
  ~ In sep p -> split sep (p ++ sep :: t) = p :: split sep t.
Proof.
  induction p as [|c p IH]; intros Hp.
  - cbn [app split]. rewrite Z.eqb_refl. reflexivity.
  - cbn [app split]. destruct (Z.eqb_spec c sep) as [->|_].
    + exfalso. apply Hp. left. reflexivity.
    + rewrite IH; [reflexivity|]. intros Hin. apply Hp. right. exact Hin.
Qed.

Lemma split_join sep ps :
  ps <> [] -> Forall (fun p => ~ In sep p) ps ->
  split sep (join [sep] ps) = ps.
Proof.
  induction ps as [|p ps IH]; intros Hne Hall; [congruence|].
  apply Forall_cons in Hall as [Hp Hps].
  destruct ps as [|q ps].
  - cbn [join]. apply split_without, Hp.
  - rewrite join_cons by discriminate.
    change ([sep] ++ join [sep] (q :: ps)) with (sep :: join [sep] (q :: ps)).
    rewrite split_piece by exact Hp.
    rewrite IH by (discriminate || exact Hps). reflexivity.
Qed.

(** X24.  The cut of quick mode keeps the first [n] lines of a text.  A text
    of at most [n] lines is kept whole.  A longer text is cut after its
    line [n], just before the line break, and the line [...] is put in
    place of the rest: the result has [n + 1] lines. *)
Theorem truncateLines_keeps_the_first_lines (n : nat) (s : jstring) :
  (1 <= n)%nat ->
  (length (split 10 s) <= n ->
   truncateLines n s = s)%nat
  /\ ((n < length (split 10 s))%nat ->
      exists kept rest,
        s = kept ++ nl ++ rest
        /\ split 10 kept = firstn n (split 10 s)
        /\ truncateLines n s = kept ++ nl ++ js "..."
        /\ split 10 (truncateLines n s) = firstn n (split 10 s) ++ [js "..."]).
Proof.
  intros Hn. unfold truncateLines. split; intros Hlen.
  - destruct (Nat.ltb_spec n (length (split 10 s))); [lia|].
    rewrite firstn_all2 by lia. rewrite app_nil_r. apply join_split.
  - destruct (Nat.ltb_spec n (length (split 10 s))); [|lia].
    pose proof (split_no_sep 10 s) as Hall.
    pose proof (join_split 10 s) as Hs.
    rewrite <- (firstn_skipn n (split 10 s)) in Hs, Hall.
    apply Forall_app in Hall as [Hfirst _].
    assert (firstn n (split 10 s) <> []) as Hne1.
    { intros E. apply (f_equal (@length _)) in E.
      rewrite length_firstn in E. cbn [length] in E. lia. }
    assert (skipn n (split 10 s) <> []) as Hne2.
    { intros E. apply (f_equal (@length _)) in E.
      rewrite length_skipn in E. cbn [length] in E. lia. }
    rewrite join_app in Hs by assumption.
    exists (join nl (firstn n (split 10 s))), (join nl (skipn n (split 10 s))).
    split_and!.
    + symmetry. exact Hs.
    + apply split_join; assumption.
    + reflexivity.
    + change (join nl (firstn n (split 10 s)) ++ nl ++ js "...")
        with (join [10%Z] (firstn n (split 10 s)) ++ [10%Z] ++ join [10%Z] [js "..."]).
      rewrite <- join_app by (assumption || discriminate).
      apply split_join.
      * intros E. apply app_eq_nil in E as [_ E]. discriminate.
      * apply Forall_app. split; [exact Hfirst|].
        constructor; [|constructor]. vm_compute. intuition discriminate.
Qed.

Lemma truncateLines_keeps_the_first_lines_witness :
  truncateLines 2 (js "a" ++ nl ++ js "b" ++ nl ++ js "c")
  = js "a" ++ nl ++ js "b" ++ nl ++ js "...".
Proof.
  destruct (truncateLines_keeps_the_first_lines 2
              (js "a" ++ nl ++ js "b" ++ nl ++ js "c")) as [_ H]; [lia|].
  destruct H as (kept & rest & _ & _ & _ & H); [vm_compute; lia|].
  apply (f_equal (join nl)) in H.
  etrans; [symmetry; apply (join_split 10)|].
  etrans; [exact H|]. vm_compute. reflexivity.
Defined.

(** X25.  The project context of a request is absent exactly when no context
    was found.  When present it is never longer than 300 characters,
    and a README context of at most 300 characters that stands alone is
    passed on as it is. *)
Theorem project_context_is_at_most_300_characters
  (readmeContext packageContext domainContext : option jstring) :
  match combine readmeContext packageContext domainContext with
  | None => found readmeContext = false /\ found packageContext = false
            /\ found domainContext = false
  | Some text =>
      (length text <= 300)%nat
      /\ (found readmeContext = true \/ found packageContext = true
          \/ found domainContext = true)
      /\ (forall r, readmeContext = Some r -> found readmeContext = true ->
           (length r <= 300)%nat -> found packageContext = false ->
           found domainContext = false -> text = r)
  end.
Proof.
  unfold combine.
  set (results := (if found readmeContext then [default [] readmeContext] else [])
    ++ (if found packageContext then [default [] packageContext] else [])
    ++ (if found domainContext then [js "Domain: " ++ default [] domainContext] else [])).
  assert (results = [] -> found readmeContext = false /\ found packageContext = false
            /\ found domainContext = false) as Hnil.
  { subst results.
    destruct (found readmeContext), (found packageContext), (found domainContext);
      cbn [app]; intros E; try discriminate E; auto. }
  assert (results <> [] -> found readmeContext = true \/ found packageContext = true
          \/ found domainContext = true) as Hcons.
  { subst results.
    destruct (found readmeContext), (found packageContext), (found domainContext);
      cbn [app]; intros E; auto; congruence. }
  assert (forall r, readmeContext = Some r -> found readmeContext = true ->
            found packageContext = false -> found domainContext = false ->
            results = [r]) as Hone.
  { intros r -> Hr Hp Hd. subst results. rewrite Hr, Hp, Hd. reflexivity. }
  clearbody results.
  destruct results as [|x xs]; [apply Hnil; reflexivity|].
  set (combined := join (js ". ") (x :: xs)).
  assert (length (if (300 <? Z.of_nat (length combined))%Z
                  then slice combined 0 297 ++ js "..." else combined) <= 300)%nat as Hlen.
  { destruct (Z.ltb_spec 300 (Z.of_nat (length combined))); [|lia].
    rewrite length_app. unfold slice. rewrite length_firstn.
    change (length (js "...")) with 3%nat. unfold sliceIndex.
    cbn [Z.ltb Z.compare]. lia. }
  split_and!.
  - exact Hlen.
  - apply Hcons. discriminate.
  - intros r Er Hr Hr300 Hp Hd. specialize (Hone r Er Hr Hp Hd).
    assert (combined = r) as -> by (unfold combined; rewrite Hone; reflexivity).
    destruct (Z.ltb_spec 300 (Z.of_nat (length r))); [lia|reflexivity].
Qed.

End PromptProofs.

Section WebviewProofs.
Import Regex RegexFacts Webview WebviewFacts.

Lemma span_class (p : Z -> bool) s :
  exists pre rest, s = pre ++ rest /\ forallb p pre = true
                   /\ match rest with [] => True | c :: _ => p c = false end.
Proof.
  induction s as [|c s (pre & rest & -> & Hpre & Hrest)].
  - exists [], []. auto.
  - destruct (p c) eqn:E.
    + exists (c :: pre), rest. cbn [forallb app]. rewrite E. auto.
    + exists [], (c :: pre ++ rest). auto.
Qed.

Lemma failsOn_plus p c : p c = false -> failsOn (plus p) c.
Proof.
  intros E bef aft caps. unfold plus. cbn [matchAt runs after before app].
  rewrite E. reflexivity.
Qed.

Lemma firstMatch_plus p st c w tail :
  after st = c :: w ++ tail -> p c = true -> forallb p w = true ->
  match tail with [] => True | x :: _ => p x = false end ->
  firstMatch (plus p) st (mkPos (rev w ++ c :: before st) tail (captures st)).
Proof.
  intros E Hc Hw Htail. unfold firstMatch, plus. cbn [matchAt]. rewrite E.
  cbn [runs app Nat.pred]. rewrite Hc.
  destruct (runs_word p w (c :: before st) tail Hw) as [shorter ->].
  rewrite (runs_stop p _ tail Htail), rev_app_distr. cbn [rev app map]. eauto.
Qed.

Lemma collapse_outside p s :
  forallb (fun c => negb (p c)) s = true ->
  forall tail, collapse p false (s ++ tail) = s ++ collapse p false tail.
Proof.
  induction s as [|c s IH]; intros H tail; [reflexivity|].
  cbn [forallb] in H. apply andb_prop in H as [Hc Hs].
  cbn [app collapse]. destruct (p c); [discriminate|]. rewrite IH by exact Hs.
  reflexivity.
Qed.

Lemma collapse_run p w tail :
  forallb p w = true ->
  match tail with [] => True | x :: _ => p x = false end ->
  collapse p true (w ++ tail) = collapse p false tail.
Proof.
  induction w as [|c w IH]; intros Hw Htail.
  - destruct tail as [|x tail]; [reflexivity|]. cbn [app collapse]. rewrite Htail.
    reflexivity.
  - cbn [forallb] in Hw. apply andb_prop in Hw as [Hc Hw].
    cbn [app collapse]. rewrite Hc. exact (IH Hw Htail).
Qed.

Lemma replaceFrom_collapse p : forall fuel aft bef,
  (length aft < fuel)%nat ->
  replaceFrom fuel (plus p) (fun _ => js "-") bef aft = collapse p false aft.
Proof.
  induction fuel as [|fuel IH]; intros aft bef Hlen; [lia|].
  destruct (span_class (fun c => negb (p c)) aft) as (pre & rest & -> & Hpre & Hrest).
  rewrite (collapse_outside p pre Hpre).
  cbn [replaceFrom].
  rewrite search_skip.
  2: { intros c Hin. apply failsOn_plus.
       rewrite forallb_forall in Hpre. specialize (Hpre c Hin).
       destruct (p c); [discriminate|reflexivity]. }
  destruct rest as [|c rest].
  - cbn [search matchAt plus runs after before app map rev collapse].
    reflexivity.
  - assert (p c = true) as Hc by (destruct (p c); [reflexivity|discriminate]).
    destruct (span_class p rest) as (w & tail & -> & Hw & Htail).
    rewrite (search_first _ _ _ _ _
               (firstMatch_plus p (mkPos (rev pre ++ bef) (c :: w ++ tail) [])
                  c w tail eq_refl Hc Hw Htail)).
    cbn [skipped matched rest beforeRest after before captures].
    replace (length (c :: w ++ tail) - length tail)%nat with (length (c :: w))
      by (cbn [length]; rewrite length_app; lia).
    change (c :: w ++ tail) with ((c :: w) ++ tail).
    rewrite firstn_app, Nat.sub_diag, firstn_all. cbn [firstn]. rewrite app_nil_r.
    cbn [app]. rewrite rev_involutive, IH.
    2: { rewrite !length_app in Hlen. cbn [length] in Hlen.
         rewrite length_app in Hlen. lia. }
    cbn [collapse]. rewrite Hc, (collapse_run p w tail Hw Htail).
    change (js "-") with [45%Z]. reflexivity.
Qed.

Lemma replaceFrom_nil fuel r f bef :
  (forall st, after st = [] -> matchAt r st = []) ->
  replaceFrom fuel r f bef [] = [].
Proof.
  intros H. destruct fuel; [reflexivity|]. cbn [replaceFrom search].
  rewrite H by reflexivity. reflexivity.
Qed.

Lemma edgeDash_at_end st : after st = [] -> matchAt edgeDashRe st = [].
Proof.
  intros E. unfold edgeDashRe, cat, lit. cbn [fold_right matchAt].
  destruct (before st); cbn [flat_map matchAt app]; rewrite ?E; reflexivity.
Qed.

Lemma edgeDash_other bef c aft caps :
  c <> 45%Z -> matchAt edgeDashRe (mkPos bef (c :: aft) caps) = [].
Proof.
  intros Hc. unfold edgeDashRe, cat, lit.
  destruct bef; cbn [fold_right matchAt after before flat_map app captures];
    destruct (Z.eqb_spec 45 c); try congruence; reflexivity.
Qed.

Lemma edgeDash_inner b bef d aft caps :
  matchAt edgeDashRe (mkPos (b :: bef) (45 :: d :: aft)%Z caps) = [].
Proof. reflexivity. Qed.

Lemma edgeDash_last b bef caps :
  matchAt edgeDashRe (mkPos (b :: bef) [45%Z] caps)
  = [mkPos (45%Z :: b :: bef) [] caps].
Proof. reflexivity. Qed.

Lemma edgeDash_first aft caps :
  firstMatch edgeDashRe (mkPos [] (45%Z :: aft) caps) (mkPos [45%Z] aft caps).
Proof.
  unfold firstMatch, edgeDashRe, cat, lit.
  cbn [fold_right matchAt after before captures flat_map Z.eqb Pos.eqb app]. eauto.
Qed.

Lemma search_trailing : forall aft bef skip,
  (bef <> [] \/ match aft with c :: _ => c <> 45%Z | [] => True end) ->
  (exists m, search edgeDashRe bef aft skip = Some m
             /\ skipped m = rev skip ++ dropTrailingDash aft
             /\ matched m <> [] /\ rest m = [])
  \/ (search edgeDashRe bef aft skip = None /\ dropTrailingDash aft = aft).
Proof.
  induction aft as [|c aft IH]; intros bef skip Hcond.
  - right. cbn [search]. rewrite edgeDash_at_end by reflexivity. auto.
  - destruct (Z.eq_dec c 45%Z) as [->|Hc].
    + destruct bef as [|b bef]; [destruct Hcond as [H|H]; congruence|].
      destruct aft as [|d aft].
      * left. cbn [search]. rewrite edgeDash_last. eexists. split; [reflexivity|].
        cbn [skipped matched rest after length Nat.sub firstn dropTrailingDash Z.eqb Pos.eqb].
        rewrite app_nil_r. split_and!; [reflexivity|discriminate|reflexivity].
      * cbn [search]. rewrite edgeDash_inner.
        destruct (IH (45%Z :: b :: bef) (45%Z :: skip)) as [(m & E & Hs & Hm & Hr)|[E Hd]];
          [left; discriminate| |].
        -- left. exists m. split_and!; [exact E| |exact Hm|exact Hr].
           rewrite Hs. cbn [rev]. rewrite <- app_assoc. reflexivity.
        -- right. split; [exact E|].
           change (dropTrailingDash (45%Z :: d :: aft))
             with (45%Z :: dropTrailingDash (d :: aft)).
           rewrite Hd. reflexivity.
    + cbn [search]. rewrite (edgeDash_other _ _ _ _ Hc).
      assert (dropTrailingDash (c :: aft) = c :: dropTrailingDash aft) as Ed.
      { destruct aft; [|reflexivity]. cbn [dropTrailingDash].
        destruct (Z.eqb_spec c 45); [congruence|reflexivity]. }
      destruct (IH (c :: bef) (c :: skip)) as [(m & E & Hs & Hm & Hr)|[E Hd]];
        [left; discriminate| |].
      * left. exists m. split_and!; [exact E| |exact Hm|exact Hr].
        rewrite Hs, Ed. cbn [rev]. rewrite <- app_assoc. reflexivity.
      * right. split; [exact E|]. rewrite Ed, Hd. reflexivity.
Qed.

Lemma replaceFrom_trailing fuel bef aft :
  (bef <> [] \/ match aft with c :: _ => c <> 45%Z | [] => True end) ->
  replaceFrom (S fuel) edgeDashRe (fun _ => []) bef aft = dropTrailingDash aft.
Proof.
  intros Hcond. cbn [replaceFrom].
  destruct (search_trailing aft bef [] Hcond) as [(m & -> & Hs & Hm & Hr)|[-> Hd]].
  - rewrite Hs, Hr. destruct (matched m); [congruence|].
    rewrite (replaceFrom_nil _ _ _ _ edgeDash_at_end), !app_nil_r. reflexivity.
  - symmetry. exact Hd.
Qed.

Lemma replaceAll_stripEdges s :
  replaceAll edgeDashRe (fun _ => []) s = stripEdges s.
Proof.
  unfold replaceAll, stripEdges. destruct s as [|c r].
  - apply replaceFrom_nil, edgeDash_at_end.
  - destruct (Z.eqb_spec c 45) as [->|Hc].
    + cbn [replaceFrom length].
      rewrite (search_first _ _ _ _ _ (edgeDash_first r [])).
      cbn [skipped matched rest beforeRest after before captures rev app length].
      replace (S (length r) - length r)%nat with 1%nat by lia.
      cbn [firstn].
      destruct r as [|d r]; [reflexivity|].
      cbn [length]. apply replaceFrom_trailing. left. discriminate.
    + apply replaceFrom_trailing. right. exact Hc.
Qed.

Lemma collapse_chars p b s :
  Forall (fun c => p c = false \/ c = 45%Z) (collapse p b s).
Proof.
  revert b. induction s as [|c s IH]; intros b; cbn [collapse]; [constructor|].
  destruct (p c) eqn:E.
  - destruct b; [apply IH|]. constructor; [right; reflexivity|apply IH].
  - constructor; [left; exact E|apply IH].
Qed.

Lemma collapse_noDoubleDash p s :
  p 45%Z = true ->
  forall b,
    noDoubleDash (collapse p b s) = true
    /\ (b = true -> match collapse p b s with c :: _ => c <> 45%Z | [] => True end).
Proof.
  intros H45. induction s as [|c s IH]; intros b; cbn [collapse]; [auto|].
  destruct (p c) eqn:E.
  - destruct (IH true) as [Hn Hh]. specialize (Hh eq_refl). destruct b.
    + split; [exact Hn|intros _; exact Hh].
    + split; [|discriminate]. cbn [noDoubleDash]. rewrite Hn, andb_true_r.
      destruct (collapse p true s) as [|d t]; [reflexivity|].
      destruct (Z.eqb_spec d 45); [congruence|reflexivity].
  - destruct (IH false) as [Hn _].
    assert (c <> 45%Z) as Hc by congruence.
    split; [|intros _; exact Hc]. cbn [noDoubleDash]. rewrite Hn, andb_true_r.
    destruct (Z.eqb_spec c 45); [congruence|reflexivity].
Qed.

Lemma dropTrailingDash_spec s :
  (exists b, s = b ++ [45%Z] /\ dropTrailingDash s = b)
  \/ ((forall b, s <> b ++ [45%Z]) /\ dropTrailingDash s = s).
Proof.
  induction s as [|c s IH].
  - right. split; [intros []; discriminate|reflexivity].
  - destruct s as [|d r].
    + cbn [dropTrailingDash]. destruct (Z.eqb_spec c 45) as [->|Hc].
      * left. exists []. auto.
      * right. split; [|reflexivity].
        intros [|x [|y b]] E; cbn [app] in E; congruence.
    + change (dropTrailingDash (c :: d :: r)) with (c :: dropTrailingDash (d :: r)).
      destruct IH as [(b & E & ->)|[Hno ->]].
      * left. exists (c :: b). rewrite E. auto.
      * right. split; [|reflexivity]. intros [|x b] E; cbn [app] in E; [congruence|].
        injection E as _ E. exact (Hno b E).
Qed.

Lemma noDoubleDash_app_l a b : noDoubleDash (a ++ b) = true -> noDoubleDash a = true.
Proof.
  induction a as [|c a IH]; [reflexivity|]. cbn [app noDoubleDash]. intros H.
  apply andb_prop in H as [Hc Ha]. rewrite (IH Ha), andb_true_r.
  destruct (c =? 45)%Z; [|reflexivity]. destruct a as [|d a]; [reflexivity|exact Hc].
Qed.

Lemma noDoubleDash_tail c s : noDoubleDash (c :: s) = true -> noDoubleDash s = true.
Proof. cbn [noDoubleDash]. intros H. apply andb_prop in H as [_ H]. exact H. Qed.

Lemma noDoubleDash_two q : noDoubleDash (q ++ [45; 45]%Z) = false.
Proof.
  induction q as [|c q IH]; [reflexivity|]. cbn [app noDoubleDash].
  cbn [app] in IH. rewrite IH. apply andb_false_r.
Qed.

Lemma dropTrailingDash_clean (Q : Z -> Prop) s :
  Forall Q s -> noDoubleDash s = true ->
  Forall Q (dropTrailingDash s)
  /\ noDoubleDash (dropTrailingDash s) = true
  /\ (forall r, dropTrailingDash s <> r ++ [45%Z])
  /\ (match s with c :: _ => c <> 45%Z | [] => True end ->
      forall r, dropTrailingDash s <> 45%Z :: r).
Proof.
  intros HQ Hn.
  assert (match s with c :: _ => c <> 45%Z | [] => True end ->
          forall b t r, s = b ++ t -> b <> 45%Z :: r) as Hhead.
  { intros Hh b t r -> ->. cbn [app] in Hh. congruence. }
  destruct (dropTrailingDash_spec s) as [(b & E & ->)|[Hno ->]].
  - subst s. split_and!.
    + apply Forall_app in HQ as [HQ _]. exact HQ.
    + exact (noDoubleDash_app_l _ _ Hn).
    + intros r ->. rewrite <- app_assoc in Hn. cbn [app] in Hn.
      rewrite noDoubleDash_two in Hn. discriminate.
    + intros Hh r. exact (Hhead Hh b [45%Z] r eq_refl).
  - split_and!; [exact HQ|exact Hn|exact Hno|].
    intros Hh r. apply (Hhead Hh s [] r). symmetry. apply app_nil_r.
Qed.

Lemma stripEdges_clean (Q : Z -> Prop) s :
  Forall Q s -> noDoubleDash s = true ->
  Forall Q (stripEdges s)
  /\ noDoubleDash (stripEdges s) = true
  /\ (forall r, stripEdges s <> r ++ [45%Z])
  /\ (forall r, stripEdges s <> 45%Z :: r).
Proof.
  intros HQ Hn. unfold stripEdges. destruct s as [|c s].
  - split_and!; [constructor|reflexivity|intros []; discriminate|discriminate].
  - destruct (Z.eqb_spec c 45) as [->|Hc].
    + apply Forall_cons in HQ as [_ HQ].
      pose proof (noDoubleDash_tail _ _ Hn) as Hn'.
      destruct (dropTrailingDash_clean Q s HQ Hn') as (H1 & H2 & H3 & H4).
      split_and!; [exact H1|exact H2|exact H3|]. apply H4.
      destruct s as [|d s]; [exact I|]. cbn [noDoubleDash] in Hn.
      apply andb_prop in Hn as [Hd _].
      destruct (Z.eqb_spec d 45); [discriminate|assumption].
    + destruct (dropTrailingDash_clean Q (c :: s) HQ Hn) as (H1 & H2 & H3 & H4).
      split_and!; [exact H1|exact H2|exact H3|]. apply H4. exact Hc.
Qed.

Lemma collapse_clean s :
  forallb isSlugChar s = true ->
  collapse (fun c => negb (isSlugChar c)) false s = s.
Proof.
  induction s as [|c s IH]; intros H; [reflexivity|].
  cbn [forallb] in H. apply andb_prop in H as [Hc Hs].
  cbn [collapse]. rewrite Hc, (IH Hs). reflexivity.
Qed.

Lemma slugChar_not_dash c : isSlugChar c = true -> c <> 45%Z.
Proof. intros H ->. discriminate H. Qed.

Lemma dropTrailingDash_slug s :
  forallb isSlugChar s = true -> dropTrailingDash s = s.
Proof.
  intros H. destruct (dropTrailingDash_spec s) as [(b & -> & _)|[_ E]]; [|exact E].
  rewrite forallb_app in H. apply andb_prop in H as [_ H]. discriminate H.
Qed.

Section SlugProofs.
Variable toLowerCase : jstring -> jstring.

Lemma slug_stripEdges text :
  slug toLowerCase text =
  match stripEdges (collapse (fun c => negb (isSlugChar c)) false (toLowerCase text)) with
  | [] => js "h"
  | x :: r => x :: r
  end.
Proof.
  unfold slug. rewrite replaceAll_stripEdges. unfold replaceAll, nonSlugRe.
  rewrite replaceFrom_collapse by lia.
  destruct (stripEdges _); reflexivity.
Qed.

(** X26.  The anchor [slug] makes of a heading is never empty, holds only
    lower-case ASCII letters, digits and dashes, neither starts nor ends
    with a dash, and has no two dashes in a row.  This holds whatever
    [toLowerCase] does with the characters outside ASCII. *)
Theorem slug_is_a_clean_anchor (text : jstring) :
  slug toLowerCase text <> []
  /\ Forall (fun c => isSlugChar c = true \/ c = 45%Z) (slug toLowerCase text)
  /\ (forall r, slug toLowerCase text <> 45%Z :: r)
  /\ (forall r, slug toLowerCase text <> r ++ [45%Z])
  /\ noDoubleDash (slug toLowerCase text) = true.
Proof.
  rewrite slug_stripEdges.
  set (s1 := collapse (fun c => negb (isSlugChar c)) false (toLowerCase text)).
  assert (Forall (fun c => isSlugChar c = true \/ c = 45%Z) s1) as HQ.
  { eapply Forall_impl; [apply collapse_chars|]. cbn beta.
    intros c [H|H]; [left; destruct (isSlugChar c); [reflexivity|discriminate]
                    |right; exact H]. }
  assert (noDoubleDash s1 = true) as Hn
    by (apply (collapse_noDoubleDash (fun c => negb (isSlugChar c))); reflexivity).
  destruct (stripEdges_clean _ s1 HQ Hn) as (H1 & H2 & H3 & H4).
  destruct (stripEdges s1) as [|x r].
  - split_and!; [discriminate| |discriminate| |reflexivity].
    + constructor; [left; reflexivity|constructor].
    + intros [|y [|z q]] E; cbn [app] in E; discriminate E.
  - split_and!; [discriminate|exact H1|exact H4|exact H3|exact H2].
Qed.

(** X27.  A heading that is, in lower case, made of lower-case ASCII letters
    and digits only is its own anchor. *)
Theorem slug_keeps_a_clean_heading (text : jstring) :
  toLowerCase text <> [] ->
  forallb isSlugChar (toLowerCase text) = true ->
  slug toLowerCase text = toLowerCase text.
Proof.
  intros Hne Hall. rewrite slug_stripEdges, (collapse_clean _ Hall).
  unfold stripEdges. destruct (toLowerCase text) as [|c r] eqn:E; [congruence|].
  assert (c <> 45%Z) as Hc.
  { apply slugChar_not_dash. cbn [forallb] in Hall.
    apply andb_prop in Hall as [Hc _]. exact Hc. }
  destruct (Z.eqb_spec c 45); [congruence|].
  rewrite (dropTrailingDash_slug _ Hall). reflexivity.
Qed.

End SlugProofs.

Lemma slug_keeps_a_clean_heading_witness :
  slug (fun s => s) (js "intro2") = js "intro2".
Proof.
  apply (slug_keeps_a_clean_heading (fun s => s) (js "intro2")).
  - discriminate.
  - reflexivity.
Defined.

Lemma ready_until_loading ms :
  ~ In MsgLoading ms -> fold_left onMessage ms READY = READY.
Proof.
  induction ms as [|d ms IH]; intros H; [reflexivity|].
  cbn [fold_left]. destruct d; try (apply IH; intros Hin; apply H; right; exact Hin).
  exfalso. apply H. left. reflexivity.
Qed.

(** X28.  Once the content of a request has been shown (the messages loading,
    clear and show, in this order), the view is in the state READY and
    stays there until the next loading message, whatever the state
    before the request.  An error message that follows the content does
    not change the state. *)
Theorem shown_content_keeps_the_view_ready (before after : list Message) :
  ~ In MsgLoading after ->
  stateAfter (before ++ [MsgLoading; MsgClear; MsgShow] ++ after) = READY.
Proof.
  intros H. unfold stateAfter. rewrite !fold_left_app.
  assert (fold_left onMessage [MsgLoading; MsgClear; MsgShow]
            (fold_left onMessage before IDLE) = READY) as ->.
  { destruct (fold_left onMessage before IDLE); reflexivity. }
  apply ready_until_loading, H.
Qed.

Lemma shown_content_keeps_the_view_ready_witness :
  stateAfter ([MsgLoading; MsgError]
              ++ [MsgLoading; MsgClear; MsgShow] ++ [MsgShow; MsgError; MsgStatus])
  = READY.
Proof.
  apply (shown_content_keeps_the_view_ready [MsgLoading; MsgError]
           [MsgShow; MsgError; MsgStatus]).
  intros [H|[H|[H|[]]]]; discriminate H.
Defined.

Lemma never_idle_again s ms :
  s <> IDLE -> fold_left onMessage ms s <> IDLE.
Proof.
  revert s. induction ms as [|d ms IH]; intros s Hs; [exact Hs|].
  cbn [fold_left]. apply IH. destruct s, d; cbn; congruence.
Qed.

(** X29.  The view is in the state IDLE exactly until the first loading
    message: no other message leaves IDLE, and no message brings the
    view back to it. *)
Theorem view_is_idle_until_the_first_loading (ms : list Message) :
  stateAfter ms = IDLE <-> ~ In MsgLoading ms.
Proof.
  unfold stateAfter. split.
  - intros E Hin. apply in_split in Hin as (l1 & l2 & ->).
    rewrite fold_left_app in E. cbn [fold_left] in E.
    revert E. apply never_idle_again.
    destruct (fold_left onMessage l1 IDLE); cbn; congruence.
  - induction ms as [|d ms IH]; intros H; [reflexivity|].
    cbn [fold_left].
    assert (onMessage IDLE d = IDLE) as ->.
    { destruct d; try reflexivity. exfalso. apply H. left. reflexivity. }
    apply IH. intros Hin. apply H. right. exact Hin.
Qed.

End WebviewProofs.

Section TargetProofs.
Import Regex RegexFacts URI Markdown TargetFacts.

Lemma runs_members p : forall s min bef b' a',
  In (b', a') (runs p min bef s) ->
  exists u, s = u ++ a' /\ b' = rev u ++ bef /\ forallb p u = true
            /\ (min <= length u)%nat.
Proof.
  induction s as [|c s IH]; intros min bef b' a' H; cbn [runs] in H;
    apply in_app_or in H as [H|H].
  - destruct min; [|destruct H]. destruct H as [[= <- <-]|[]].
    exists []. cbn. auto.
  - destruct H.
  - destruct min; [|destruct H]. destruct H as [[= <- <-]|[]].
    exists []. cbn. auto.
  - destruct (p c) eqn:Hc; [|destruct H].
    destruct (IH _ _ _ _ H) as (u & -> & -> & Hu & Hlen).
    exists (c :: u). cbn [app rev forallb length]. rewrite Hc, Hu, <- app_assoc.
    split_and!; [reflexivity|reflexivity|reflexivity|lia].
Qed.

Lemma runs_zero p bef s : runs p 0 bef s = (bef, s) :: runs p 1 bef s.
Proof. destruct s; reflexivity. Qed.

Lemma flat_map_nil {A B} (f : A -> list B) l :
  (forall x, In x l -> f x = []) -> flat_map f l = [].
Proof.
  induction l as [|x l IH]; intros H; [reflexivity|]. cbn [flat_map].
  rewrite (H x) by (left; reflexivity). apply IH. intros y Hy. apply H. right. exact Hy.
Qed.

Lemma matchAt_group_plus n p k st :
  matchAt (Seq (Group n (plus p)) k) st =
  flat_map
    (fun '(b', a') =>
       matchAt k (mkPos b' a'
                    ((n, firstn (length (after st) - length a') (after st))
                       :: captures st)))
    (rev (runs p 1 (before st) (after st))).
Proof.
  unfold plus. cbn [matchAt]. rewrite map_map, flat_map_concat_map, map_map.
  rewrite flat_map_concat_map. f_equal. apply map_ext. intros [b' a']. reflexivity.
Qed.

Lemma fails_group_plus n p k st :
  (forall u a' caps', u <> [] -> forallb p u = true -> after st = u ++ a' ->
     matchAt k (mkPos (rev u ++ before st) a' caps') = []) ->
  matchAt (Seq (Group n (plus p)) k) st = [].
Proof.
  intros H. rewrite matchAt_group_plus. apply flat_map_nil. intros [b' a'] Hin.
  apply in_rev in Hin. destruct (runs_members _ _ _ _ _ _ Hin) as (u & E & -> & Hu & Hlen).
  apply H; [intros ->; cbn in Hlen; lia|exact Hu|exact E].
Qed.

Lemma firstMatch_group_plus n p k st w tail y :
  after st = w ++ tail -> w <> [] -> forallb p w = true ->
  (forall u a' b' caps', u <> [] -> forallb p u = true -> tail = u ++ a' ->
     matchAt k (mkPos b' a' caps') = []) ->
  firstMatch k (mkPos (rev w ++ before st) tail ((n, w) :: captures st)) y ->
  firstMatch (Seq (Group n (plus p)) k) st y.
Proof.
  intros E Hne Hw Hlong [tl Hk]. unfold firstMatch. rewrite matchAt_group_plus, E.
  destruct w as [|c w]; [congruence|]. cbn [forallb] in Hw.
  apply andb_prop in Hw as [Hc Hw].
  change ((c :: w) ++ tail) with (c :: w ++ tail) at 2.
  cbn [runs app Nat.pred]. rewrite Hc.
  destruct (runs_word p w (c :: before st) tail Hw) as [shorter ->].
  rewrite runs_zero, rev_app_distr. cbn [rev]. rewrite <- app_assoc.
  rewrite flat_map_app. rewrite flat_map_nil.
  2: { intros [b' a'] Hin. apply in_rev in Hin.
       destruct (runs_members _ _ _ _ _ _ Hin) as (u & Eu & _ & Hu & Hlen).
       apply (Hlong u); [intros ->; cbn in Hlen; lia|exact Hu|exact Eu]. }
  cbn [app flat_map].
  change (c :: w ++ tail) with ((c :: w) ++ tail) at 1 2.
  rewrite firstn_consumed. cbn [rev] in Hk.
  rewrite <- app_assoc in Hk. cbn [app] in Hk. rewrite Hk. cbn [app]. eauto.
Qed.

Lemma no_match_nil r st : (forall st', ~ In st' (matchAt r st)) -> matchAt r st = [].
Proof.
  intros H. destruct (matchAt r st) as [|x l]; [reflexivity|].
  exfalso. apply (H x). left. reflexivity.
Qed.

Lemma avoids_eps c : avoids c Eps.
Proof.
  intros st st' w [<-|[]] E. apply (app_inv_tail (after st) [] w) in E. subst w.
  intros [].
Qed.

Lemma avoids_eol c : avoids c Eol.
Proof.
  intros st st' w H E. cbn [matchAt] in H.
  destruct (after st) eqn:Ea; [|destruct H]. destruct H as [<-|[]].
  rewrite Ea in E. destruct w; [intros []|discriminate].
Qed.

Lemma avoids_lit c x : x <> c -> avoids c (lit x).
Proof.
  intros Hx st st' w H E. unfold lit in H. cbn [matchAt] in H.
  destruct (after st) as [|y aft] eqn:Ea; [destruct H|].
  destruct (Z.eqb_spec x y) as [<-|]; [|destruct H].
  destruct H as [<-|[]]. cbn [after] in E.
  apply (app_inv_tail aft [x] w) in E. subst w. intros [->|[]]. congruence.
Qed.

Lemma avoids_rep c min greedy p : p c = false -> avoids c (Rep min greedy p).
Proof.
  intros Hp st st' w H E. cbn [matchAt] in H.
  apply in_map_iff in H as ([b' a'] & <- & H). cbn [after] in E.
  assert (In (b', a') (runs p min (before st) (after st))) as Hin
    by (destruct greedy; [apply in_rev|]; exact H).
  destruct (runs_members _ _ _ _ _ _ Hin) as (u & Eu & _ & Hu & _).
  rewrite Eu in E. apply app_inv_tail in E. subst w.
  intros Hc. rewrite forallb_forall in Hu. specialize (Hu c Hc). congruence.
Qed.

Lemma avoids_group c n a : avoids c a -> avoids c (Group n a).
Proof.
  intros Ha st st' w H E. cbn [matchAt] in H.
  apply in_map_iff in H as (x & <- & H). cbn [after] in E.
  exact (Ha st x w H E).
Qed.

Lemma avoids_seq c a b : avoids c a -> avoids c b -> avoids c (Seq a b).
Proof.
  intros Ha Hb st st' w H E. cbn [matchAt] in H.
  apply in_flat_map in H as (mid & Hmid & H).
  destruct (matchAt_consumes a st mid Hmid) as (w1 & E1 & _).
  destruct (matchAt_consumes b mid st' H) as (w2 & E2 & _).
  rewrite E1, E2, app_assoc in E. apply app_inv_tail in E. subst w.
  intros Hin. apply in_app_or in Hin as [Hin|Hin].
  - exact (Ha st mid w1 Hmid E1 Hin).
  - exact (Hb mid st' w2 H E2 Hin).
Qed.

Lemma avoids_opt c a : avoids c a -> avoids c (Opt a).
Proof.
  intros Ha st st' w H E. cbn [matchAt] in H. apply in_app_or in H as [H|H].
  - exact (Ha st st' w H E).
  - exact (avoids_eps c st st' w H E).
Qed.

Lemma toEnd_seq a b : toEnd b -> toEnd (Seq a b).
Proof.
  intros Hb st st' H. cbn [matchAt] in H.
  apply in_flat_map in H as (mid & _ & H). exact (Hb mid st' H).
Qed.

Lemma toEnd_eol : toEnd (Seq Eol Eps).
Proof.
  intros st st' H. cbn [matchAt] in H.
  destruct (after st) eqn:E; [|destruct H]. cbn [flat_map matchAt app] in H.
  destruct H as [<-|[]]. exact E.
Qed.

Lemma avoids_no_match c r bef aft caps :
  avoids c r -> toEnd r -> In c aft -> matchAt r (mkPos bef aft caps) = [].
Proof.
  intros Ha He Hc. apply no_match_nil. intros st' H.
  destruct (matchAt_consumes r _ st' H) as (w & Ew & _). cbn [after] in Ew.
  pose proof (He _ _ H) as Eend. rewrite Eend, app_nil_r in Ew. subst w.
  exact (Ha _ _ aft H ltac:(cbn [after]; rewrite Eend, app_nil_r; reflexivity) Hc).
Qed.

Lemma search_bol_none k : forall aft bef skip,
  bef <> [] -> search (Seq Bol k) bef aft skip = None.
Proof.
  induction aft as [|c aft IH]; intros bef skip Hb;
    (destruct bef as [|b bef]; [congruence|]); cbn [search matchAt before flat_map].
  - reflexivity.
  - apply IH. discriminate.
Qed.

Lemma exec_bol_none k h :
  matchAt (Seq Bol k) (mkPos [] h []) = [] -> exec (Seq Bol k) h = None.
Proof.
  intros H. unfold exec. destruct h as [|c h]; cbn [search]; rewrite H; [reflexivity|].
  apply search_bol_none. discriminate.
Qed.

Lemma exec_bol_first k h y :
  firstMatch k (mkPos [] h []) y ->
  exec (Seq Bol k) h
  = Some (mkMatch [] (firstn (length h - length (after y)) h)
            (captures y) (before y) (after y)).
Proof.
  intros Hk. unfold exec.
  apply (search_first (Seq Bol k) [] h [] y).
  apply (firstMatch_seq Bol k _ (mkPos [] h [])); [apply firstMatch_bol; reflexivity|exact Hk].
Qed.

Lemma colon_fails k b a caps :
  match a with c :: _ => c <> 58%Z | [] => True end ->
  matchAt (Seq (str ":") k) (mkPos b a caps) = [].
Proof.
  intros H. change (str ":") with (Seq (lit 58) Eps). unfold lit.
  cbn [matchAt after before captures]. destruct a as [|c a]; [reflexivity|].
  destruct (Z.eqb_spec 58 c); [congruence|]. reflexivity.
Qed.

Lemma colon_step k b x caps :
  matchAt (Seq (str ":") k) (mkPos b (58%Z :: x) caps)
  = matchAt k (mkPos (58%Z :: b) x caps).
Proof.
  change (str ":") with (Seq (lit 58) Eps). unfold lit.
  cbn [matchAt after before captures Z.eqb Pos.eqb flat_map app].
  apply app_nil_r.
Qed.

Lemma last_colon_unique : forall (u p x d : jstring),
  u ++ 58%Z :: x = p ++ 58%Z :: d -> ~ In 58%Z x -> ~ In 58%Z d ->
  u = p /\ x = d.
Proof.
  induction u as [|c u IH]; intros p x d E Hx Hd; destruct p as [|c' p];
    cbn [app] in E.
  - injection E as ->. auto.
  - injection E as <- ->. exfalso. apply Hx, in_or_app. right. left. reflexivity.
  - injection E as -> <-. exfalso. apply Hd, in_or_app. right. left. reflexivity.
  - injection E as <- E. destruct (IH p x d E Hx Hd) as [-> ->]. auto.
Qed.

Lemma digits_no_colon d c : forallb isDigit d = true -> isDigit c = false -> ~ In c d.
Proof.
  intros Hd Hc Hin. rewrite forallb_forall in Hd. specialize (Hd c Hin). congruence.
Qed.

Lemma firstMatch_opt_skip a k st y :
  matchAt a st = [] -> firstMatch k st y -> firstMatch (Seq (Opt a) k) st y.
Proof.
  intros Ha [tl Hk]. unfold firstMatch. cbn [matchAt]. rewrite Ha.
  cbn [app flat_map]. rewrite Hk. cbn [app]. eauto.
Qed.

Lemma firstMatch_eol st : after st = [] -> firstMatch (Seq Eol Eps) st st.
Proof.
  intros E. unfold firstMatch. cbn [matchAt]. rewrite E.
  cbn [flat_map matchAt app]. eauto.
Qed.

Lemma suffix_of_digits (u a' d : jstring) (c : Z) :
  u <> [] -> c :: d = u ++ a' -> forallb isDigit d = true ->
  match a' with x :: _ => x <> 58%Z | [] => True end.
Proof.
  intros Hu E Hd. destruct u as [|c0 u]; [congruence|]. cbn [app] in E.
  injection E as _ E. destruct a' as [|x a']; [exact I|].
  intros ->. apply (digits_no_colon d 58%Z Hd); [reflexivity|].
  rewrite E. apply in_or_app. right. left. reflexivity.
Qed.

Lemma rangeTail_avoids_colon :
  avoids 58 (Seq (Group 2 (plus isDigit))
               (Seq (str "-") (Seq (Group 3 (plus isDigit)) (Seq Eol Eps)))).
Proof.
  apply avoids_seq; [apply avoids_group, avoids_rep; reflexivity|].
  apply avoids_seq.
  { change (str "-") with (Seq (lit 45) Eps).
    apply avoids_seq; [apply avoids_lit; discriminate|apply avoids_eps]. }
  apply avoids_seq; [apply avoids_group, avoids_rep; reflexivity|].
  apply avoids_seq; [apply avoids_eol|apply avoids_eps].
Qed.

Lemma rangeTail_needs_dash :
  mustConsume 45 (Seq (Group 2 (plus isDigit))
                    (Seq (str "-") (Seq (Group 3 (plus isDigit)) (Seq Eol Eps)))).
Proof.
  apply mustConsume_seq_r, mustConsume_seq_l.
  change (str "-") with (Seq (lit 45) Eps). apply mustConsume_seq_l, mustConsume_lit.
Qed.

Lemma rangeTail_toEnd :
  toEnd (Seq (Group 2 (plus isDigit))
           (Seq (str "-") (Seq (Group 3 (plus isDigit)) (Seq Eol Eps)))).
Proof. do 3 apply toEnd_seq. apply toEnd_eol. Qed.

(** [rangeRe] has no match on a target that ends with a colon and
    digits. *)
Lemma rangeRe_fails_on_line_target p d :
  forallb isDigit d = true -> exec rangeRe (p ++ js ":" ++ d) = None.
Proof.
  intros Hd.
  change rangeRe with (Seq Bol (Seq (Group 1 (plus isDot)) rangeTail)).
  apply exec_bol_none. cbn [matchAt before flat_map]. rewrite app_nil_r.
  apply fails_group_plus. intros u a' caps' Hu _ E. cbn [after before] in *.
  change rangeTail with
    (Seq (str ":") (Seq (Group 2 (plus isDigit))
                      (Seq (str "-") (Seq (Group 3 (plus isDigit)) (Seq Eol Eps))))).
  destruct a' as [|x a']; [apply colon_fails; exact I|].
  destruct (Z.eq_dec x 58%Z) as [->|Hx]; [|apply colon_fails; exact Hx].
  rewrite colon_step.
  destruct (in_dec Z.eq_dec 58%Z a') as [Hin|Hnin].
  - apply (avoids_no_match 58%Z);
      [apply rangeTail_avoids_colon|apply rangeTail_toEnd|exact Hin].
  - change (js ":" ++ d) with (58%Z :: d) in E. symmetry in E.
    destruct (last_colon_unique u p a' d E Hnin) as [_ ->].
    { apply digits_no_colon; [exact Hd|reflexivity]. }
    apply (mustConsume_no_match 45); [apply rangeTail_needs_dash|].
    apply digits_no_colon; [exact Hd|reflexivity].
Qed.

(** The first match of [lineColRe] on a path, a colon and digits: the
    path group takes the path, the line group the digits, and the
    column group takes no part. *)
Lemma lineColRe_on_line_target p d :
  p <> [] -> forallb isDot p = true -> d <> [] -> forallb isDigit d = true ->
  exists m, exec lineColRe (p ++ js ":" ++ d) = Some m
            /\ groups m = [(2, d); (1, p)]%nat.
Proof.
  intros Hp Hdot Hd Hdig.
  change lineColRe with (Seq Bol (Seq (Group 1 (plus isDot)) lineColTail)).
  eexists. split.
  - apply exec_bol_first.
    apply (firstMatch_group_plus 1 isDot lineColTail (mkPos [] (p ++ js ":" ++ d) [])
             p (js ":" ++ d)); [reflexivity|exact Hp|exact Hdot| |].
    + intros u a' b' caps' Hu _ E.
      change lineColTail with
        (Seq (str ":") (Seq (Group 2 (plus isDigit))
           (Seq (Opt (Seq (str ":") (Group 3 (plus isDigit)))) (Seq Eol Eps)))).
      apply colon_fails. exact (suffix_of_digits u a' d 58 Hu E Hdig).
    + cbn [before captures].
      change lineColTail with
        (Seq (str ":") (Seq (Group 2 (plus isDigit))
           (Seq (Opt (Seq (str ":") (Group 3 (plus isDigit)))) (Seq Eol Eps)))).
      change (js ":" ++ d) with (58%Z :: d).
      unfold firstMatch. rewrite colon_step. fold (firstMatch
        (Seq (Group 2 (plus isDigit))
           (Seq (Opt (Seq (str ":") (Group 3 (plus isDigit)))) (Seq Eol Eps)))
        (mkPos (58%Z :: rev p ++ []) d [(1%nat, p)])).
      apply (firstMatch_group_plus 2 isDigit _ _ d []);
        [cbn [after]; symmetry; apply app_nil_r|exact Hd|exact Hdig| |].
      * intros u a' b' caps' Hu _ E. destruct u; [congruence|discriminate E].
      * apply firstMatch_opt_skip; [apply colon_fails; exact I|].
        apply firstMatch_eol. reflexivity.
  - reflexivity.
Qed.

Lemma transformLinkHref_line_target (p d : jstring) :
  p <> [] -> forallb isDot p = true -> d <> [] -> forallb isDigit d = true ->
  startsWith (js "file:") (p ++ js ":" ++ d) = false ->
  includes (js "//") (p ++ js ":" ++ d) = false ->
  exists c,
    openFileHref [AString (normalizePath p); ANumber (parseInt d); ANumber 1] = Some c
    /\ transformLinkHref (p ++ js ":" ++ d)
       = Some (fileLink c (normalizePath p) (parseInt d) 1 None).
Proof.
  intros Hp Hdot Hd Hdig Hfile Hinc.
  destruct (openFileHref_total
              [AString (normalizePath p); ANumber (parseInt d); ANumber 1]) as [c Hc].
  exists c. split; [exact Hc|].
  destruct (lineColRe_on_line_target p d Hp Hdot Hd Hdig) as (m & Hm & Hg).
  unfold transformLinkHref.
  rewrite Hfile, Hinc, (rangeRe_fails_on_line_target p d Hdig), Hm.
  cbn [negb]. unfold grp. rewrite Hg.
  cbn [group Nat.eqb default]. unfold id. rewrite Hc. reflexivity.
Qed.

(** X15.  A target made of a path, a colon and a line number is a file link
    to that line of that path, in column 1.  The path is everything
    before the last colon: in a target [path:line:col] the path group
    takes [path:line] and the line is [col].  The number is one that a
    double holds exactly, as [parseInt] returns a double. *)
Theorem line_target_is_parsed (p d : jstring) :
  p <> [] -> forallb isDot p = true -> d <> [] -> forallb isDigit d = true ->
  (parseInt d < 2 ^ 53)%Z ->
  startsWith (js "file:") (p ++ js ":" ++ d) = false ->
  includes (js "//") (p ++ js ":" ++ d) = false ->
  exists c,
    openFileHref [AString (normalizePath p); ANumber (parseInt d); ANumber 1] = Some c
    /\ transformLinkHref (p ++ js ":" ++ d)
       = Some (fileLink c (normalizePath p) (parseInt d) 1 None).
Proof.
  intros Hp Hdot Hd Hdig _ Hfile Hinc.
  exact (transformLinkHref_line_target p d Hp Hdot Hd Hdig Hfile Hinc).
Qed.

Lemma line_target_is_parsed_witness :
  exists c,
    openFileHref [AString (js "src/a.ts:10"); ANumber 5; ANumber 1] = Some c
    /\ transformLinkHref (js "src/a.ts:10:5")
       = Some (fileLink c (js "src/a.ts:10") 5 1 None).
Proof.
  apply (line_target_is_parsed (js "src/a.ts:10") (js "5"));
    try discriminate; reflexivity.
Defined.

Lemma suffix_no_colon (u a' x : jstring) (c : Z) :
  u <> [] -> c :: x = u ++ a' -> ~ In 58%Z x ->
  match a' with y :: _ => y <> 58%Z | [] => True end.
Proof.
  intros Hu E Hx. destruct u as [|c0 u]; [congruence|]. cbn [app] in E.
  injection E as _ E. destruct a' as [|y a']; [exact I|].
  intros ->. apply Hx. rewrite E. apply in_or_app. right. left. reflexivity.
Qed.

Lemma dash_step k b x caps :
  matchAt (Seq (str "-") k) (mkPos b (45%Z :: x) caps)
  = matchAt k (mkPos (45%Z :: b) x caps).
Proof.
  change (str "-") with (Seq (lit 45) Eps). unfold lit.
  cbn [matchAt after before captures Z.eqb Pos.eqb flat_map app].
  apply app_nil_r.
Qed.

(** The first match of [rangeRe] on a path, a colon and two numbers
    with a dash between them. *)
Lemma rangeRe_on_range_target p d1 d2 :
  p <> [] -> forallb isDot p = true ->
  d1 <> [] -> forallb isDigit d1 = true ->
  d2 <> [] -> forallb isDigit d2 = true ->
  exists m, exec rangeRe (p ++ js ":" ++ d1 ++ js "-" ++ d2) = Some m
            /\ groups m = [(3, d2); (2, d1); (1, p)]%nat.
Proof.
  intros Hp Hdot Hd1 Hdig1 Hd2 Hdig2.
  change rangeRe with (Seq Bol (Seq (Group 1 (plus isDot)) rangeTail)).
  eexists. split.
  - apply exec_bol_first.
    apply (firstMatch_group_plus 1 isDot rangeTail
             (mkPos [] (p ++ js ":" ++ d1 ++ js "-" ++ d2) [])
             p (js ":" ++ d1 ++ js "-" ++ d2)); [reflexivity|exact Hp|exact Hdot| |].
    + intros u a' b' caps' Hu _ E.
      change rangeTail with
        (Seq (str ":") (Seq (Group 2 (plus isDigit))
           (Seq (str "-") (Seq (Group 3 (plus isDigit)) (Seq Eol Eps))))).
      apply colon_fails.
      apply (suffix_no_colon u a' (d1 ++ js "-" ++ d2) 58 Hu E).
      intros Hin. apply in_app_or in Hin as [Hin|[Hin|Hin]].
      * exact (digits_no_colon d1 58%Z Hdig1 eq_refl Hin).
      * discriminate Hin.
      * exact (digits_no_colon d2 58%Z Hdig2 eq_refl Hin).
    + cbn [before captures].
      change rangeTail with
        (Seq (str ":") (Seq (Group 2 (plus isDigit))
           (Seq (str "-") (Seq (Group 3 (plus isDigit)) (Seq Eol Eps))))).
      change (js ":" ++ d1 ++ js "-" ++ d2) with (58%Z :: d1 ++ 45%Z :: d2).
      unfold firstMatch. rewrite colon_step. fold (firstMatch
        (Seq (Group 2 (plus isDigit))
           (Seq (str "-") (Seq (Group 3 (plus isDigit)) (Seq Eol Eps))))
        (mkPos (58%Z :: rev p ++ []) (d1 ++ 45%Z :: d2) [(1%nat, p)])).
      apply (firstMatch_group_plus 2 isDigit _ _ d1 (45%Z :: d2));
        [reflexivity|exact Hd1|exact Hdig1| |].
      * intros u a' b' caps' Hu Hdu E. destruct u as [|c u]; [congruence|].
        cbn [app] in E. injection E as <- _. discriminate Hdu.
      * cbn [before captures]. unfold firstMatch. rewrite dash_step.
        fold (firstMatch (Seq (Group 3 (plus isDigit)) (Seq Eol Eps))
                (mkPos (45%Z :: rev d1 ++ 58%Z :: rev p ++ []) d2
                   [(2%nat, d1); (1%nat, p)])).
        apply (firstMatch_group_plus 3 isDigit _ _ d2 []);
          [cbn [after]; symmetry; apply app_nil_r|exact Hd2|exact Hdig2| |].
        -- intros u a' b' caps' Hu _ E. destruct u; [congruence|discriminate E].
        -- apply firstMatch_eol. reflexivity.
  - reflexivity.
Qed.

Lemma transformLinkHref_range_target (p d1 d2 : jstring) :
  p <> [] -> forallb isDot p = true ->
  d1 <> [] -> forallb isDigit d1 = true ->
  d2 <> [] -> forallb isDigit d2 = true ->
  startsWith (js "file:") (p ++ js ":" ++ d1 ++ js "-" ++ d2) = false ->
  includes (js "//") (p ++ js ":" ++ d1 ++ js "-" ++ d2) = false ->
  exists c,
    openFileHref [AString (normalizePath p); ANumber (parseInt d1); ANumber 1;
                  ANumber (parseInt d2)] = Some c
    /\ transformLinkHref (p ++ js ":" ++ d1 ++ js "-" ++ d2)
       = Some (fileLink c (normalizePath p) (parseInt d1) 1 (Some (parseInt d2))).
Proof.
  intros Hp Hdot Hd1 Hdig1 Hd2 Hdig2 Hfile Hinc.
  destruct (openFileHref_total
              [AString (normalizePath p); ANumber (parseInt d1); ANumber 1;
               ANumber (parseInt d2)]) as [c Hc].
  exists c. split; [exact Hc|].
  destruct (rangeRe_on_range_target p d1 d2 Hp Hdot Hd1 Hdig1 Hd2 Hdig2)
    as (m & Hm & Hg).
  unfold transformLinkHref. rewrite Hfile, Hinc, Hm.
  cbn [negb]. unfold grp. rewrite Hg.
  cbn [group Nat.eqb default]. unfold id. rewrite Hc. reflexivity.
Qed.

(** X16.  A target made of a path, a colon and two line numbers with a dash
    between them is a file link to that range of lines of that path.
    The numbers are ones that a double holds exactly. *)
Theorem range_target_is_parsed (p d1 d2 : jstring) :
  p <> [] -> forallb isDot p = true ->
  d1 <> [] -> forallb isDigit d1 = true ->
  d2 <> [] -> forallb isDigit d2 = true ->
  (parseInt d1 < 2 ^ 53)%Z -> (parseInt d2 < 2 ^ 53)%Z ->
  startsWith (js "file:") (p ++ js ":" ++ d1 ++ js "-" ++ d2) = false ->
  includes (js "//") (p ++ js ":" ++ d1 ++ js "-" ++ d2) = false ->
  exists c,
    openFileHref [AString (normalizePath p); ANumber (parseInt d1); ANumber 1;
                  ANumber (parseInt d2)] = Some c
    /\ transformLinkHref (p ++ js ":" ++ d1 ++ js "-" ++ d2)
       = Some (fileLink c (normalizePath p) (parseInt d1) 1 (Some (parseInt d2))).
Proof.
  intros Hp Hdot Hd1 Hdig1 Hd2 Hdig2 _ _ Hfile Hinc.
  exact (transformLinkHref_range_target p d1 d2 Hp Hdot Hd1 Hdig1 Hd2 Hdig2 Hfile Hinc).
Qed.

Lemma range_target_is_parsed_witness :
  exists c,
    openFileHref [AString (js "src/a.ts"); ANumber 10; ANumber 1; ANumber 12] = Some c
    /\ transformLinkHref (js "rc/a.ts:10-12")
       = Some (fileLink c (js "src/a.ts") 10 1 (Some 12%Z)).
Proof.
  apply (range_target_is_parsed (js "rc/a.ts") (js "10") (js "12"));
    try discriminate; reflexivity.
Defined.

End TargetProofs.

Section ClaimProofs.
Import Regex RegexFacts URI Markdown MarkdownFacts TargetFacts.

(** ** The example of the allow-list *)

(** C2.  Allow-list gating of location links.  [marked] and the
    sanitizer are libraries; three facts about them are assumed.
    [marked] reads the text left by the two linkify passes as it does: a
    link whose label holds a nested link.  The sanitizer returns a plain
    paragraph unchanged.  On the markup of this rendering the sanitizer,
    which the program configures to accept [command:] targets and the
    [data-dw-*] attributes, returns some markup that keeps the start of
    an anchor, its command target and its data attributes.  Then
    rendering the back-tick-wrapped reference [src/a.ts:10-12] with the
    allow-list that contains ["src/a.ts:10-12"] returns markup with an
    anchor whose command target and data attributes encode the path
    [src/a.ts], line 10 and end line 12, and the markup handed to the
    sanitizer opens with that anchor; rendering it with the empty
    allow-list returns the paragraph with the literal text
    [src/a.ts:10-12], with no anchor and no data attribute. *)
Theorem allow_list_gates_location_link
  (marked_parse : LinkRenderer -> jstring -> option jstring)
  (sanitize : jstring -> option jstring) :
  let md := [96%Z] ++ js "src/a.ts:10-12" ++ [96%Z] in
  let listed := Some (mkOptions (Some {[ js "src/a.ts:10-12" ]})) in
  let empty := Some (mkOptions (Some ∅)) in
  (forall r : LinkRenderer,
      marked_parse r
        (js "[s[rc/a.ts:10-12](rc/a.ts:10-12)]([src/a.ts:10-12](src/a.ts:10-12))")
      = inner ← r (js "rc/a.ts:10-12") None (js "rc/a.ts:10-12");
        outer ← r (js "[src/a.ts:10-12](src/a.ts:10-12)") None (js "s" ++ inner);
        Some (js "<p>" ++ outer ++ js "</p>" ++ nl)) ->
  sanitize (js "<p>src/a.ts:10-12</p>" ++ nl) = Some (js "<p>src/a.ts:10-12</p>" ++ nl) ->
  (forall html,
      markup marked_parse md listed = Some html ->
      exists out,
        sanitize html = Some out
        /\ forall frag, In frag exampleFragments ->
             includes frag html = true -> includes frag out = true) ->
  (exists html out,
      markup marked_parse md listed = Some html
      /\ startsWith (js "<p>" ++ exampleActiveTag) html = true
      /\ sanitize html = Some out
      /\ renderMarkdown marked_parse sanitize md listed = out
      /\ Forall (fun frag => includes frag out = true) exampleFragments)
  /\ markup marked_parse md empty = Some (js "<p>src/a.ts:10-12</p>" ++ nl)
  /\ renderMarkdown marked_parse sanitize md empty = js "<p>src/a.ts:10-12</p>" ++ nl
  /\ includes (js "<a") (js "<p>src/a.ts:10-12</p>" ++ nl) = false
  /\ includes (js "data-dw-") (js "<p>src/a.ts:10-12</p>" ++ nl) = false.
Proof.
  intros md listed empty Hmarked Hplain Hkeep.
  assert (linkifyNakedPathLine (linkifyBacktickPathLine md)
          = js "[s[rc/a.ts:10-12](rc/a.ts:10-12)]([src/a.ts:10-12](src/a.ts:10-12))")
    as Hlink by (vm_compute; reflexivity).
  assert (markup marked_parse md empty = Some (js "<p>src/a.ts:10-12</p>" ++ nl)) as He.
  { unfold markup. rewrite Hlink, Hmarked. vm_compute. reflexivity. }
  assert (exists html,
            markup marked_parse md listed = Some html
            /\ startsWith (js "<p>" ++ exampleActiveTag) html = true
            /\ Forall (fun frag => includes frag html = true) exampleFragments)
    as (html & Hl & Hstart & Hfrags).
  { eexists. split; [|split].
    - unfold markup. rewrite Hlink, Hmarked. vm_compute. reflexivity.
    - vm_compute. reflexivity.
    - vm_compute. repeat constructor. }
  split; [|split; [exact He|split; [|split; vm_compute; reflexivity]]].
  - destruct (Hkeep html Hl) as (out & Hout & Hk).
    exists html, out. split; [exact Hl|]. split; [exact Hstart|].
    split; [exact Hout|]. split.
    + unfold renderMarkdown. rewrite Hl. cbn [mbind option_bind]. rewrite Hout.
      reflexivity.
    + rewrite List.Forall_forall in Hfrags. apply List.Forall_forall.
      intros frag Hin. exact (Hk frag Hin (Hfrags frag Hin)).
  - unfold renderMarkdown. rewrite He. cbn [mbind option_bind]. rewrite Hplain.
    reflexivity.
Qed.

Lemma allow_list_gates_location_link_witness :
  let nested := js "[s[rc/a.ts:10-12](rc/a.ts:10-12)]([src/a.ts:10-12](src/a.ts:10-12))" in
  let marked_parse := fun (r : LinkRenderer) (src : jstring) =>
    if jstring_eqb src nested then
      inner ← r (js "rc/a.ts:10-12") None (js "rc/a.ts:10-12");
      outer ← r (js "[src/a.ts:10-12](src/a.ts:10-12)") None (js "s" ++ inner);
      Some (js "<p>" ++ outer ++ js "</p>" ++ nl)
    else Some (js "<p>" ++ src ++ js "</p>" ++ nl) in
  let md := [96%Z] ++ js "src/a.ts:10-12" ++ [96%Z] in
  Forall (fun frag =>
            includes frag
              (renderMarkdown marked_parse Some md
                 (Some (mkOptions (Some {[ js "src/a.ts:10-12" ]})))) = true)
    exampleFragments
  /\ renderMarkdown marked_parse Some md (Some (mkOptions (Some ∅)))
     = js "<p>src/a.ts:10-12</p>" ++ nl.
Proof.
  intros nested marked_parse md.
  destruct (allow_list_gates_location_link marked_parse Some)
    as ((html & out & _ & _ & _ & Hr & Hf) & _ & He & _).
  - intros r. unfold marked_parse, jstring_eqb.
    rewrite bool_decide_eq_true_2 by reflexivity. reflexivity.
  - reflexivity.
  - intros html _. exists html. split; [reflexivity|]. intros frag _ H. exact H.
  - split; [|exact He]. fold md in Hr. rewrite Hr. exact Hf.
Defined.

(** ** Identifiers that start like a scheme *)

(** C8, the failing inputs.  [DataStore], [fileName], [httpClient] and
    [telemetry] are short identifiers without a scheme and without a
    file path, yet the test that keeps targets with a scheme away from
    the symbol links, [/^(file|https?|mailto|tel|data|#)/i], has no
    colon after the scheme name and so takes them for targets with a
    scheme.  For every allow-list and title the renderer returns an
    ordinary anchor that navigates to the identifier, with no
    [data-dw-symbol]; an identifier such as [MyClass] gets the
    placeholder with [href="#"]. *)
Theorem scheme_named_identifier_is_not_a_symbol_link
  (allowed : option (gset jstring)) (title : option jstring) :
  Forall
    (fun h =>
       length h < 200 /\ includes (js "//") h = false
       /\ includes (js ":") h = false /\ includes (js ".") h = false
       /\ symbolLike h = false
       /\ transformLinkHref h = Some (mkLink h None None None None None)
       /\ link allowed h title h
          = Some (js "<a href=" ++ dq ++ h ++ dq ++ titleAttribute title
                  ++ js ">" ++ h ++ js "</a>"))
    [js "DataStore"; js "fileName"; js "httpClient"; js "telemetry"]
  /\ transformLinkHref (js "MyClass")
     = Some (mkLink (js "#") None None None None (Some (js "MyClass")))
  /\ link allowed (js "MyClass") title (js "MyClass")
     = Some (js "<a href=" ++ dq ++ js "#" ++ dq
             ++ js " data-dw-symbol=" ++ dq ++ js "MyClass" ++ dq
             ++ titleAttribute title ++ js ">" ++ js "MyClass" ++ js "</a>").
Proof.
  assert (forall h,
            transformLinkHref h = Some (mkLink h None None None None None) ->
            escapeHtml h = h -> displayInner h = h ->
            link allowed h title h
            = Some (js "<a href=" ++ dq ++ h ++ dq ++ titleAttribute title
                    ++ js ">" ++ h ++ js "</a>")) as Hplain.
  { intros h Ht He Hd.
    rewrite (link_no_path allowed h title h _ Ht eq_refl).
    unfold anchor, dataAttributes. cbn [path symbol href].
    rewrite linkInner_no_path by reflexivity. rewrite He, Hd. reflexivity. }
  split; [|split].
  - repeat constructor; try (vm_compute; reflexivity); try (cbn [length]; lia);
      apply Hplain; vm_compute; reflexivity.
  - vm_compute. reflexivity.
  - rewrite (link_no_path allowed (js "MyClass") title (js "MyClass") _
               ltac:(vm_compute; reflexivity) eq_refl).
    unfold anchor, dataAttributes. cbn [path symbol href].
    rewrite linkInner_no_path by reflexivity.
    replace (escapeHtml (js "#")) with (js "#") by (vm_compute; reflexivity).
    replace (escapeHtml (js "MyClass")) with (js "MyClass") by (vm_compute; reflexivity).
    replace (displayInner (js "MyClass")) with (js "MyClass") by (vm_compute; reflexivity).
    rewrite app_nil_l, <- !app_assoc. reflexivity.
Qed.

(** ** Rendering without an allow-list *)

Lemma textLine_needs_colon : mustConsume 58 textLineRe.
Proof.
  change textLineRe with
    (Seq (str ":")
       (Seq (Group 1 (plus isDigit))
          (Seq (Opt (Seq (str "-") (Group 2 (plus isDigit))))
             (Seq (Opt (Seq (str ":") (Group 3 (plus isDigit)))) Eps)))).
  apply mustConsume_seq_l. change (str ":") with (Seq (lit 58) Eps).
  apply mustConsume_seq_l, mustConsume_lit.
Qed.

Lemma openFileHref_command args c :
  openFileHref args = Some c ->
  exists e, encodeURIComponent (stringify args) = Some e /\ c = commandPrefix ++ e.
Proof.
  unfold openFileHref. destruct (encodeURIComponent (stringify args)) as [e|];
    cbn [mbind option_bind]; intros H; [|discriminate H].
  exists e. split; [reflexivity|]. unfold commandPrefix. congruence.
Qed.

(** What the first step of [renderer.link] makes of a file link: a file
    link to the same path, and the same link when its line is not 1 or
    the text has no colon. *)
Lemma refineFromText_fileLink c p l k e text :
  (exists e0, c = commandPrefix ++ e0) ->
  exists c' l' k' e',
    refineFromText (fileLink c p l k e) text = Some (fileLink c' p l' k' e')
    /\ (exists e0, c' = commandPrefix ++ e0)
    /\ (l <> 1%Z \/ includes (js ":") text = false ->
        c' = c /\ l' = l /\ k' = k /\ e' = e).
Proof.
  intros Hc.
  assert (l <> 1%Z \/ includes (js ":") text = false ->
          refineFromText (fileLink c p l k e) text = Some (fileLink c p l k e)) as Hsame.
  { intros [Hl|Ht]; unfold refineFromText; cbn [path line fileLink].
    - destruct l as [|[q|q|]|q]; try reflexivity. congruence.
    - unfold exec.
      rewrite (mustConsume_search 58 textLineRe textLine_needs_colon text [] []
                 (includes_single 58 text Ht)).
      destruct l as [|[q|q|]|q]; reflexivity. }
  destruct (Z.eq_dec l 1%Z) as [->|Hl].
  - unfold refineFromText. cbn [path line fileLink symbol].
    destruct (exec textLineRe text) as [m|] eqn:Em.
    + match goal with
      | |- context [openFileHref ?a] =>
          destruct (openFileHref_total a) as [c' Hc'];
          destruct (openFileHref_command a c' Hc') as (e0 & _ & Ee0)
      end.
      rewrite Hc'. cbn [mbind option_bind].
      eexists c', _, _, _. split; [reflexivity|]. split; [eauto|].
      intros [Hl|Ht]; [congruence|].
      exfalso. unfold exec in Em.
      rewrite (mustConsume_search 58 textLineRe textLine_needs_colon text [] []
                 (includes_single 58 text Ht)) in Em. discriminate Em.
    + exists c, 1%Z, k, e. split; [reflexivity|]. split; [exact Hc|]. auto.
  - exists c, l, k, e. split; [apply Hsame; left; exact Hl|]. split; [exact Hc|]. auto.
Qed.

Lemma escapeHtml_command e : escapeHtml (commandPrefix ++ e) = commandPrefix ++ escapeHtml e.
Proof. rewrite escapeHtml_app. f_equal. Qed.

(** C9.  Without an allow-list every file link is allowed, and a
    [path:line] or [path:line-line] reference becomes an active command
    link.  [isAllowedFileLink] returns [true] for every path, line and
    end line when [allowedLinks] is [undefined] and [false] for every one
    of them when it is the empty set.  For a target made of a path, a
    colon and a line number, with or without a dash and an end line, the
    renderer built without a set returns, for every title and link text,
    an anchor whose target is the file-open command and whose data
    attributes carry the normalized path, a line and a column; when the
    line is not 1 or the text has no colon (so that the text refines
    nothing) they are the line of the target, column 1, the end line of
    the target, and the command holds these arguments.  The renderer
    built with the empty set returns the text.  [renderMarkdown] builds
    the renderer without a set both when [options] is absent and when
    its [allowedLinks] is [undefined]. *)
Theorem absent_allow_list_allows_every_file_link
  (p d : jstring) (d2 : option jstring) (title : option jstring) (text : jstring) :
  let h := p ++ js ":" ++ d ++ match d2 with Some x => js "-" ++ x | None => [] end in
  p <> [] -> forallb isDot p = true -> d <> [] -> forallb isDigit d = true ->
  (forall x, d2 = Some x -> x <> [] /\ forallb isDigit x = true) ->
  startsWith (js "file:") h = false -> includes (js "//") h = false ->
  (forall q l e, isAllowedFileLink q l e None = true)
  /\ (forall q l e, isAllowedFileLink q l e (Some ∅) = false)
  /\ (exists e l c lineEnd inner,
        link None h title text
        = Some (js "<a href=" ++ dq ++ js "command:symfocus.openFile?" ++ escapeHtml e ++ dq
                ++ js " data-dw-path=" ++ dq ++ escapeHtml (normalizePath p) ++ dq
                ++ js " data-dw-line=" ++ dq ++ numberToString l ++ dq
                ++ js " data-dw-col=" ++ dq ++ numberToString c ++ dq
                ++ lineEnd ++ titleAttribute title ++ js ">" ++ inner ++ js "</a>")
        /\ (lineEnd = []
            \/ exists n, lineEnd = js " data-dw-line-end=" ++ dq ++ numberToString n ++ dq)
        /\ (parseInt d <> 1%Z \/ includes (js ":") text = false ->
            l = parseInt d /\ c = 1%Z
            /\ lineEnd = match d2 with
                         | Some x => js " data-dw-line-end=" ++ dq
                                     ++ numberToString (parseInt x) ++ dq
                         | None => []
                         end
            /\ encodeURIComponent
                 (stringify (AString (normalizePath p) :: ANumber (parseInt d)
                             :: ANumber 1
                             :: match d2 with
                                | Some x => [ANumber (parseInt x)]
                                | None => []
                                end)) = Some e))
  /\ link (Some ∅) h title text = Some text
  /\ (forall (marked_parse : LinkRenderer -> jstring -> option jstring) md,
        markup marked_parse md None
        = marked_parse (link None) (linkifyNakedPathLine (linkifyBacktickPathLine md))
        /\ markup marked_parse md (Some (mkOptions None))
           = markup marked_parse md None).
Proof.
  intros h Hp Hdot Hd Hdig Hd2 Hfile Hinc.
  split; [exact isAllowedFileLink_absent|].
  split; [exact isAllowedFileLink_empty|].
  assert (exists c0 e0,
            transformLinkHref h
            = Some (fileLink c0 (normalizePath p) (parseInt d) 1 (option_map parseInt d2))
            /\ c0 = commandPrefix ++ e0
            /\ encodeURIComponent
                 (stringify (AString (normalizePath p) :: ANumber (parseInt d)
                             :: ANumber 1
                             :: match d2 with
                                | Some x => [ANumber (parseInt x)]
                                | None => []
                                end)) = Some e0) as (c0 & e0 & Ht0 & Ec0 & Ee0).
  { destruct d2 as [x|].
    - destruct (Hd2 x eq_refl) as [Hx Hxd].
      destruct (transformLinkHref_range_target p d x Hp Hdot Hd Hdig Hx Hxd Hfile Hinc)
        as (c0 & Hc0 & Ht0).
      destruct (openFileHref_command _ _ Hc0) as (e0 & Ee0 & Ec0).
      exists c0, e0. split; [exact Ht0|]. split; [exact Ec0|exact Ee0].
    - subst h. rewrite app_nil_r in *.
      destruct (transformLinkHref_line_target p d Hp Hdot Hd Hdig Hfile Hinc)
        as (c0 & Hc0 & Ht0).
      destruct (openFileHref_command _ _ Hc0) as (e0 & Ee0 & Ec0).
      exists c0, e0. split; [exact Ht0|]. split; [exact Ec0|exact Ee0]. }
  destruct (refineFromText_fileLink c0 (normalizePath p) (parseInt d) 1
              (option_map parseInt d2) text (ex_intro _ e0 Ec0))
    as (c' & l' & k' & e' & Hr & (e1 & Ec') & Hsame).
  split; [|split; [|split; reflexivity]].
  - exists e1, l', k',
      (match e' with
       | Some n => js " data-dw-line-end=" ++ dq ++ numberToString n ++ dq
       | None => []
       end),
      (linkInner (fileLink c' (normalizePath p) l' k' e') text).
    split; [|split].
    + unfold link. rewrite Ht0. cbn [mbind option_bind]. rewrite Hr.
      cbn [mbind option_bind path fileLink line endLine].
      rewrite isAllowedFileLink_absent. cbn [negb].
      unfold anchor, dataAttributes. cbn [symbol href path line col endLine fileLink default].
      rewrite Ec', escapeHtml_command. unfold commandPrefix.
      rewrite <- !app_assoc. reflexivity.
    + destruct e' as [n|]; [right; exists n; reflexivity|left; reflexivity].
    + intros Hcond. destruct (Hsame Hcond) as (Hc & -> & -> & ->).
      split; [reflexivity|]. split; [reflexivity|]. split.
      * destruct d2; reflexivity.
      * assert (e1 = e0) as ->
          by (rewrite Ec0, Ec' in Hc; exact (app_inv_head _ _ _ Hc)).
        exact Ee0.
  - unfold link. rewrite Ht0. cbn [mbind option_bind]. rewrite Hr.
    cbn [mbind option_bind path fileLink line endLine].
    rewrite isAllowedFileLink_empty. reflexivity.
Qed.

Lemma absent_allow_list_allows_every_file_link_witness :
  (exists inner,
     link None (js "rc/a.ts:10-12") None (js "rc/a.ts:10-12")
     = Some (exampleActiveTag ++ inner ++ js "</a>"))
  /\ link (Some ∅) (js "rc/a.ts:10-12") None (js "rc/a.ts:10-12")
     = Some (js "rc/a.ts:10-12").
Proof.
  destruct (absent_allow_list_allows_every_file_link (js "rc/a.ts") (js "10")
              (Some (js "12")) None (js "rc/a.ts:10-12"))
    as (_ & _ & (e & l & c & lineEnd & inner & Hl & _ & Hexact) & He & _).
  - discriminate.
  - reflexivity.
  - discriminate.
  - reflexivity.
  - intros x Hx. assert (x = js "12") as -> by congruence.
    split; [discriminate|reflexivity].
  - reflexivity.
  - reflexivity.
  - split; [|exact He]. exists inner.
    destruct Hexact as (-> & -> & -> & Hen); [left; vm_compute; discriminate|].
    assert (e = js "%5B%22src%2Fa.ts%22%2C10%2C1%2C12%5D") as ->.
    { assert (Some e = Some (js "%5B%22src%2Fa.ts%22%2C10%2C1%2C12%5D")) as Hs
        by (rewrite <- Hen; vm_compute; reflexivity).
      congruence. }
    etrans; [exact Hl|]. vm_compute. reflexivity.
Defined.

End ClaimProofs.

Section SymbolLinkProofs.
Import Regex RegexFacts URI Markdown MarkdownFacts TargetFacts SymbolFacts.

Lemma word_not c x : isWord x = true -> isWord c = false -> x <> c.
Proof. intros Hx Hc ->. congruence. Qed.

Lemma word_chars_without c h :
  forallb isWord h = true -> isWord c = false -> ~ In c h.
Proof.
  intros Hh Hc Hin. rewrite forallb_forall in Hh. specialize (Hh c Hin). congruence.
Qed.

Lemma startsWith_In p s c : startsWith p s = true -> In c p -> In c s.
Proof.
  revert s. induction p as [|a p IH]; intros s H Hin; [destruct Hin|].
  destruct s as [|b s]; [discriminate H|]. cbn [startsWith] in H.
  apply andb_prop in H as [Hab Hp]. apply Z.eqb_eq in Hab. subst b.
  destruct Hin as [->|Hin]; [left; reflexivity|right; exact (IH s Hp Hin)].
Qed.

Lemma includes_In p s c : includes p s = true -> In c p -> In c s.
Proof.
  induction s as [|b s IH]; intros H Hin; cbn [includes] in H.
  - rewrite orb_false_r in H. exact (startsWith_In p [] c H Hin).
  - apply orb_prop in H as [H|H]; [exact (startsWith_In p _ c H Hin)|].
    right. exact (IH H Hin).
Qed.

Lemma rangeRe_needs_colon : mustConsume 58 rangeRe.
Proof.
  unfold rangeRe, cat. cbn [fold_right].
  do 2 apply mustConsume_seq_r. apply mustConsume_seq_l.
  change (str ":") with (Seq (lit 58) Eps). apply mustConsume_seq_l, mustConsume_lit.
Qed.

Lemma lineColRe_needs_colon : mustConsume 58 lineColRe.
Proof.
  unfold lineColRe, cat. cbn [fold_right].
  do 2 apply mustConsume_seq_r. apply mustConsume_seq_l.
  change (str ":") with (Seq (lit 58) Eps). apply mustConsume_seq_l, mustConsume_lit.
Qed.

Lemma embeddedRe_needs_colon : mustConsume 58 embeddedRe.
Proof.
  unfold embeddedRe, cat. cbn [fold_right].
  apply mustConsume_seq_r. apply mustConsume_seq_l.
  change (str ":") with (Seq (lit 58) Eps). apply mustConsume_seq_l, mustConsume_lit.
Qed.

Lemma bareFileRe_needs_dot : mustConsume 46 bareFileRe.
Proof.
  unfold bareFileRe, cat. cbn [fold_right].
  apply mustConsume_seq_r, mustConsume_seq_l, mustConsume_group.
  apply mustConsume_seq_r, mustConsume_seq_l.
  change (str ".") with (Seq (lit 46) Eps). apply mustConsume_seq_l, mustConsume_lit.
Qed.

Lemma litI_lower c x :
  inRange 97 122 c = true ->
  ((x =? c)%Z || (inRange 97 122 c && (x =? c - 32)%Z)
   || (inRange 65 90 c && (x =? c + 32)%Z)) = true ->
  lowerAscii x = c.
Proof.
  unfold lowerAscii, inRange. intros Hc H.
  apply andb_prop in Hc as [H1 H2]. apply Z.leb_le in H1, H2.
  destruct (Z.eqb_spec x c) as [->|_].
  - destruct (97 <=? c)%Z eqn:E; destruct (65 <=? c)%Z eqn:E1;
      destruct (c <=? 90)%Z eqn:E2; cbn [andb]; try reflexivity; lia.
  - destruct (Z.eqb_spec x (c - 32)) as [->|_].
    + destruct (65 <=? c - 32)%Z eqn:E1; destruct (c - 32 <=? 90)%Z eqn:E2;
        cbn [andb]; lia.
    + cbn [orb] in H. rewrite andb_false_r in H. cbn [orb] in H.
      apply andb_prop in H as [H _]. apply andb_prop in H as [_ H].
      apply Z.leb_le in H. lia.
Qed.

Lemma litI_match c st :
  matchAt (litI c) st =
  match after st with
  | x :: aft =>
      if ((x =? c)%Z || (inRange 97 122 c && (x =? c - 32)%Z)
          || (inRange 65 90 c && (x =? c + 32)%Z))
      then [mkPos (x :: before st) aft (captures st)] else []
  | [] => []
  end.
Proof. reflexivity. Qed.

Lemma strI_starts w :
  Forall (fun c => inRange 97 122 c = true) w ->
  forall st,
    matchAt (fold_right (fun c r => Seq (litI c) r) Eps w) st <> [] ->
    startsWithNoCase w (after st) = true.
Proof.
  induction 1 as [|c w Hc _ IH]; intros st H; [reflexivity|].
  cbn [fold_right matchAt] in H. rewrite litI_match in H.
  destruct (after st) as [|x aft] eqn:Ea; [exfalso; apply H; reflexivity|].
  match type of H with
  | context [if ?b then _ else _] => destruct b eqn:Eb
  end; [|exfalso; apply H; reflexivity].
  cbn [flat_map] in H. rewrite app_nil_r in H.
  specialize (IH _ H). cbn [after] in IH.
  unfold startsWithNoCase in *. cbn [map startsWith].
  rewrite (litI_lower c x Hc Eb), Z.eqb_refl, IH. reflexivity.
Qed.

Lemma strI_fails (w : string) st :
  Forall (fun c => inRange 97 122 c = true) (js w) ->
  startsWithNoCase (js w) (after st) = false ->
  matchAt (strI w) st = [].
Proof.
  intros Hw Hs. destruct (matchAt (strI w) st) as [|y l] eqn:E; [reflexivity|].
  exfalso. unfold strI in E.
  rewrite (strI_starts (js w) Hw st) in Hs; [discriminate Hs|].
  rewrite E. discriminate.
Qed.

Lemma schemeRe_fails h :
  Forall (fun w => startsWithNoCase w h = false) schemeNames ->
  match h with x :: _ => x <> 35%Z | [] => True end ->
  test schemeRe h = false.
Proof.
  intros Hn Hh. unfold schemeNames in Hn.
  apply Forall_cons in Hn as [Hfile Hn]. apply Forall_cons in Hn as [Hhttp Hn].
  apply Forall_cons in Hn as [Hmailto Hn]. apply Forall_cons in Hn as [Htel Hn].
  apply Forall_cons in Hn as [Hdata _].
  unfold test, schemeRe. rewrite exec_bol_none; [reflexivity|].
  cbn [matchAt before flat_map]. rewrite app_nil_r.
  rewrite (strI_fails "file") by (try exact Hfile; vm_compute; repeat constructor).
  rewrite (strI_fails "http") by (try exact Hhttp; vm_compute; repeat constructor).
  rewrite (strI_fails "mailto") by (try exact Hmailto; vm_compute; repeat constructor).
  rewrite (strI_fails "tel") by (try exact Htel; vm_compute; repeat constructor).
  rewrite (strI_fails "data") by (try exact Hdata; vm_compute; repeat constructor).
  cbn [flat_map app map].
  change (str "#") with (Seq (lit 35) Eps). unfold lit. cbn [matchAt after].
  destruct h as [|x h]; [reflexivity|].
  destruct (Z.eqb_spec 35 x); [congruence|]. reflexivity.
Qed.

Lemma escapeHtml_word h : forallb isWord h = true -> escapeHtml h = h.
Proof.
  intros H. rewrite escapeHtml_chars.
  induction h as [|c h IH]; [reflexivity|].
  cbn [forallb] in H. apply andb_prop in H as [Hc Hh].
  cbn [flat_map]. rewrite (IH Hh). unfold escapeChar.
  destruct (Z.eqb_spec c 38) as [->|_]; [discriminate Hc|].
  destruct (Z.eqb_spec c 60) as [->|_]; [discriminate Hc|].
  destruct (Z.eqb_spec c 62) as [->|_]; [discriminate Hc|].
  destruct (Z.eqb_spec c 34) as [->|_]; [discriminate Hc|].
  reflexivity.
Qed.

(** X30.  Every link target that is shaped like an identifier (word
    characters only, not empty, shorter than 200 characters) and does
    not begin, in whatever letter case, with one of the scheme names
    [file], [http], [mailto], [tel] and [data] is a symbol link: for
    every allow-list, title and link text the renderer returns the
    placeholder anchor with [href="#"] that carries the identifier in
    [data-dw-symbol]. *)
Theorem identifier_without_scheme_name_is_a_symbol_link
  (allowed : option (gset jstring)) (h : jstring) (title : option jstring)
  (text : jstring) :
  h <> [] -> length h < 200 -> forallb isWord h = true ->
  Forall (fun w => startsWithNoCase w h = false) schemeNames ->
  transformLinkHref h = Some (mkLink (js "#") None None None None (Some h))
  /\ link allowed h title text
     = Some (js "<a href=" ++ dq ++ js "#" ++ dq
             ++ js " data-dw-symbol=" ++ dq ++ h ++ dq
             ++ titleAttribute title ++ js ">" ++ displayInner text ++ js "</a>").
Proof.
  intros Hne Hlen Hw Hn.
  assert (~ In 58%Z h) as Hcolon by (apply word_chars_without; [exact Hw|reflexivity]).
  assert (~ In 46%Z h) as Hdot by (apply word_chars_without; [exact Hw|reflexivity]).
  assert (~ In 47%Z h) as Hslash by (apply word_chars_without; [exact Hw|reflexivity]).
  assert (startsWith (js "file:") h = false) as Hfile.
  { destruct (startsWith (js "file:") h) eqn:E; [|reflexivity].
    exfalso. apply Hcolon. apply (startsWith_In _ _ _ E). vm_compute. tauto. }
  assert (includes (js "//") h = false) as Hinc.
  { destruct (includes (js "//") h) eqn:E; [|reflexivity].
    exfalso. apply Hslash. apply (includes_In _ _ _ E). vm_compute. tauto. }
  assert (symbolLike h = true) as Hsym.
  { unfold symbolLike. rewrite Hinc, schemeRe_fails.
    - destruct h as [|x h]; [congruence|]. cbn [length] in *.
      destruct (Nat.ltb_spec (S (length h)) 200); [reflexivity|lia].
    - exact Hn.
    - destruct h as [|x h]; [exact I|]. cbn [forallb] in Hw.
      apply andb_prop in Hw as [Hx _]. intros ->. discriminate Hx. }
  assert (transformLinkHref h = Some (mkLink (js "#") None None None None (Some h))) as Ht.
  { unfold transformLinkHref. rewrite Hfile, Hinc, Hsym. cbn [negb]. unfold exec.
    rewrite (mustConsume_search 58 rangeRe rangeRe_needs_colon h [] [] Hcolon).
    rewrite (mustConsume_search 58 lineColRe lineColRe_needs_colon h [] [] Hcolon).
    rewrite (mustConsume_search 58 embeddedRe embeddedRe_needs_colon h [] [] Hcolon).
    rewrite (mustConsume_search 46 bareFileRe bareFileRe_needs_dot h [] [] Hdot).
    reflexivity. }
  split; [exact Ht|].
  rewrite (link_no_path allowed h title text _ Ht eq_refl).
  unfold anchor, dataAttributes. cbn [path symbol href].
  rewrite linkInner_no_path by reflexivity.
  replace (escapeHtml (js "#")) with (js "#") by (vm_compute; reflexivity).
  rewrite (escapeHtml_word h Hw), app_nil_l, <- !app_assoc. reflexivity.
Qed.

Lemma identifier_without_scheme_name_is_a_symbol_link_witness :
  link (Some ∅) (js "MyClass") None (js "MyClass")
  = Some (jsq "<a href='#' data-dw-symbol='MyClass'>MyClass</a>").
Proof.
  destruct (identifier_without_scheme_name_is_a_symbol_link (Some ∅) (js "MyClass")
              None (js "MyClass")) as [_ H].
  - discriminate.
  - vm_compute. lia.
  - reflexivity.
  - vm_compute. repeat constructor.
  - rewrite H. vm_compute. reflexivity.
Defined.

End SymbolLinkProofs.

Section NumberProofs.
Import Regex URI Markdown.

(** The numbers of the model on inputs past the exact integers of a
    double: [parseInt] rounds to the nearest double, [String] prints
    the shortest digits that read back, with an exponent from 22 digits
    on, a number of 309 digits or more is [Infinity], which
    [JSON.stringify] writes as [null]. *)
Example numbers_are_doubles :
  parseInt (js "9007199254740993") = 9007199254740992%Z
  /\ parseInt (js "9007199254740995") = 9007199254740996%Z
  /\ numberToString (parseInt (js "1152921504606846976")) = js "1152921504606847000"
  /\ numberToString (parseInt (js "123456789012345678901234567890"))
     = js "1.2345678901234568e+29"
  /\ numberToString (parseInt (js "1000000000000000000000")) = js "1e+21"
  /\ numberToString (parseInt (repeat 57%Z 309)) = js "Infinity"
  /\ stringify [ANumber (parseInt (repeat 57%Z 309)); ANumber 1] = js "[null,1]".
Proof. vm_compute. repeat split; reflexivity. Qed.

(** Below [2^53] the numbers are exact. *)
Lemma parseInt_exact d :
  (0 <= decimalValue d < 2 ^ 53)%Z -> parseInt d = decimalValue d.
Proof.
  intros H. unfold parseInt, roundDouble, roundMagnitude.
  destruct (Z.ltb_spec (decimalValue d) 0); [lia|].
  destruct (Z.ltb_spec (decimalValue d) (2 ^ 53)); [reflexivity|lia].
Qed.

(** A line number past [2^53] is looked up in the allow-list as the
    double it rounds to. *)
Example rounded_line_number_is_looked_up_rounded :
  link (Some {[ js "a.ts:9007199254740992" ]}) (js "a.ts:9007199254740993") None
    (js "a.ts:9007199254740993")
  = Some (jsq "<a href='command:symfocus.openFile?%5B%22a.ts%22%2C9007199254740992%2C1%5D' data-dw-path='a.ts' data-dw-line='9007199254740992' data-dw-col='1'>a.ts<span class='dw-line-number'>:9007199254740993</span></a>").
Proof. vm_compute. reflexivity. Qed.

End NumberProofs.

